(** * Fitch parsimony with enumeration of ambiguous nodes (src/main/tree.py)

    A shallow embedding of [tree.py]: the two Fitch passes, the bounded
    enumeration of assignments to the ambiguous nodes, the origin veto, the
    entry point, the node-age utility and the loop of the renderer; then
    the definitions the properties are stated with, the lemmas, the claims
    C1 to C10, and further properties X1 to X30 of the same functions.

    Modelling choices.
    - An [ete3] tree is a rose tree; a node carries the attributes the code
      reads or writes ([name], [dist], [state], [operation], [gain],
      [loss]) and owns the ordered list of its children.
    - A [state] is a Python set over the binary character, kept as two
      membership bits; an attribute that was never set is [None].
    - Traversals that mutate the nodes they visit return the mutated tree;
      running counters and accumulated lists are threaded through the
      traversal the way the loops update them.
    - Python exceptions are values of [exn]; a computation is a [result].
    - The identity of a node object of the working tree is its preorder
      position; the tree objects a caller can hold live in a [store] keyed
      by address, where [fitch] allocates its copies.
    - [gain] and [loss] are plain booleans: Pass 1 sets both on every
      node before anything reads them, and [viz] is modelled on trees that
      went through it.
    - [ete3] itself is outside the repository: [copy], [traverse],
      [get_farthest_leaf] and [get_common_ancestor] follow its documented
      behaviour, and [viz] is followed up to its call of [render]. *)

From stdpp Require Import gmap strings list sorting.
From Stdlib Require Import ZArith Lia.

#[local] Set Warnings "-register-all".
#[local] Open Scope Z_scope.

(** ** Exceptions *)

Inductive exn : Type :=
| AttributeError   (* reading an attribute that was never set *)
| ValueError       (* unpacking [x, = s] when [s] is not a singleton *)
| TreeError        (* ete3: a target name matches several nodes *)
| NameError.       (* a reference that is bound to no object *)

Inductive result (A : Type) : Type :=
| Ok (a : A)
| Raise (e : exn).
Arguments Ok {A} a.
Arguments Raise {A} e.

#[export] Instance result_ret : MRet result := @Ok.
#[export] Instance result_bind : MBind result := λ A B f m,
  match m with Ok a => f a | Raise e => Raise e end.
#[export] Instance result_fmap : FMap result := λ A B f m,
  match m with Ok a => Ok (f a) | Raise e => Raise e end.

#[export] Instance exn_eq_dec : EqDecision exn.
Proof. solve_decision. Defined.

(** [[f(x) for x in xs]]: evaluated left to right, the first exception
    escapes. *)
Fixpoint comprehension {A B} (f : A → result B) (xs : list A) : result (list B) :=
  match xs with
  | [] => Ok []
  | x :: xs' => y ← f x; ys ← comprehension f xs'; Ok (y :: ys)
  end.

(** [for x in xs: acc = body(acc, x)] *)
Fixpoint for_each {A S} (body : S → A → result S) (xs : list A) (acc : S) : result S :=
  match xs with
  | [] => Ok acc
  | x :: xs' => acc' ← body acc x; for_each body xs' acc'
  end.

(** ** Data model *)

(** A Python set whose elements are drawn from the character states 0 and 1. *)
Record stateset : Type := StateSet { has0 : bool; has1 : bool }.

#[export] Instance stateset_eq_dec : EqDecision stateset.
Proof. solve_decision. Defined.

Definition set_and (a b : stateset) : stateset :=
  StateSet (has0 a && has0 b) (has1 a && has1 b).
Definition set_or (a b : stateset) : stateset :=
  StateSet (has0 a || has0 b) (has1 a || has1 b).
Definition issubset (a b : stateset) : bool :=
  implb (has0 a) (has0 b) && implb (has1 a) (has1 b).
Definition len (s : stateset) : Z :=
  (if has0 s then 1 else 0) + (if has1 s then 1 else 0).
(** truth value of a set: it is non-empty *)
Definition truthy (s : stateset) : bool := has0 s || has1 s.
(** [{v}] *)
Definition singleton (v : Z) : stateset := StateSet (v =? 0) (v =? 1).
Definition mem (v : Z) (s : stateset) : bool :=
  (has0 s && (v =? 0)) || (has1 s && (v =? 1)).

(** [set.intersection(s, *ss)] and [set.union(s, *ss)] *)
Definition set_intersection (s : stateset) (ss : list stateset) : stateset :=
  foldl set_and s ss.
Definition set_union (s : stateset) (ss : list stateset) : stateset :=
  foldl set_or s ss.

(** [x, = s] *)
Definition unpack (s : stateset) : result Z :=
  match s with
  | StateSet true false => Ok 0
  | StateSet false true => Ok 1
  | _ => Raise ValueError
  end.

(** The [operation] marker written by Pass 1. *)
Inductive op : Type :=
| Inter    (* '∩' *)
| Union.   (* '∪' *)

#[export] Instance op_eq_dec : EqDecision op.
Proof. solve_decision. Defined.

(** A node of an [ete3.Tree] together with the subtree it owns.  [dist] is
    the branch length above the node (a float in ete3, read only by
    [get_node_age]; whole numbers here). *)
Inductive Tree : Type := TreeNode {
  name : string;
  dist : Z;
  state : option stateset;
  operation : option op;
  gain : bool;
  loss : bool;
  children : list Tree }.

Definition is_leaf (node : Tree) : bool :=
  match children node with [] => true | _ :: _ => false end.

(** [node.state] and [node.operation] as attribute reads. *)
Definition get_state (node : Tree) : result stateset :=
  match state node with Some s => Ok s | None => Raise AttributeError end.
Definition get_operation (node : Tree) : result op :=
  match operation node with Some o => Ok o | None => Raise AttributeError end.

(** ** Pass 1: bottom-up state computation ([_fitch_pass1], tree.py:156) *)

(** The visit of [node] in the postorder loop, after the subtrees of its
    children were visited: [children'] are the children as the loop left
    them. *)
Definition pass1_node (node : Tree) (children' : list Tree) (min_changes : Z)
  : result (Tree * Z) :=
  match children' with
  | [] =>
      (* a leaf: only the flags are reset *)
      Ok (TreeNode (name node) (dist node) (state node) (operation node)
               false false [], min_changes)
  | d :: ds =>
      s ← get_state d;
      ss ← comprehension get_state ds;
      let shared_state := set_intersection s ss in
      if truthy shared_state then
        Ok (TreeNode (name node) (dist node) (Some shared_state) (Some Inter)
                 false false children', min_changes)
      else
        Ok (TreeNode (name node) (dist node) (Some (set_union s ss)) (Some Union)
                 false false children', min_changes + 1)
  end.

Fixpoint pass1_visit (node : Tree) (min_changes : Z) : result (Tree * Z) :=
  '(children', min_changes) ←
    (fix each (cs : list Tree) (min_changes : Z) : result (list Tree * Z) :=
       match cs with
       | [] => Ok ([], min_changes)
       | c :: cs' =>
           '(c', min_changes) ← pass1_visit c min_changes;
           '(cs'', min_changes) ← each cs' min_changes;
           Ok (c' :: cs'', min_changes)
       end) (children node) min_changes;
  pass1_node node children' min_changes.

(** The loop of [pass1_visit] over the children, by name. *)
Definition pass1_each : list Tree → Z → result (list Tree * Z) :=
  fix each (cs : list Tree) (min_changes : Z) : result (list Tree * Z) :=
    match cs with
    | [] => Ok ([], min_changes)
    | c :: cs' =>
        '(c', min_changes) ← pass1_visit c min_changes;
        '(cs'', min_changes) ← each cs' min_changes;
        Ok (c' :: cs'', min_changes)
    end.

(** Returns the working tree as the loop leaves it, and [min_changes]. *)
Definition _fitch_pass1 (tree : Tree) : result (Tree * Z) :=
  pass1_visit tree 0.

(** ** Pass 2: top-down disambiguation ([_fitch_pass2], tree.py:183) *)

(** A reference to a node object of the working tree: [ref_id] is the
    object's identity (its preorder position), [ref_name] what
    [node.name] reads through the reference. *)
Record node_ref : Type := NodeRef { ref_id : nat; ref_name : string }.

#[export] Instance node_ref_eq_dec : EqDecision node_ref.
Proof. solve_decision. Defined.

(** An ambiguous-node record [(node, state)]. *)
Definition record : Type := node_ref * Z.

(** [[(node, state) for state in (0, 1)]] *)
Definition both_states (node : node_ref) : list record := [(node, 0); (node, 1)].

(** The state written on a non-root [node] whose most recent ancestor has
    the (already refined) state [mra]. *)
Definition updated_state (mra : stateset) (node : Tree) : result stateset :=
  st ← get_state node;
  if issubset mra st then Ok (set_and st mra)
  else
    o ← get_operation node;
    match o with
    | Union => Ok (set_or mra st)
    | Inter =>
        match children node with
        | [] => Ok st  (* not reached: leaves are skipped *)
        | d :: ds =>
            s ← get_state d;
            ss ← comprehension get_state ds;
            Ok (set_or st (set_and mra (set_union s ss)))
        end
    end.

(** The body of the preorder loop at [node]; [mra] is [None] at the root.
    Returns the state the node has after the visit and the extended list
    of records. *)
Definition pass2_node (mra : option stateset) (node : Tree) (pos : nat)
    (ambiguous_nodes : list record) : result (stateset * list record) :=
  st ← match mra with
       | None => get_state node
       | Some a => updated_state a node
       end;
  if 1 <? len st
  then Ok (st, ambiguous_nodes ++ both_states (NodeRef pos (name node)))
  else Ok (st, ambiguous_nodes).

Fixpoint pass2_visit (mra : option stateset) (node : Tree) (pos : nat)
    (ambiguous_nodes : list record) : result (Tree * nat * list record) :=
  match children node with
  | [] => Ok (node, S pos, ambiguous_nodes)
  | _ :: _ =>
      '(st, ambiguous_nodes) ← pass2_node mra node pos ambiguous_nodes;
      '(children', pos', ambiguous_nodes) ←
        (fix each (cs : list Tree) (pos : nat) (amb : list record)
           : result (list Tree * nat * list record) :=
           match cs with
           | [] => Ok ([], pos, amb)
           | c :: cs' =>
               '(c', pos, amb) ← pass2_visit (Some st) c pos amb;
               '(cs'', pos, amb) ← each cs' pos amb;
               Ok (c' :: cs'', pos, amb)
           end) (children node) (S pos) ambiguous_nodes;
      Ok (TreeNode (name node) (dist node) (Some st) (operation node)
               (gain node) (loss node) children', pos', ambiguous_nodes)
  end.

(** The loop of [pass2_visit] over the children of a node left in state
    [st], by name. *)
Definition pass2_each (st : stateset)
  : list Tree → nat → list record → result (list Tree * nat * list record) :=
  fix each (cs : list Tree) (pos : nat) (amb : list record)
    : result (list Tree * nat * list record) :=
    match cs with
    | [] => Ok ([], pos, amb)
    | c :: cs' =>
        '(c', pos, amb) ← pass2_visit (Some st) c pos amb;
        '(cs'', pos, amb) ← each cs' pos amb;
        Ok (c' :: cs'', pos, amb)
    end.

(** Returns the working tree with the refined states, and the records. *)
Definition _fitch_pass2 (tree : Tree) : result (Tree * list record) :=
  '(tree', _, ambiguous_nodes) ← pass2_visit None tree 0%nat [];
  Ok (tree', ambiguous_nodes).

(** ** The ambiguity resolver ([_fitch], tree.py:57-130) *)

(** [itertools.combinations(xs, r)]: the [r]-element subsequences of [xs],
    in lexicographic order of the positions they take. *)
Fixpoint combinations {A} (xs : list A) (r : nat) {struct xs} : list (list A) :=
  match r, xs with
  | O, _ => [[]]
  | S _, [] => []
  | S r', x :: xs' => ((x ::.) <$> combinations xs' r') ++ combinations xs' r
  end.

(** [{node for node, _ in node_states}]: a set of node objects, hashed by
    identity. *)
Definition node_set (node_states : list record) : gset nat :=
  list_to_set ((ref_id ∘ fst) <$> node_states).

(** tree.py:212 *)
Definition _unique_nodes (node_states : list record) : bool :=
  bool_decide (size (node_set node_states) = length node_states).

(** [{node.name: state for node, state in tree_state}]: a later record
    overwrites an earlier one with the same name. *)
Definition name_states (tree_state : list record) : gmap string Z :=
  foldl (λ d '(node, state), <[ref_name node := state]> d) ∅ tree_state.

(** [changes = {'gain': set(), 'loss': set()}] *)
Record changes : Type := Changes { gains : gset string; losses : gset string }.

(** tree.py:80-83 and 97-100: the state a node counts with. *)
Definition effective_state (node_state : gmap string Z) (node : Tree) : result Z :=
  match node_state !! name node with
  | Some state => Ok state
  | None => st ← get_state node; unpack st
  end.

(** tree.py:102-110, one parent-to-child edge. *)
Definition count_edge (state : Z) (desc_name : string) (desc_state : Z)
    (acc : changes * Z) : changes * Z :=
  let '(ch, tot_changes) := acc in
  match state, desc_state with
  | 0, 1 => (Changes ({[desc_name]} ∪ gains ch) (losses ch), tot_changes + 1)
  | 1, 0 => (Changes (gains ch) ({[desc_name]} ∪ losses ch), tot_changes + 1)
  | _, _ => acc
  end.

(** tree.py:76-110, the body of the preorder loop at an internal [node]. *)
Definition count_node (node_state : gmap string Z) (is_root : bool) (node : Tree)
    (acc : changes * Z) : result (changes * Z) :=
  state ← effective_state node_state node;
  let acc :=
    if is_root && (state =? 1)
    then (Changes ({[name node]} ∪ gains acc.1) (losses acc.1), acc.2 + 1)
    else acc in
  for_each (λ acc desc,
      desc_state ← effective_state node_state desc;
      Ok (count_edge state (name desc) desc_state acc))
    (children node) acc.

Fixpoint count_visit (node_state : gmap string Z) (is_root : bool) (node : Tree)
    (acc : changes * Z) : result (changes * Z) :=
  match children node with
  | [] => Ok acc
  | _ :: _ =>
      acc ← count_node node_state is_root node acc;
      (fix each (cs : list Tree) (acc : changes * Z) : result (changes * Z) :=
         match cs with
         | [] => Ok acc
         | c :: cs' => acc ← count_visit node_state false c acc; each cs' acc
         end) (children node) acc
  end.

(** The loop of [count_visit] over the children, by name. *)
Definition count_each (node_state : gmap string Z)
  : list Tree → changes * Z → result (changes * Z) :=
  fix each (cs : list Tree) (acc : changes * Z) : result (changes * Z) :=
    match cs with
    | [] => Ok acc
    | c :: cs' => acc ← count_visit node_state false c acc; each cs' acc
    end.

(** tree.py:113-128: the deep copy of the working tree, annotated by name. *)
Fixpoint annotate (node_state : gmap string Z) (ch : changes) (node : Tree) : Tree :=
  TreeNode (name node) (dist node)
    (match node_state !! name node with
     | Some state => Some (singleton state)
     | None => state node
     end)
    (operation node)
    (if decide (name node ∈ gains ch) then true else gain node)
    (if decide (name node ∈ losses ch) then true else loss node)
    (annotate node_state ch <$> children node).

(** tree.py:66-130, the body of the loop over the combinations.  The
    accepted copies are fresh objects, which a set keyed by identity never
    merges: [annot_trees] lists them in the order they were added. *)
Definition try_assignment (tree : Tree) (min_changes : Z)
    (annot_trees : list Tree) (tree_state : list record) : result (list Tree) :=
  if negb (_unique_nodes tree_state) then Ok annot_trees
  else
    let node_state := name_states tree_state in
    '(ch, tot_changes) ←
      count_visit node_state true tree (Changes ∅ ∅, 0);
    if tot_changes =? min_changes
    then Ok (annot_trees ++ [annotate node_state ch tree])
    else Ok annot_trees.

(** ** No ambiguity (tree.py:132-145) *)

(** The flags the visit of a node in state [st] leaves on its child
    [desc]. *)
Definition mark_child (st : stateset) (desc : Tree) : result (bool * bool) :=
  if decide (st = singleton 0) then
    ds ← get_state desc;
    Ok (if decide (ds = singleton 1) then true else gain desc, loss desc)
  else if decide (st = singleton 1) then
    ds ← get_state desc;
    Ok (gain desc, if decide (ds = singleton 0) then true else loss desc)
  else Ok (gain desc, loss desc).

(** The preorder visit of [node]; [g] and [l] are the flags the visit of
    its parent left on it. *)
Fixpoint mark_visit (node : Tree) (g l : bool) : result Tree :=
  st ← get_state node;
  flags ← comprehension (mark_child st) (children node);
  children' ←
    (fix each (cs : list Tree) (fs : list (bool * bool)) : result (list Tree) :=
       match cs, fs with
       | c :: cs', f :: fs' =>
           c' ← mark_visit c f.1 f.2; cs'' ← each cs' fs'; Ok (c' :: cs'')
       | _, _ => Ok []
       end) (children node) flags;
  Ok (TreeNode (name node) (dist node) (state node) (operation node) g l children').

(** The loop of [mark_visit] over the children, by name. *)
Definition mark_each : list Tree → list (bool * bool) → result (list Tree) :=
  fix each (cs : list Tree) (fs : list (bool * bool)) : result (list Tree) :=
    match cs, fs with
    | c :: cs', f :: fs' =>
        c' ← mark_visit c f.1 f.2; cs'' ← each cs' fs'; Ok (c' :: cs'')
    | _, _ => Ok []
    end.

(** ** The origin veto ([_get_pseudo_root], tree.py:216) *)

(** All nodes, parents before children. *)
Fixpoint traverse (node : Tree) : list Tree :=
  node :: concat (traverse <$> children node).

Definition get_leaves (tree : Tree) : list Tree := filter (λ n, is_leaf n = true) (traverse tree).
Definition get_leaf_names (tree : Tree) : list string := name <$> get_leaves tree.

(** The number of nodes of [tree] called [nm]. *)
Definition name_count (tree : Tree) (nm : string) : nat :=
  length (filter (λ n, name n = nm) (traverse tree)).

(** The first node, going down from [node], that does not have exactly one
    child. *)
Fixpoint first_branching (node : Tree) : Tree :=
  match children node with
  | [c] => first_branching c
  | _ => node
  end.

(** ete3's [tree.get_common_ancestor(names)] for the names of all leaves of
    [tree].  ete3 first resolves every name to a node and raises a
    [TreeError] when a name is carried by two nodes of the tree; it then
    returns the first common ancestor of the targets, and seeds the search
    with the tree itself when there is a single target. *)
Definition get_common_ancestor (tree : Tree) (leaves : list string) : result Tree :=
  if bool_decide (Forall (λ nm, name_count tree nm = 1%nat) leaves) then
    match leaves with
    | [_] => Ok tree
    | _ => Ok (first_branching tree)
    end
  else Raise TreeError.

Definition _get_pseudo_root (tree : Tree) : result Tree :=
  let leaves := get_leaf_names tree in
  get_common_ancestor tree leaves.

(** ** [_fitch] (tree.py:51) *)

(** tree.py:147-153 *)
Definition origin_veto (tree : Tree) (annot_trees : list Tree) : result (list Tree) :=
  pseudo_root ← _get_pseudo_root tree;
  st ← get_state pseudo_root;
  if decide (st = singleton 1) then Ok [] else Ok annot_trees.

(** The working tree as the call leaves it, [min_changes] and the accepted
    copies. *)
Definition _fitch (tree : Tree) : result (Tree * (Z * list Tree)) :=
  '(tree, min_changes) ← _fitch_pass1 tree;
  '(tree, ambiguous_nodes) ← _fitch_pass2 tree;
  match ambiguous_nodes with
  | _ :: _ =>
      let r := size (node_set ambiguous_nodes) in
      if (10 <? r)%nat then Ok (tree, (min_changes, []))
      else
        annot_trees ←
          for_each (try_assignment tree min_changes)
                   (combinations ambiguous_nodes r) [];
        annot_trees ← origin_veto tree annot_trees;
        Ok (tree, (min_changes, annot_trees))
  | [] =>
      tree_cp ← mark_visit tree (gain tree) (loss tree);
      annot_trees ← origin_veto tree [tree_cp];
      Ok (tree, (min_changes, annot_trees))
  end.

(** ** The entry point ([fitch], tree.py:21) *)

(** The tree objects that exist, by address. *)
Abbreviation store := (gmap positive Tree).

(** [tree.copy('deepcopy')]: a fresh object with the same content. *)
Definition copy (σ : store) (t : Tree) : store * positive :=
  let l := fresh (dom σ) in (<[l := t]> σ, l).

Fixpoint copy_all (σ : store) (ts : list Tree) : store * list positive :=
  match ts with
  | [] => (σ, [])
  | t :: ts' =>
      let '(σ, l) := copy σ t in
      let '(σ, ls) := copy_all σ ts' in
      (σ, l :: ls)
  end.

(** [fitch(tree)] in the store [σ]: the store after the call, and what the
    call returns or raises.  [_fitch] runs on the private copy [tree_cp];
    its accepted trees are fresh objects, returned as a set of addresses.
    After an exception nothing refers to the copy any more, and the store
    keeps it as it was allocated. *)
Definition fitch (σ : store) (tree : positive)
  : store * result (Z * gset positive) :=
  match σ !! tree with
  | None => (σ, Raise NameError)
  | Some t =>
      let '(σ, tree_cp) := copy σ t in
      match _fitch t with
      | Raise e => (σ, Raise e)
      | Ok (t', (min_changes, annot_trees)) =>
          let σ := <[tree_cp := t']> σ in
          let '(σ, ls) := copy_all σ annot_trees in
          (σ, Ok (min_changes, list_to_set ls))
      end
  end.

(** ** Node ages ([get_node_age], tree.py:6) *)

(** What the dictionary holds: a name or a distance. *)
Inductive pyvalue : Type :=
| PyStr (s : string)
| PyNum (x : Z).

#[export] Instance pyvalue_eq_dec : EqDecision pyvalue.
Proof. solve_decision. Defined.

(** ete3's [node.get_farthest_leaf()], second component: the largest sum of
    branch lengths from [node] down to a leaf below it. *)
Fixpoint farthest_leaf_dist (node : Tree) : Z :=
  match children node with
  | [] => 0
  | c :: cs =>
      (fix each (cs : list Tree) (max_dist : Z) : Z :=
         match cs with
         | [] => max_dist
         | c :: cs' =>
             let total_d := dist c + farthest_leaf_dist c in
             each cs' (if max_dist <? total_d then total_d else max_dist)
         end) cs (dist c + farthest_leaf_dist c)
  end.

Fixpoint node_age_visit (node : Tree) (node_age : gmap string pyvalue)
  : gmap string pyvalue :=
  let node_age :=
    (fix each (cs : list Tree) (node_age : gmap string pyvalue) :=
       match cs with
       | [] => node_age
       | c :: cs' => each cs' (node_age_visit c node_age)
       end) (children node) node_age in
  if is_leaf node
  then <[name node := PyStr (name node)]> node_age
  else <[name node := PyNum (farthest_leaf_dist node)]> node_age.

(** The loop of [node_age_visit] over the children, by name. *)
Definition node_age_each
  : list Tree → gmap string pyvalue → gmap string pyvalue :=
  fix each (cs : list Tree) (node_age : gmap string pyvalue) :=
    match cs with
    | [] => node_age
    | c :: cs' => each cs' (node_age_visit c node_age)
    end.

Definition get_node_age (tree : Tree) : gmap string pyvalue :=
  node_age_visit tree ∅.

(** ** Rendering ([viz], tree.py:26) *)

(** The two node styles [viz] builds: [pos_node_style] (red) and
    [ori_node_style] (yellow). *)
Inductive node_style : Type :=
| pos_node_style
| ori_node_style.

#[export] Instance node_style_eq_dec : EqDecision node_style.
Proof. solve_decision. Defined.

(** What a [TextFace] is built from: a node's name or a node's state. *)
Inductive text_face : Type :=
| NameFace (nm : string)
| StateFace (st : stateset).

(** What the loop of [viz] does to one node: the faces it adds, in order,
    and the style the last [set_style] leaves ([None] when [set_style] is
    not called). *)
Record decoration : Type :=
  Decoration { faces : list text_face; style : option node_style }.

(** tree.py:37-45, the body of the preorder loop. *)
Definition viz_node (node : Tree) : result decoration :=
  faces ←
    (if is_leaf node
     then st ← get_state node; Ok [NameFace (name node); StateFace st]
     else Ok []);
  st ← get_state node;
  let style := if decide (st = singleton 1) then Some pos_node_style else None in
  let style := if gain node then Some ori_node_style else style in
  Ok (Decoration faces style).

(** tree.py:36-45: the decorations in preorder, as they stand when the
    tree is handed to ete3's [render]. *)
Definition viz (tree : Tree) : result (list decoration) :=
  comprehension viz_node (traverse tree).

(** * Specification-level definitions *)

(** ** Well-formed input *)

(** Every leaf carries a singleton state, [{0}] or [{1}]. *)
Fixpoint valid (t : Tree) : bool :=
  match children t with
  | [] => bool_decide (state t = Some (singleton 0) ∨ state t = Some (singleton 1))
  | _ :: _ => forallb valid (children t)
  end.

(** Every internal node has at most two children. *)
Fixpoint bifurcating (t : Tree) : bool :=
  (length (children t) <=? 2)%nat && forallb bifurcating (children t).

(** ** What Pass 1 computes *)

(** The Fitch set of a node, from the leaf states below it. *)
Fixpoint fset (t : Tree) : stateset :=
  match children t with
  | [] => default (StateSet false false) (state t)
  | c :: cs =>
      let shared := set_intersection (fset c) (fset <$> cs) in
      if truthy shared then shared else set_union (fset c) (fset <$> cs)
  end.

(** The states all children of [t] share, and the states any of them has. *)
Definition shared_of (t : Tree) : stateset :=
  match children t with
  | [] => StateSet false false
  | c :: cs => set_intersection (fset c) (fset <$> cs)
  end.

(** The number of nodes below and including [t] where the children share
    no state. *)
Fixpoint unions (t : Tree) : Z :=
  match children t with
  | [] => 0
  | _ :: _ =>
      foldr (λ c n, unions c + n) 0 (children t)
      + (if truthy (shared_of t) then 0 else 1)
  end.

(** The working tree as Pass 1 leaves it. *)
Fixpoint after_pass1 (t : Tree) : Tree :=
  match children t with
  | [] => TreeNode (name t) (dist t) (state t) (operation t) false false []
  | _ :: _ =>
      TreeNode (name t) (dist t) (Some (fset t))
        (Some (if truthy (shared_of t) then Inter else Union))
        false false (after_pass1 <$> children t)
  end.

Definition union_of (t : Tree) : stateset :=
  match children t with
  | [] => StateSet false false
  | c :: cs => set_union (fset c) (fset <$> cs)
  end.

(** ** What Pass 2 computes *)

(** The refined state of a node below an ancestor in state [a]. *)
Definition refined (a : stateset) (t : Tree) : stateset :=
  if issubset a (fset t) then set_and (fset t) a
  else if truthy (shared_of t) then set_or (fset t) (set_and a (union_of t))
  else set_or a (fset t).

(** The state Pass 2 leaves on an internal node: the root keeps its Fitch
    set. *)
Definition final (mra : option stateset) (t : Tree) : stateset :=
  match mra with
  | None => fset t
  | Some a => refined a t
  end.

(** The working tree as Pass 2 leaves it. *)
Fixpoint after_pass2 (mra : option stateset) (t : Tree) : Tree :=
  match children t with
  | [] => TreeNode (name t) (dist t) (state t) (operation t) false false []
  | _ :: _ =>
      TreeNode (name t) (dist t) (Some (final mra t))
        (Some (if truthy (shared_of t) then Inter else Union))
        false false (after_pass2 (Some (final mra t)) <$> children t)
  end.

(** The number of nodes of a tree, and of a list of trees. *)
Definition node_count (t : Tree) : nat := length (traverse t).

Definition nodes_count (ts : list Tree) : nat :=
  foldr (λ c n, (node_count c + n)%nat) 0%nat ts.

(** The records Pass 2 appends while it visits [t], whose root is at
    position [pos]. *)
Fixpoint ambiguous (mra : option stateset) (t : Tree) (pos : nat) : list record :=
  match children t with
  | [] => []
  | _ :: _ =>
      (if 1 <? len (final mra t) then both_states (NodeRef pos (name t)) else [])
      ++ (fix each (cs : list Tree) (pos : nat) : list record :=
            match cs with
            | [] => []
            | c :: cs' =>
                ambiguous (Some (final mra t)) c pos
                ++ each cs' (pos + node_count c)%nat
            end) (children t) (S pos)
  end.

(** The records appended below a node in state [st], child by child. *)
Definition ambiguous_each (st : stateset) : list Tree → nat → list record :=
  fix each (cs : list Tree) (pos : nat) : list record :=
    match cs with
    | [] => []
    | c :: cs' => ambiguous (Some st) c pos ++ each cs' (pos + node_count c)%nat
    end.

(** ** Assignments of states to all nodes *)

(** A tree of chosen states, one per node. *)
Inductive ltree : Type := LNode { lab : Z; subs : list ltree }.

(** [a] gives every node of [t] one of the states 0 and 1 and gives every
    leaf the state the leaf carries. *)
Fixpoint assigns (t : Tree) (a : ltree) : bool :=
  match children t with
  | [] =>
      bool_decide (subs a = []) && bool_decide (state t = Some (singleton (lab a)))
  | _ :: _ =>
      ((lab a =? 0) || (lab a =? 1))
      && (fix each (cs : list Tree) (bs : list ltree) : bool :=
            match cs, bs with
            | [], [] => true
            | c :: cs', b :: bs' => assigns c b && each cs' bs'
            | _, _ => false
            end) (children t) (subs a)
  end.

(** [assigns] child by child. *)
Definition assigns_each : list Tree → list ltree → bool :=
  fix each (cs : list Tree) (bs : list ltree) : bool :=
    match cs, bs with
    | [], [] => true
    | c :: cs', b :: bs' => assigns c b && each cs' bs'
    | _, _ => false
    end.

(** The number of parent-child edges whose two ends differ. *)
Fixpoint changes_of (a : ltree) : Z :=
  foldr (λ b n, (if lab a =? lab b then 0 else 1) + changes_of b + n) 0 (subs a).

(** The number of sets that miss [v]. *)
Definition misses (v : Z) (ss : list stateset) : Z :=
  foldr (λ s n, (if mem v s then 0 else 1) + n) 0 ss.

(** The assignment that gives the root the state [v] and lets every child
    follow its parent whenever its Fitch set allows. *)
Fixpoint follow (v : Z) (t : Tree) : ltree :=
  LNode v ((λ c, follow (if mem v (fset c) then v else 1 - v) c) <$> children t).

(** ** The records of Pass 2 *)

(** What a record of Pass 2 refers to: an internal node of the working
    tree that Pass 2 left with more than one state. *)
Definition refers (nodes : list Tree) (pos : nat) (rec : record) : Prop :=
  ∃ n, nodes !! (ref_id rec.1 - pos)%nat = Some n
       ∧ (pos ≤ ref_id rec.1)%nat
       ∧ ref_name rec.1 = name n
       ∧ children n ≠ []
       ∧ (∃ st, state n = Some st ∧ (1 <? len st) = true)
       ∧ (rec.2 = 0 ∨ rec.2 = 1).

(** ** The transition count of one candidate *)

(** The state a node counts with, when it has one. *)
Definition label (ns : gmap string Z) (u : Tree) : Z :=
  match ns !! name u with
  | Some v => v
  | None => match state u with Some s => if has1 s then 1 else 0 | None => 0 end
  end.

(** The node has an effective state, 0 or 1. *)
Definition resolvable (ns : gmap string Z) (u : Tree) : bool :=
  match ns !! name u with
  | Some v => (v =? 0) || (v =? 1)
  | None => bool_decide (state u = Some (singleton 0) ∨ state u = Some (singleton 1))
  end.

(** Every node of [u] has one. *)
Fixpoint resolved (ns : gmap string Z) (u : Tree) : bool :=
  resolvable ns u && forallb (resolved ns) (children u).

(** A parent in state [s] above a child in state [d]: tree.py:103 and
    tree.py:106. *)
Definition gain_edge (s d : Z) : bool := (s =? 0) && (d =? 1).
Definition loss_edge (s d : Z) : bool := (s =? 1) && (d =? 0).

(** The names the loop adds to [changes['gain']] or to [changes['loss']]
    below [u], one entry per event; [edge] tells which edges count. *)
Fixpoint named_events (edge : Z → Z → bool) (ns : gmap string Z) (u : Tree)
  : list string :=
  (name <$> filter (λ c, edge (label ns u) (label ns c) = true) (children u))
  ++ concat (named_events edge ns <$> children u).

(** The entries of [changes['gain']] and of [changes['loss']]. *)
Definition gained : gmap string Z → Tree → list string := named_events gain_edge.
Definition lost : gmap string Z → Tree → list string := named_events loss_edge.

(** The entry the root adds to [changes['gain']] (tree.py:85-92). *)
Definition root_gain (ns : gmap string Z) (is_root : bool) (u : Tree) : list string :=
  if is_root && negb (is_leaf u) && (label ns u =? 1) then [name u] else [].

(** The assignment a candidate amounts to. *)
Fixpoint labelling (ns : gmap string Z) (u : Tree) : ltree :=
  LNode (label ns u) (labelling ns <$> children u).

(** ** The candidates of the enumeration *)

(** A candidate only assigns 0 and 1. *)
Definition binary (ns : gmap string Z) : Prop :=
  ∀ nm v, ns !! nm = Some v → v = 0 ∨ v = 1.

(** ** Events of an annotated tree *)

(** [n.state == {v}] *)
Definition is_state (v : Z) (n : Tree) : bool :=
  bool_decide (state n = Some (singleton v)).

(** The edges of [e] that are a gain (parent [{0}], child [{1}]) or a loss
    (parent [{1}], child [{0}]). *)
Fixpoint edge_events (e : Tree) : Z :=
  foldr (λ c n,
      (if (is_state 0 e && is_state 1 c) || (is_state 1 e && is_state 0 c)
       then 1 else 0) + edge_events c + n)
    0 (children e).

(** The gain and loss events of an annotated tree, read from its states:
    the transitions on its edges, and a spontaneous gain when the root is
    in state [{1}]. *)
Definition transition_events (e : Tree) : Z :=
  (if is_state 1 e then 1 else 0) + edge_events e.

(** The gain and loss events of an annotated tree, read from its flags. *)
Definition flag_events (e : Tree) : Z :=
  Z.of_nat (length (filter (λ n, gain n = true) (traverse e)))
  + Z.of_nat (length (filter (λ n, loss n = true) (traverse e))).

(** ** The copy emitted without enumeration *)

(** The copy as the loop of tree.py:134-143 leaves it; [g] and [l] are
    the flags of the root. *)
Fixpoint marked (u : Tree) (g l : bool) : Tree :=
  TreeNode (name u) (dist u) (state u) (operation u) g l
    ((λ c, marked c
             (if is_state 0 u && is_state 1 c then true else gain c)
             (if is_state 1 u && is_state 0 c then true else loss c))
       <$> children u).

(** No node of [u] is flagged. *)
Fixpoint unflagged (u : Tree) : bool :=
  negb (gain u) && negb (loss u) && forallb unflagged (children u).

(** ** The enumeration *)

(** [tot_changes] and [changes] when the loop over the nodes ends. *)
Definition candidate_total (ns : gmap string Z) (u : Tree) : Z :=
  Z.of_nat (length (root_gain ns true u ++ gained ns u))
  + Z.of_nat (length (lost ns u)).

Definition candidate_changes (ns : gmap string Z) (u : Tree) : changes :=
  Changes (list_to_set (root_gain ns true u ++ gained ns u))
          (list_to_set (lost ns u)).

(** What one turn of the loop over the combinations adds to
    [annot_trees]. *)
Definition accepted (u : Tree) (min_changes : Z) (ts : list record) : list Tree :=
  if _unique_nodes ts && (candidate_total (name_states ts) u =? min_changes)
  then [annotate (name_states ts) (candidate_changes (name_states ts) u) u]
  else [].

(** ** Node ages *)

(** What [get_node_age] stores for a node. *)
Definition age_entry (n : Tree) : pyvalue :=
  if is_leaf n then PyStr (name n) else PyNum (farthest_leaf_dist n).

(** ** Outcomes of the entry point *)



(** ** Input without a leaf state *)

(** Some leaf of [t] has no [state] attribute. *)
Definition leaf_without_state (t : Tree) : Prop :=
  ∃ n, n ∈ traverse t ∧ children n = [] ∧ state n = None.

(** ** Example trees *)

(** A leaf in state [{v}] and an internal node, with unit branch lengths. *)
Definition leaf (nm : string) (v : Z) : Tree :=
  TreeNode nm 1 (Some (singleton v)) None false false [].
Definition inner (nm : string) (cs : list Tree) : Tree :=
  TreeNode nm 1 None None false false cs.

(** A star: two leaves in state 1 and two in state 0 below the root. *)
Definition star4 : Tree :=
  inner "r" [leaf "a" 1; leaf "b" 1; leaf "c" 0; leaf "d" 0].

Definition cherry_tree : Tree :=
  inner "r" [inner "x" [leaf "a" 1; leaf "b" 1]; leaf "c" 0].

(** Eleven cherries with leaf states 0 and 1 below one root: twelve
    ambiguous nodes. *)
Definition bush : Tree :=
  inner "r" (replicate 11 (inner "" [leaf "a" 0; leaf "b" 1])).

(** Two leaves in state 1: the root, which is the pseudo-root, is in
    state [{1}]. *)
Definition ones : Tree := inner "r" [leaf "a" 1; leaf "b" 1].

(** A node with four children, two in each state, next to a leaf in
    state 0. *)
Definition broom : Tree :=
  inner "r" [inner "u" [leaf "a" 1; leaf "b" 1; leaf "c" 0; leaf "d" 0];
             leaf "e" 0].

(** A cherry in state 1 next to two leaves in state 0, all below nodes
    with two children. *)
Definition late_gain : Tree :=
  inner "r" [inner "x" [inner "y" [leaf "a" 1; leaf "b" 1]; leaf "c" 0];
             leaf "d" 0].

(** A node with five children, three in state 1, next to a leaf in
    state 0. *)
Definition rake : Tree :=
  inner "r" [inner "u" [leaf "a" 1; leaf "b" 1; leaf "c" 1; leaf "d" 0; leaf "e" 0];
             leaf "f" 0].

(** Two nested internal nodes called ["x"], both in state [{1}], below an
    ambiguous root. *)
Definition namesakes : Tree :=
  inner "r" [inner "x" [inner "x" [leaf "a" 1; leaf "b" 1]; leaf "c" 1];
             leaf "d" 0].

(** The tree of [cherry_tree] with its two internal nodes left unnamed, as
    a Newick string without internal labels is read. *)
Definition unnamed : Tree :=
  inner "" [inner "" [leaf "a" 1; leaf "b" 1]; leaf "c" 0].

(** A root that carries the name of one of its leaves. *)
Definition homonym : Tree :=
  inner "a" [inner "x" [leaf "a" 1; leaf "b" 1]; leaf "c" 0].

(** A tree with a leaf whose state holds both values, and a tree with a
    leaf that has no state at all. *)
Definition wide_leaf : Tree :=
  inner "r" [TreeNode "a" 1 (Some (StateSet true true)) None false false [];
             leaf "b" 0].
Definition bare_leaf : Tree :=
  inner "r" [TreeNode "a" 1 None None false false []; leaf "b" 0].

(** ** Leaves, shape and counts *)

(** Every leaf of [t] has a [state] attribute, whatever set it holds. *)
Fixpoint stated (t : Tree) : bool :=
  match children t with
  | [] => bool_decide (state t ≠ None)
  | _ :: _ => forallb stated (children t)
  end.

(** The names, the branch lengths and the topology of a tree. *)
Inductive shape : Type :=
  Shape { shape_name : string; shape_dist : Z; shape_subs : list shape }.

(** The shape of [t]. *)
Fixpoint shape_of (t : Tree) : shape :=
  Shape (name t) (dist t) (shape_of <$> children t).

(** The leaves from left to right, each with its name and its state. *)
Definition leaf_states (t : Tree) : list (string * option stateset) :=
  (λ n, (name n, state n)) <$> get_leaves t.

(** Every leaf of [t] is in state [{v}]. *)
Definition uniform (v : Z) (t : Tree) : Prop :=
  ∀ n, n ∈ traverse t → children n = [] → state n = Some (singleton v).

(** The number of leaves of [t] in state [{v}]. *)
Definition leaves_in_state (v : Z) (t : Tree) : Z :=
  Z.of_nat (length (filter (λ n, state n = Some (singleton v)) (get_leaves t))).

(** The assignment that gives every internal node the state [v] and every
    leaf the state it carries. *)
Fixpoint constant (v : Z) (t : Tree) : ltree :=
  match children t with
  | [] => LNode (label ∅ t) []
  | _ :: _ => LNode v (constant v <$> children t)
  end.

(** ** What Pass 2 changes and returns *)

(** The tree with the states of its internal nodes left out. *)
Fixpoint without_inner_states (t : Tree) : Tree :=
  TreeNode (name t) (dist t)
    (match children t with [] => state t | _ :: _ => None end)
    (operation t) (gain t) (loss t)
    (without_inner_states <$> children t).

(** Every internal node of [t] has a [state] attribute. *)
Definition inner_stated (t : Tree) : Prop :=
  ∀ n, n ∈ traverse t → children n ≠ [] → state n ≠ None.

(** The records of [refs], both states for each node in turn. *)
Definition paired (refs : list node_ref) : list record := refs ≫= both_states.

(** What a successful visit of Pass 2 has done below [t]. *)
Definition pass2_outcome (t t2 : Tree) (pos pos' : nat) (amb amb' : list record)
  : Prop :=
  pos' = (pos + node_count t)%nat
  ∧ without_inner_states t2 = without_inner_states t
  ∧ inner_stated t
  ∧ ∃ refs, amb' = amb ++ paired refs
            ∧ Forall (λ r, (pos ≤ ref_id r < pos')%nat) refs
            ∧ NoDup (ref_id <$> refs).

(** ** The nodes of a candidate *)

(** The identities of the nodes a list of records names, one per record. *)
Definition ids (node_states : list record) : list nat :=
  (ref_id ∘ fst) <$> node_states.

(** ** What [_fitch] returns *)

(** Every leaf name is carried by one node only: what ete3 needs to
    resolve the names of the leaves to nodes. *)
Definition unique_leaf_names (u : Tree) : Prop :=
  Forall (λ nm, name_count u nm = 1%nat) (get_leaf_names u).

(** Every node of [e] is in state [{0}] or [{1}]. *)
Definition fully_resolved (e : Tree) : Prop :=
  ∀ n, n ∈ traverse e →
       state n = Some (singleton 0) ∨ state n = Some (singleton 1).

(** The test is decidable: ete3 makes it while it resolves the names. *)
#[local] Instance unique_leaf_names_dec u : Decision (unique_leaf_names u).
Proof. unfold unique_leaf_names. apply _. Defined.

(** The trees [_fitch] has collected on a valid input when it reaches the
    origin veto. *)
Definition candidates (t : Tree) : list Tree :=
  let u := after_pass2 None t in
  let amb := ambiguous None t 0 in
  match amb with
  | [] => [marked u false false]
  | _ :: _ => concat (accepted u (unions t) <$> combinations amb (size (node_set amb)))
  end.

(** Pass 2 found more than 10 ambiguous nodes. *)
Definition too_ambiguous (t : Tree) : bool :=
  (10 <? size (node_set (ambiguous None t 0)))%nat.

(** ** Edges and flags *)

(** The parent-child edges of a tree, each as the pair of its ends. *)
Fixpoint edges (t : Tree) : list (Tree * Tree) :=
  ((λ c, (t, c)) <$> children t) ++ concat (edges <$> children t).

(** The flags of [e] mark its transitions: a node below the root carries
    [gain] exactly when it is in state [{1}] under a parent in state
    [{0}], and [loss] exactly when it is in state [{0}] under a parent in
    state [{1}]; the root carries neither flag. *)
Definition flags_mark_transitions (e : Tree) : Prop :=
  gain e = false ∧ loss e = false
  ∧ ∀ p c, (p, c) ∈ edges e →
      gain c = is_state 0 p && is_state 1 c
      ∧ loss c = is_state 1 p && is_state 0 c.

(** ** Trees in one state *)

(** Every node of [e] is in state [{v}] and carries no flag. *)
Definition quiet (v : Z) (e : Tree) : Prop :=
  ∀ n, n ∈ traverse e →
       state n = Some (singleton v) ∧ gain n = false ∧ loss n = false.

(** ** Postorder and path lengths *)

(** [tree.traverse('postorder')]: the nodes, children before parents. *)
Fixpoint postorder (node : Tree) : list Tree :=
  concat (postorder <$> children node) ++ [node].


(** ** Styles *)

(** The style of a node in state [{1}] is the origin style below a parent
    in state [{0}] and the positive style otherwise; a node in state
    [{0}] gets no style. *)
Definition style_below (p c : Tree) : option node_style :=
  if is_state 1 c
  then Some (if is_state 0 p then ori_node_style else pos_node_style)
  else None.

(** ** The nodes Pass 1 marks *)

(** The internal nodes of a working tree that Pass 1 marked ['∪']. *)
Definition union_nodes (t1 : Tree) : list Tree :=
  filter (λ n, children n ≠ [] ∧ operation n = Some Union) (traverse t1).

(** ** Trees with all their states *)

(** Every node of [u] has a [state] attribute. *)
Definition every_state (u : Tree) : Prop :=
  ∀ n, n ∈ traverse u → state n ≠ None.

(** ** The ambiguous nodes of a working tree *)

(** [node] is internal and holds more than one state. *)
Definition is_ambiguous (node : Tree) : bool :=
  negb (is_leaf node)
  && match state node with Some st => 1 <? len st | None => false end.

(** Both records for every ambiguous node of [nodes], the first of which
    is at preorder position [pos]. *)
Fixpoint records_of (pos : nat) (nodes : list Tree) : list record :=
  match nodes with
  | [] => []
  | n :: nodes' =>
      (if is_ambiguous n then both_states (NodeRef pos (name n)) else [])
      ++ records_of (S pos) nodes'
  end.

(** ** Further example trees *)

(** The one history [_fitch] returns for [cherry_tree]: the root resolved
    to 0, a gain on the edge above ["x"]. *)
Definition cherry_history : Tree :=
  annotate {["r" := 0]} (Changes {["x"]} ∅) (after_pass2 None cherry_tree).

(** Two leaves called alike. *)
Definition twins : Tree := inner "r" [leaf "a" 0; leaf "a" 1].

(** Three leaves in state 0 below two internal nodes. *)
Definition zeros : Tree :=
  inner "r" [inner "x" [leaf "a" 0; leaf "b" 0]; leaf "c" 0].

(** [late_gain] below a root with a single child: the pseudo-root is the
    node ["r"], not the root. *)
Definition stalked : Tree := inner "s" [late_gain].

(** A cherry with one leaf in each state next to a leaf in state 0: the
    node ["u"] is marked ['∪'] and the root is resolved to 0. *)
Definition mixed_cherry : Tree :=
  inner "r" [inner "u" [leaf "a" 1; leaf "b" 0]; leaf "c" 0].

(** A leaf that holds both states below an ambiguous root. *)
Definition wide_below : Tree :=
  inner "r" [inner "x" [TreeNode "a" 1 (Some (StateSet true true)) None false false [];
                        leaf "b" 1];
             leaf "c" 0].

(** * Properties *)

(** ** Induction on trees *)

(** Structural induction with the hypothesis on every child. *)
Lemma Tree_rect' (P : Tree → Type) (Q : list Tree → Type)
    (Hnil : Q [])
    (Hcons : ∀ c cs, P c → Q cs → Q (c :: cs))
    (Hnode : ∀ n d s o g l cs, Q cs → P (TreeNode n d s o g l cs)) :
  ∀ t, P t.
Proof.
  fix IH 1. intros [n d s o g l cs]. apply Hnode.
  induction cs as [|c cs IHcs]; [exact Hnil | exact (Hcons c cs (IH c) IHcs)].
Defined.

Lemma Tree_ind' (P : Tree → Prop)
    (Hnode : ∀ n d s o g l cs, Forall P cs → P (TreeNode n d s o g l cs)) :
  ∀ t, P t.
Proof.
  apply (Tree_rect' P (Forall P)); auto.
Qed.

(** ** What Pass 1 computes *)

Lemma valid_leaf_state n d s o g l :
  valid (TreeNode n d s o g l []) = true →
  s = Some (singleton 0) ∨ s = Some (singleton 1).
Proof. simpl. intros H. by apply bool_decide_eq_true in H. Qed.

Lemma valid_children t :
  valid t = true → children t ≠ [] → Forall (λ c, valid c = true) (children t).
Proof.
  destruct t as [n d s o g l [|c cs]]; [done|]. intros H _.
  change (forallb valid (c :: cs) = true) in H.
  apply Is_true_true, forallb_True in H.
  eapply Forall_impl; [exact H|]. intros x Hx. by apply Is_true_true.
Qed.

Lemma get_state_after_pass1 c :
  valid c = true → get_state (after_pass1 c) = Ok (fset c).
Proof.
  destruct c as [n d s o g l [|c' cs]]; [|done].
  intros [-> | ->]%valid_leaf_state; done.
Qed.

Lemma comprehension_get_state_after_pass1 cs :
  Forall (λ c, valid c = true) cs →
  comprehension get_state (after_pass1 <$> cs) = Ok (fset <$> cs).
Proof.
  induction 1 as [|c cs Hc _ IH]; [done|].
  cbn [fmap list_fmap comprehension].
  rewrite get_state_after_pass1 by done. cbn [mbind result_bind].
  change (list_fmap Tree Tree after_pass1 cs) with (after_pass1 <$> cs).
  rewrite IH. done.
Qed.

Lemma pass1_each_spec cs :
  Forall (λ c, ∀ k, pass1_visit c k = Ok (after_pass1 c, k + unions c)) cs →
  ∀ k, pass1_each cs k
       = Ok (after_pass1 <$> cs, k + foldr (λ c n, unions c + n) 0 cs).
Proof.
  induction 1 as [|c cs Hc _ IH]; intros k; simpl.
  - f_equal. f_equal. lia.
  - rewrite Hc. simpl. rewrite IH. simpl. f_equal. f_equal. lia.
Qed.

Lemma pass1_visit_unfold t k :
  pass1_visit t k
  = '(children', k') ← pass1_each (children t) k; pass1_node t children' k'.
Proof. by destruct t. Qed.

(** On a valid tree Pass 1 raises nothing; it leaves [after_pass1] and has
    added [unions] to the counter. *)
Lemma pass1_visit_spec t :
  valid t = true → ∀ k, pass1_visit t k = Ok (after_pass1 t, k + unions t).
Proof.
  induction t as [n d s o g l cs IH] using Tree_ind'. intros Hv k.
  rewrite pass1_visit_unfold.
  destruct cs as [|c cs].
  { simpl. f_equal. f_equal. lia. }
  pose proof (valid_children _ Hv ltac:(done)) as Hcs. simpl in Hcs.
  rewrite (pass1_each_spec (c :: cs)).
  2:{ apply Forall_forall. intros x Hx.
      rewrite Forall_forall in IH. rewrite Forall_forall in Hcs. auto. }
  cbn [mbind result_bind children].
  inversion Hcs as [|? ? Hc Hcs']; subst.
  unfold pass1_node. cbn [fmap list_fmap].
  rewrite get_state_after_pass1 by done. cbn [mbind result_bind].
  rewrite comprehension_get_state_after_pass1 by done. cbn [mbind result_bind].
  change (after_pass1 (TreeNode n d s o g l (c :: cs))) with
    (TreeNode n d (Some (fset (TreeNode n d s o g l (c :: cs))))
       (Some (if truthy (shared_of (TreeNode n d s o g l (c :: cs))) then Inter else Union))
       false false (after_pass1 <$> (c :: cs))).
  change (unions (TreeNode n d s o g l (c :: cs))) with
    (foldr (λ c n, unions c + n) 0 (c :: cs)
     + (if truthy (shared_of (TreeNode n d s o g l (c :: cs))) then 0 else 1)).
  change (fset (TreeNode n d s o g l (c :: cs))) with
    (let shared := set_intersection (fset c) (fset <$> cs) in
     if truthy shared then shared else set_union (fset c) (fset <$> cs)).
  change (shared_of (TreeNode n d s o g l (c :: cs))) with
    (set_intersection (fset c) (fset <$> cs)).
  cbv zeta. cbn [name dist].
  destruct (truthy (set_intersection (fset c) (fset <$> cs))).
  - f_equal. f_equal. lia.
  - f_equal. f_equal. lia.
Qed.

Lemma _fitch_pass1_spec t :
  valid t = true → _fitch_pass1 t = Ok (after_pass1 t, unions t).
Proof. intros Hv. unfold _fitch_pass1. by rewrite pass1_visit_spec. Qed.

(** ** What Pass 2 computes *)

Lemma node_count_unfold t :
  node_count t = S (nodes_count (children t)).
Proof.
  destruct t as [n d s o g l cs]. unfold node_count.
  cbn [traverse children length]. f_equal.
  induction cs as [|c cs IH]; [done|].
  cbn [fmap list_fmap concat nodes_count foldr]. rewrite length_app.
  unfold node_count at 1. f_equal. exact IH.
Qed.

Lemma pass2_visit_unfold mra t pos amb :
  pass2_visit mra t pos amb =
  match children t with
  | [] => Ok (t, S pos, amb)
  | _ :: _ =>
      '(st, amb) ← pass2_node mra t pos amb;
      '(children', pos', amb) ← pass2_each st (children t) (S pos) amb;
      Ok (TreeNode (name t) (dist t) (Some st) (operation t)
                   (gain t) (loss t) children', pos', amb)
  end.
Proof. by destruct t. Qed.

Lemma after_pass1_inner t :
  children t ≠ [] →
  after_pass1 t =
  TreeNode (name t) (dist t) (Some (fset t))
    (Some (if truthy (shared_of t) then Inter else Union))
    false false (after_pass1 <$> children t).
Proof. destruct t as [n d s o g l [|c cs]]; done. Qed.

Lemma after_pass2_inner mra t :
  children t ≠ [] →
  after_pass2 mra t =
  TreeNode (name t) (dist t) (Some (final mra t))
    (Some (if truthy (shared_of t) then Inter else Union))
    false false (after_pass2 (Some (final mra t)) <$> children t).
Proof. destruct t as [n d s o g l [|c cs]]; done. Qed.

Lemma ambiguous_inner mra t pos :
  children t ≠ [] →
  ambiguous mra t pos =
  (if 1 <? len (final mra t) then both_states (NodeRef pos (name t)) else [])
  ++ ambiguous_each (final mra t) (children t) (S pos).
Proof. destruct t as [n d s o g l [|c cs]]; done. Qed.

Lemma children_after_pass1 t : children (after_pass1 t) = after_pass1 <$> children t.
Proof. by destruct t as [n d s o g l [|c cs]]. Qed.

Lemma name_after_pass1 t : name (after_pass1 t) = name t.
Proof. by destruct t as [n d s o g l [|c cs]]. Qed.

Lemma updated_state_after_pass1 a t :
  valid t = true → children t ≠ [] →
  updated_state a (after_pass1 t) = Ok (refined a t).
Proof.
  intros Hv Hne. unfold updated_state, refined.
  rewrite (after_pass1_inner t Hne). cbn [get_state state mbind result_bind].
  destruct (issubset a (fset t)); [done|].
  cbn [get_operation operation mbind result_bind children].
  pose proof (valid_children _ Hv Hne) as Hcs.
  unfold shared_of, union_of.
  destruct (children t) as [|c cs]; [done|].
  inversion Hcs; subst.
  destruct (truthy (set_intersection (fset c) (fset <$> cs))); [|done].
  cbn [fmap list_fmap].
  rewrite get_state_after_pass1 by done. cbn [mbind result_bind].
  change (list_fmap Tree Tree after_pass1 cs) with (after_pass1 <$> cs).
  rewrite comprehension_get_state_after_pass1 by done. done.
Qed.

Lemma pass2_each_spec st cs :
  Forall (λ c, ∀ pos amb,
    pass2_visit (Some st) (after_pass1 c) pos amb
    = Ok (after_pass2 (Some st) c, (pos + node_count c)%nat,
          amb ++ ambiguous (Some st) c pos)) cs →
  ∀ pos amb,
    pass2_each st (after_pass1 <$> cs) pos amb
    = Ok (after_pass2 (Some st) <$> cs, (pos + nodes_count cs)%nat,
          amb ++ ambiguous_each st cs pos).
Proof.
  induction 1 as [|c cs Hc _ IH]; intros pos amb.
  - simpl. rewrite app_nil_r. do 3 f_equal. lia.
  - cbn [fmap list_fmap pass2_each]. rewrite Hc. cbn [mbind result_bind].
    change (list_fmap Tree Tree after_pass1 cs) with (after_pass1 <$> cs).
    rewrite IH. cbn [mbind result_bind ambiguous_each nodes_count foldr].
    rewrite <- app_assoc. do 3 f_equal. unfold nodes_count. lia.
Qed.

(** On a valid tree Pass 2 raises nothing after Pass 1. *)
Lemma pass2_visit_spec t :
  valid t = true → ∀ mra pos amb,
  pass2_visit mra (after_pass1 t) pos amb
  = Ok (after_pass2 mra t, (pos + node_count t)%nat, amb ++ ambiguous mra t pos).
Proof.
  induction t as [n d s o g l cs IH] using Tree_ind'. intros Hv mra pos amb.
  rewrite pass2_visit_unfold, children_after_pass1.
  destruct cs as [|c cs].
  { simpl. rewrite app_nil_r. do 3 f_equal. unfold node_count. simpl. lia. }
  set (t := TreeNode n d s o g l (c :: cs)) in *.
  assert (Hne : children t ≠ []) by done.
  cbn [fmap list_fmap].
  assert (Hnode : pass2_node mra (after_pass1 t) pos amb
    = Ok (final mra t,
          amb ++ (if 1 <? len (final mra t) then both_states (NodeRef pos (name t)) else []))).
  { unfold pass2_node. rewrite name_after_pass1.
    assert (Hst : match mra with
                  | Some a => updated_state a (after_pass1 t)
                  | None => get_state (after_pass1 t)
                  end = Ok (final mra t)).
    { destruct mra as [a|]; cbn [final].
      - by apply updated_state_after_pass1.
      - by rewrite (after_pass1_inner t Hne). }
    rewrite Hst. cbn [mbind result_bind].
    destruct (1 <? len (final mra t)); [done|]. by rewrite app_nil_r. }
  rewrite Hnode. cbn [mbind result_bind].
  pose proof (valid_children _ Hv Hne) as Hcs.
  change (after_pass1 c :: list_fmap Tree Tree after_pass1 cs)
    with (after_pass1 <$> children t).
  rewrite (pass2_each_spec (final mra t) (children t)).
  2:{ apply Forall_forall. intros x Hx.
      rewrite Forall_forall in IH. rewrite Forall_forall in Hcs. auto. }
  cbn [mbind result_bind].
  rewrite (after_pass2_inner mra t Hne), (ambiguous_inner mra t pos Hne).
  rewrite (node_count_unfold t), (after_pass1_inner t Hne).
  cbn [name dist operation gain loss].
  rewrite <- app_assoc. do 3 f_equal. lia.
Qed.

Lemma _fitch_pass2_spec t :
  valid t = true →
  _fitch_pass2 (after_pass1 t) = Ok (after_pass2 None t, ambiguous None t 0).
Proof. intros Hv. unfold _fitch_pass2. by rewrite pass2_visit_spec. Qed.

(** ** Assignments of states to all nodes *)

Lemma has0_set_intersection s ss :
  has0 (set_intersection s ss) = has0 s && forallb has0 ss.
Proof.
  unfold set_intersection. revert s.
  induction ss as [|x ss IH]; intros s; simpl.
  - by rewrite andb_true_r.
  - rewrite IH. simpl. by rewrite andb_assoc.
Qed.

Lemma has1_set_intersection s ss :
  has1 (set_intersection s ss) = has1 s && forallb has1 ss.
Proof.
  unfold set_intersection. revert s.
  induction ss as [|x ss IH]; intros s; simpl.
  - by rewrite andb_true_r.
  - rewrite IH. simpl. by rewrite andb_assoc.
Qed.

Lemma has0_set_union s ss :
  has0 (set_union s ss) = has0 s || existsb has0 ss.
Proof.
  unfold set_union. revert s.
  induction ss as [|x ss IH]; intros s; simpl.
  - by rewrite orb_false_r.
  - rewrite IH. simpl. by rewrite orb_assoc.
Qed.

Lemma has1_set_union s ss :
  has1 (set_union s ss) = has1 s || existsb has1 ss.
Proof.
  unfold set_union. revert s.
  induction ss as [|x ss IH]; intros s; simpl.
  - by rewrite orb_false_r.
  - rewrite IH. simpl. by rewrite orb_assoc.
Qed.

Lemma misses_nonneg v ss : 0 ≤ misses v ss.
Proof. induction ss as [|s ss IH]; simpl; [lia|]. destruct (mem v s); lia. Qed.

Lemma misses_0_has0 ss : misses 0 ss ≤ 0 → forallb has0 ss = true.
Proof.
  induction ss as [|s ss IH]; [done|]. simpl.
  pose proof (misses_nonneg 0 ss).
  unfold mem. destruct s as [[] []]; simpl; intros; try lia; apply IH; lia.
Qed.

Lemma misses_1_has1 ss : misses 1 ss ≤ 0 → forallb has1 ss = true.
Proof.
  induction ss as [|s ss IH]; [done|]. simpl.
  pose proof (misses_nonneg 1 ss).
  unfold mem. destruct s as [[] []]; simpl; intros; try lia; apply IH; lia.
Qed.

Lemma forallb_has0_false ss :
  Forall (λ s, truthy s = true) ss → forallb has0 ss = false → existsb has1 ss = true.
Proof.
  induction 1 as [|s ss Hs _ IH]; [done|]. simpl.
  destruct s as [[] []]; simpl in *; try done; auto.
Qed.

Lemma forallb_has1_false ss :
  Forall (λ s, truthy s = true) ss → forallb has1 ss = false → existsb has0 ss = true.
Proof.
  induction 1 as [|s ss Hs _ IH]; [done|]. simpl.
  destruct s as [[] []]; simpl in *; try done; auto.
Qed.

(** How many children must differ from a parent in state [v]. *)
Lemma misses_bound v s ss :
  v = 0 ∨ v = 1 →
  Forall (λ s, truthy s = true) (s :: ss) →
  (if truthy (set_intersection s ss)
   then (if mem v (set_intersection s ss) then 0 else 1)
   else 1 + (if mem v (set_union s ss) then 0 else 1))
  ≤ misses v (s :: ss).
Proof.
  intros Hv Hall.
  pose proof (misses_nonneg v (s :: ss)) as Hnn.
  pose proof (has0_set_intersection s ss) as I0.
  pose proof (has1_set_intersection s ss) as I1.
  pose proof (has0_set_union s ss) as U0.
  pose proof (has1_set_union s ss) as U1.
  change (has0 s && forallb has0 ss) with (forallb has0 (s :: ss)) in I0.
  change (has1 s && forallb has1 ss) with (forallb has1 (s :: ss)) in I1.
  change (has0 s || existsb has0 ss) with (existsb has0 (s :: ss)) in U0.
  change (has1 s || existsb has1 ss) with (existsb has1 (s :: ss)) in U1.
  pose proof (misses_0_has0 (s :: ss)) as M0.
  pose proof (misses_1_has1 (s :: ss)) as M1.
  pose proof (forallb_has0_false _ Hall) as E1.
  pose proof (forallb_has1_false _ Hall) as E0.
  unfold truthy, mem.
  destruct (has0 (set_intersection s ss)) eqn:H0,
           (has1 (set_intersection s ss)) eqn:H1;
    destruct Hv as [-> | ->]; cbn [andb orb Z.eqb Pos.eqb];
    rewrite ?andb_true_r, ?andb_false_r, ?orb_false_r; try lia.
  - destruct (Z.le_gt_cases (misses 1 (s :: ss)) 0) as [Hle|]; [|lia].
    apply M1 in Hle. congruence.
  - destruct (Z.le_gt_cases (misses 0 (s :: ss)) 0) as [Hle|]; [|lia].
    apply M0 in Hle. congruence.
  - rewrite U0, E0 by congruence.
    destruct (Z.le_gt_cases (misses 0 (s :: ss)) 0) as [Hle|]; [|lia].
    apply M0 in Hle. congruence.
  - rewrite orb_false_l, U1, E1 by congruence.
    destruct (Z.le_gt_cases (misses 1 (s :: ss)) 0) as [Hle|]; [|lia].
    apply M1 in Hle. congruence.
Qed.

Lemma truthy_set_union s ss : truthy s = true → truthy (set_union s ss) = true.
Proof.
  unfold truthy. rewrite has0_set_union, has1_set_union.
  destruct (has0 s), (has1 s); simpl; try done.
  intros _. apply orb_true_r.
Qed.

(** The Fitch set of a valid tree is not empty. *)
Lemma truthy_fset t : valid t = true → truthy (fset t) = true.
Proof.
  induction t as [n d s o g l cs IH] using Tree_ind'. intros Hv.
  destruct cs as [|c cs].
  { apply valid_leaf_state in Hv as [-> | ->]; done. }
  pose proof (valid_children _ Hv ltac:(done)) as Hcs. simpl in Hcs.
  cbn [fset children].
  destruct (truthy (set_intersection (fset c) (fset <$> cs))) eqn:E; [done|].
  apply truthy_set_union.
  inversion IH; subst. inversion Hcs; subst. auto.
Qed.

Lemma assigns_inner t a :
  children t ≠ [] →
  assigns t a = ((lab a =? 0) || (lab a =? 1)) && assigns_each (children t) (subs a).
Proof. destruct t as [n d s o g l [|c cs]]; done. Qed.

Lemma changes_of_unfold v bs :
  changes_of (LNode v bs)
  = foldr (λ b n, (if v =? lab b then 0 else 1) + changes_of b + n) 0 bs.
Proof. done. Qed.

Lemma mem_singleton v w : v = 0 ∨ v = 1 → mem w (singleton v) = true → w = v.
Proof. intros [-> | ->]; unfold mem, singleton; simpl; lia. Qed.

Lemma mem_singleton_self v : v = 0 ∨ v = 1 → mem v (singleton v) = true.
Proof. by intros [-> | ->]. Qed.

(** Below a node in state [v], the children and their subtrees cost at
    least their own unions, plus one for every child set missing [v]. *)
Lemma lower_bound_each v cs :
  Forall (λ c, valid c = true →
    ∀ b, assigns c b = true →
      unions c + (if mem (lab b) (fset c) then 0 else 1) ≤ changes_of b) cs →
  Forall (λ c, valid c = true) cs →
  ∀ bs, assigns_each cs bs = true →
  foldr (λ c n, unions c + n) 0 cs + misses v (fset <$> cs)
  ≤ foldr (λ b n, (if v =? lab b then 0 else 1) + changes_of b + n) 0 bs.
Proof.
  induction 1 as [|c cs Hc _ IH]; intros Hval bs Hbs.
  - destruct bs; [simpl; lia | done].
  - destruct bs as [|b bs]; [done|].
    cbn [assigns_each] in Hbs. apply andb_true_iff in Hbs as [Hb Hbs].
    inversion Hval as [|? ? Hvc Hvcs]; subst.
    specialize (IH Hvcs bs Hbs). specialize (Hc Hvc b Hb).
    unfold misses in *. cbn [foldr fmap list_fmap].
    change (list_fmap Tree stateset fset cs) with (fset <$> cs).
    assert ((if mem v (fset c) then 0 else 1)
            ≤ (if v =? lab b then 0 else 1) + (if mem (lab b) (fset c) then 0 else 1)).
    { destruct (Z.eqb_spec v (lab b)) as [->|]; [|destruct (mem v _), (mem (lab b) _); lia].
      destruct (mem (lab b) (fset c)); lia. }
    lia.
Qed.

(** No assignment has fewer changes than Pass 1 counts, and one more is
    needed when the root takes a state outside its Fitch set. *)
Lemma lower_bound t :
  valid t = true →
  ∀ a, assigns t a = true →
    unions t + (if mem (lab a) (fset t) then 0 else 1) ≤ changes_of a.
Proof.
  induction t as [n d s o g l cs IH] using Tree_ind'. intros Hv [v bs] Ha.
  destruct cs as [|c cs].
  { simpl in Ha. apply andb_true_iff in Ha as [Hb Hs].
    apply bool_decide_eq_true in Hb, Hs. simpl in Hb, Hs. subst.
    apply valid_leaf_state in Hv.
    assert (v = 0 ∨ v = 1) as Hv01.
    { destruct Hv as [[= H0 H1]|[= H0 H1]]; lia. }
    cbn. rewrite mem_singleton_self by done. lia. }
  set (t := TreeNode n d s o g l (c :: cs)) in *.
  assert (Hne : children t ≠ []) by done.
  rewrite (assigns_inner t _ Hne) in Ha. cbn [lab subs] in Ha.
  apply andb_true_iff in Ha as [Hv01 Hbs].
  assert (v = 0 ∨ v = 1) as Hv01' by lia.
  pose proof (valid_children _ Hv Hne) as Hcs.
  pose proof (lower_bound_each v (children t) IH Hcs bs Hbs) as Hlow.
  rewrite changes_of_unfold.
  assert (Hm : (if truthy (shared_of t) then 0 else 1)
               + (if mem v (fset t) then 0 else 1)
               ≤ misses v (fset <$> children t)).
  { pose proof (misses_bound v (fset c) (fset <$> cs) Hv01') as Hb.
    unfold shared_of. cbn [fset t children].
    cbn [fmap list_fmap].
    destruct (truthy (set_intersection (fset c) (fset <$> cs))); apply Hb;
      (constructor;
       [ apply truthy_fset; by inversion Hcs
       | apply Forall_fmap; inversion Hcs; subst;
         eapply Forall_impl; [eassumption|]; intros; by apply truthy_fset ]). }
  cbn [lab].
  change (unions t) with
    (foldr (λ c n, unions c + n) 0 (children t)
     + (if truthy (shared_of t) then 0 else 1)).
  lia.
Qed.

Lemma lab_follow v t : lab (follow v t) = v.
Proof. by destruct t. Qed.

Lemma mem_01 v s : mem v s = true → v = 0 ∨ v = 1.
Proof. unfold mem. destruct (has0 s), (has1 s); simpl; lia. Qed.

Lemma bifurcating_children t :
  bifurcating t = true →
  (length (children t) ≤ 2)%nat ∧ Forall (λ c, bifurcating c = true) (children t).
Proof.
  destruct t as [n d s o g l cs]. cbn [bifurcating children].
  intros [H1 H2]%andb_true_iff. split; [by apply Nat.leb_le|].
  apply Is_true_true, forallb_True in H2.
  eapply Forall_impl; [exact H2|]. intros x Hx. by apply Is_true_true.
Qed.

(** On a valid tree with at most two children per node, [follow] started
    from a state of the root's Fitch set is an assignment with exactly as
    many changes as Pass 1 counts. *)
Lemma follow_optimal t :
  valid t = true → bifurcating t = true →
  ∀ v, mem v (fset t) = true →
    assigns t (follow v t) = true ∧ changes_of (follow v t) = unions t.
Proof.
  induction t as [n d s o g l cs IH] using Tree_ind'. intros Hv Hb v Hm.
  pose proof (mem_01 _ _ Hm) as Hv01.
  destruct cs as [|c1 cs].
  { apply valid_leaf_state in Hv. cbn in Hm |- *.
    destruct Hv as [-> | ->]; simpl in Hm;
      apply (mem_singleton _ v) in Hm as ->; auto. }
  set (t := TreeNode n d s o g l (c1 :: cs)) in *.
  assert (Hne : children t ≠ []) by done.
  pose proof (valid_children _ Hv Hne) as Hcs.
  destruct (bifurcating_children _ Hb) as [Hlen Hbs].
  rewrite (assigns_inner t _ Hne).
  cbn [children t] in Hcs, Hlen, Hbs.
  inversion IH as [|? ? IH1 IHcs]; subst.
  inversion Hcs as [|? ? Hv1 Hvcs]; subst.
  inversion Hbs as [|? ? Hb1 Hbcs]; subst.
  pose proof (truthy_fset _ Hv1) as Ht1.
  destruct cs as [|c2 [|c3 cs]]; [| |simpl in Hlen; lia].
  - (* one child *)
    cbn in Hm. rewrite Ht1 in Hm.
    cbn [follow children t fmap list_fmap lab subs assigns_each].
    rewrite Hm. destruct (IH1 Hv1 Hb1 v Hm) as [Ha Hc].
    rewrite Ha. split.
    + destruct Hv01 as [-> | ->]; done.
    + rewrite changes_of_unfold. cbn [foldr]. rewrite Hc.
      rewrite lab_follow, Z.eqb_refl. unfold t.
      cbn [unions children foldr shared_of fmap list_fmap set_intersection foldl].
      rewrite Ht1. lia.
  - (* two children *)
    inversion IHcs as [|? ? IH2 _]; subst.
    inversion Hvcs as [|? ? Hv2 _]; subst.
    inversion Hbcs as [|? ? Hb2 _]; subst.
    pose proof (truthy_fset _ Hv2) as Ht2.
    cbn [follow children t fmap list_fmap lab subs assigns_each].
    change (unions t) with
      (unions c1 + (unions c2 + 0)
       + (if truthy (set_and (fset c1) (fset c2)) then 0 else 1)).
    change (fset t) with
      (if truthy (set_and (fset c1) (fset c2))
       then set_and (fset c1) (fset c2) else set_or (fset c1) (fset c2)) in Hm.
    rewrite changes_of_unfold. cbn [foldr].
    assert (H1 : mem (if mem v (fset c1) then v else 1 - v) (fset c1) = true).
    { revert Ht1. unfold mem, truthy.
      destruct (fset c1) as [[] []], Hv01 as [-> | ->]; done. }
    assert (H2 : mem (if mem v (fset c2) then v else 1 - v) (fset c2) = true).
    { revert Ht2. unfold mem, truthy.
      destruct (fset c2) as [[] []], Hv01 as [-> | ->]; done. }
    destruct (IH1 Hv1 Hb1 _ H1) as [Ha1 Hc1].
    destruct (IH2 Hv2 Hb2 _ H2) as [Ha2 Hc2].
    rewrite Ha1, Ha2, Hc1, Hc2.
    rewrite !lab_follow.
    split; [destruct Hv01 as [-> | ->]; done|].
    revert Hm Ht1 Ht2. unfold mem, truthy, set_and, set_or.
    destruct (fset c1) as [[] []], (fset c2) as [[] []], Hv01 as [-> | ->];
      cbn; rewrite ?Z.sub_0_r, ?Z.sub_diag; cbn; intros; try done; lia.
Qed.

(** *** Pass 1 on trees with more than two children per node *)

Lemma star4_assignments a :
  assigns star4 a = true → changes_of a = 2.
Proof.
  destruct a as [v bs]. unfold star4, inner.
  rewrite assigns_inner by done. cbn [lab subs children].
  intros [Hv Hbs]%andb_true_iff.
  destruct bs as [|[v1 [|]] [|[v2 [|]] [|[v3 [|]] [|[v4 [|]] [|]]]]]; try done;
    cbn in Hbs; rewrite ?andb_false_r in Hbs; try done.
  repeat match goal with
         | H : _ && _ = true |- _ => apply andb_true_iff in H as [? ?]
         | H : bool_decide _ = true |- _ => apply bool_decide_eq_true in H
         end.
  repeat match goal with
         | H : Some _ = Some _ |- _ => injection H as ? ?
         end.
  assert (v1 = 1) as -> by lia. assert (v2 = 1) as -> by lia.
  assert (v3 = 0) as -> by lia. assert (v4 = 0) as -> by lia.
  assert (v = 0 ∨ v = 1) as [-> | ->] by lia; reflexivity.
Qed.

(** ** The records of Pass 2 *)

Lemma elem_of_concat {A} (x : A) (ls : list (list A)) :
  x ∈ concat ls ↔ ∃ l, l ∈ ls ∧ x ∈ l.
Proof.
  induction ls as [|l ls IH]; cbn [concat].
  - split; [by intros ?%elem_of_nil|]. intros (l & Hl & _). by apply elem_of_nil in Hl.
  - rewrite elem_of_app, IH. split.
    + intros [H|(l' & Hl' & Hx)]; [exists l; split; [left|done]|].
      exists l'. split; [by right|done].
    + intros (l' & Hl' & Hx). apply elem_of_cons in Hl' as [-> | Hl']; [by left|].
      right. eauto.
Qed.

Lemma traverse_unfold t :
  traverse t = t :: concat (traverse <$> children t).
Proof. by destruct t. Qed.

Lemma after_pass2_children mra t :
  children (after_pass2 mra t) = after_pass2 (Some (final mra t)) <$> children t.
Proof. by destruct t as [n d s o g l [|c cs]]. Qed.

Lemma name_after_pass2 mra t : name (after_pass2 mra t) = name t.
Proof. by destruct t as [n d s o g l [|c cs]]. Qed.

Lemma node_count_after_pass2 t : ∀ mra, node_count (after_pass2 mra t) = node_count t.
Proof.
  induction t as [n d s o g l cs IH] using Tree_ind'. intros mra.
  rewrite !node_count_unfold, after_pass2_children. f_equal.
  generalize (final mra (TreeNode n d s o g l cs)). cbn [children]. intros st.
  induction IH as [|c cs Hc _ IHcs]; [done|].
  cbn [fmap list_fmap nodes_count foldr]. rewrite Hc. f_equal. exact IHcs.
Qed.

Lemma refers_app_l nodes1 nodes2 pos rec :
  refers nodes1 pos rec → refers (nodes1 ++ nodes2) pos rec.
Proof.
  intros (n & Hn & ?). exists n. split; [|done].
  rewrite lookup_app_l; [done|]. by eapply lookup_lt_Some.
Qed.

Lemma refers_app_r nodes1 nodes2 pos rec :
  refers nodes2 (pos + length nodes1) rec → refers (nodes1 ++ nodes2) pos rec.
Proof.
  intros (n & Hn & Hle & ?). exists n. split; [|split; [lia|done]].
  rewrite lookup_app_r by lia. rewrite <- Hn. f_equal. lia.
Qed.

Lemma ambiguous_each_refers st cs :
  Forall (λ c, ∀ mra pos rec,
    rec ∈ ambiguous mra c pos → refers (traverse (after_pass2 mra c)) pos rec) cs →
  ∀ pos rec, rec ∈ ambiguous_each st cs pos →
    refers (concat (traverse <$> (after_pass2 (Some st) <$> cs))) pos rec.
Proof.
  induction 1 as [|c cs Hc _ IH]; intros pos rec Hin.
  - by apply elem_of_nil in Hin.
  - cbn [ambiguous_each] in Hin. cbn [fmap list_fmap concat].
    apply elem_of_app in Hin as [Hin|Hin].
    + apply refers_app_l. eauto.
    + apply refers_app_r.
      change (length (traverse (after_pass2 (Some st) c)))
        with (node_count (after_pass2 (Some st) c)).
      rewrite node_count_after_pass2. apply IH. exact Hin.
Qed.

Lemma ambiguous_refers t :
  ∀ mra pos rec,
    rec ∈ ambiguous mra t pos → refers (traverse (after_pass2 mra t)) pos rec.
Proof.
  induction t as [n d s o g l cs IH] using Tree_ind'. intros mra pos rec Hin.
  destruct cs as [|c cs]; [by apply elem_of_nil in Hin|].
  set (t := TreeNode n d s o g l (c :: cs)) in *.
  assert (Hne : children t ≠ []) by done.
  rewrite (ambiguous_inner mra t pos Hne) in Hin.
  rewrite traverse_unfold, after_pass2_children.
  apply elem_of_app in Hin as [Hin|Hin].
  - destruct (1 <? len (final mra t)) eqn:El; [|by apply elem_of_nil in Hin].
    exists (after_pass2 mra t). unfold both_states in Hin.
    assert (rec = (NodeRef pos (name t), 0) ∨ rec = (NodeRef pos (name t), 1))
      as Hrec.
    { apply elem_of_cons in Hin as [->|Hin]; [auto|].
      apply elem_of_cons in Hin as [->|Hin]; [auto|]. by apply elem_of_nil in Hin. }
    assert (Hst : ∃ st, state (after_pass2 mra t) = Some st ∧ (1 <? len st) = true).
    { exists (final mra t). by rewrite (after_pass2_inner mra t Hne). }
    assert (Hch : children (after_pass2 mra t) ≠ []).
    { by rewrite (after_pass2_inner mra t Hne). }
    rewrite name_after_pass2.
    destruct Hrec as [-> | ->]; cbn [fst snd ref_id ref_name];
      rewrite Nat.sub_diag; repeat split; auto.
  - apply (refers_app_r [after_pass2 mra t]). cbn [length].
    replace (pos + 1)%nat with (S pos) by lia.
    by apply (ambiguous_each_refers (final mra t)).
Qed.

(** Two records with the same node identity carry the same reference. *)
Lemma ambiguous_id_name mra t pos r1 v1 r2 v2 :
  (r1, v1) ∈ ambiguous mra t pos → (r2, v2) ∈ ambiguous mra t pos →
  ref_id r1 = ref_id r2 → ref_name r1 = ref_name r2.
Proof.
  intros (n1 & Hn1 & _ & Hnm1 & _)%ambiguous_refers
         (n2 & Hn2 & _ & Hnm2 & _)%ambiguous_refers Hid.
  cbn in *. rewrite Hid in Hn1. congruence.
Qed.

(** ** Combinations *)

Lemma combinations_sublist {A} (xs : list A) r ys :
  ys ∈ combinations xs r → sublist ys xs ∧ length ys = r.
Proof.
  revert r ys. induction xs as [|x xs IH]; intros [|r] ys Hin; cbn in Hin.
  - apply list_elem_of_singleton in Hin as ->. split; [constructor|done].
  - by apply elem_of_nil in Hin.
  - apply list_elem_of_singleton in Hin as ->. split; [apply sublist_nil_l|done].
  - apply elem_of_app in Hin as [Hin|Hin].
    + apply list_elem_of_fmap in Hin as (zs & -> & Hzs).
      destruct (IH _ _ Hzs) as [Hsub Hlen]. split; [by constructor|].
      cbn. by rewrite Hlen.
    + destruct (IH _ _ Hin) as [Hsub Hlen]. split; [by constructor|done].
Qed.

(** The records of [tree_state] name every ambiguous node when they refer
    to as many distinct nodes as Pass 2 found. *)
Lemma unique_nodes_cover (amb ts : list record) :
  ts ∈ combinations amb (size (node_set amb)) →
  _unique_nodes ts = true →
  ∀ rec, rec ∈ amb → ∃ rec', rec' ∈ ts ∧ ref_id rec'.1 = ref_id rec.1.
Proof.
  intros [Hsub Hlen]%combinations_sublist Huniq rec Hrec.
  apply bool_decide_eq_true in Huniq.
  assert (Hincl : node_set ts ⊆ node_set amb).
  { unfold node_set. intros i Hi.
    apply elem_of_list_to_set, list_elem_of_fmap in Hi as (x & -> & Hx).
    apply elem_of_list_to_set, list_elem_of_fmap. exists x. split; [done|].
    eapply sublist_subseteq; eauto. }
  assert (Heq : node_set ts = node_set amb).
  { apply leibniz_equiv. apply set_subseteq_size_equiv; [done|]. lia. }
  assert (Hi : ref_id rec.1 ∈ node_set ts).
  { rewrite Heq. unfold node_set.
    apply elem_of_list_to_set, list_elem_of_fmap. by exists rec. }
  unfold node_set in Hi.
  apply elem_of_list_to_set, list_elem_of_fmap in Hi as (x & Hx & Hin).
  exists x. split; [done|]. by rewrite Hx.
Qed.

(** ** The transition count of one candidate *)

Lemma effective_state_label ns u :
  resolvable ns u = true →
  effective_state ns u = Ok (label ns u) ∧ (label ns u = 0 ∨ label ns u = 1).
Proof.
  unfold resolvable, effective_state, label, get_state.
  destruct (ns !! name u) as [v|]; [intros; split; [done|lia]|].
  intros [-> | ->]%bool_decide_eq_true; cbn; auto.
Qed.

Lemma resolved_unfold ns u :
  resolved ns u = true →
  resolvable ns u = true ∧ Forall (λ c, resolved ns c = true) (children u).
Proof.
  destruct u as [n d s o g l cs]. cbn [resolved children].
  intros [H1 H2]%andb_true_iff. split; [done|].
  apply Is_true_true, forallb_True in H2.
  eapply Forall_impl; [exact H2|]. intros x Hx. by apply Is_true_true.
Qed.

Lemma resolved_resolvable ns u : resolved ns u = true → resolvable ns u = true.
Proof. intros H. by apply resolved_unfold in H as [? _]. Qed.

Lemma count_edge_spec s nm d ch k :
  count_edge s nm d (ch, k)
  = (Changes (if gain_edge s d then {[nm]} ∪ gains ch else gains ch)
             (if loss_edge s d then {[nm]} ∪ losses ch else losses ch),
     k + (if gain_edge s d then 1 else 0) + (if loss_edge s d then 1 else 0)).
Proof.
  unfold count_edge, gain_edge, loss_edge.
  destruct ch as [G L]. cbn [gains losses].
  destruct s as [|[p|p|]|p], d as [|[q|q|]|q]; cbn; f_equal; lia.
Qed.

Lemma union_list_to_set_cons (x : string) (xs : list string) (G : gset string) :
  list_to_set xs ∪ ({[x]} ∪ G) = list_to_set (x :: xs) ∪ G.
Proof.
  apply set_eq. intros z. cbn [list_to_set].
  rewrite !elem_of_union. tauto.
Qed.

(** tree.py:94-110, the loop over the children of one node. *)
Lemma count_edges_spec ns s cs :
  Forall (λ c, resolvable ns c = true) cs →
  ∀ ch k,
  for_each (λ acc desc,
      desc_state ← effective_state ns desc;
      Ok (count_edge s (name desc) desc_state acc)) cs (ch, k)
  = Ok (Changes
          (list_to_set (name <$> filter (λ c, gain_edge s (label ns c) = true) cs)
           ∪ gains ch)
          (list_to_set (name <$> filter (λ c, loss_edge s (label ns c) = true) cs)
           ∪ losses ch),
        k + Z.of_nat (length (filter (λ c, gain_edge s (label ns c) = true) cs))
          + Z.of_nat (length (filter (λ c, loss_edge s (label ns c) = true) cs))).
Proof.
  induction 1 as [|c cs Hc _ IH]; intros ch k.
  - cbn. destruct ch as [G L]. cbn. do 2 f_equal; [f_equal|lia].
    + apply set_eq. intros z. rewrite elem_of_union, elem_of_empty. tauto.
    + apply set_eq. intros z. rewrite elem_of_union, elem_of_empty. tauto.
  - cbn [for_each]. destruct (effective_state_label _ _ Hc) as [-> _].
    cbn [mbind result_bind]. rewrite count_edge_spec, IH.
    cbn [gains losses]. rewrite !filter_cons.
    destruct (gain_edge s (label ns c)) eqn:Eg, (loss_edge s (label ns c)) eqn:El;
      repeat (case_decide; try done); cbn [fmap list_fmap length];
      rewrite ?union_list_to_set_cons; cbn [fmap list_fmap];
      do 2 f_equal; lia.
Qed.

(** Equality of two sets of names built from unions of the same parts. *)
Ltac same_names :=
  apply set_eq; intros ?;
  repeat (rewrite ?elem_of_union, ?elem_of_list_to_set, ?elem_of_app,
                  ?elem_of_cons, ?elem_of_nil, ?elem_of_empty,
                  ?elem_of_singleton);
  tauto.

Lemma count_visit_inner ns b u acc :
  children u ≠ [] →
  count_visit ns b u acc
  = acc ← count_node ns b u acc; count_each ns (children u) acc.
Proof. by destruct u as [n d s o g l [|c cs]]. Qed.

Lemma count_each_spec ns cs :
  Forall (λ c, ∀ ch k,
    count_visit ns false c (ch, k)
    = Ok (Changes (list_to_set (gained ns c) ∪ gains ch)
                  (list_to_set (lost ns c) ∪ losses ch),
          k + Z.of_nat (length (gained ns c)) + Z.of_nat (length (lost ns c)))) cs →
  ∀ ch k,
    count_each ns cs (ch, k)
    = Ok (Changes (list_to_set (concat (gained ns <$> cs)) ∪ gains ch)
                  (list_to_set (concat (lost ns <$> cs)) ∪ losses ch),
          k + Z.of_nat (length (concat (gained ns <$> cs)))
            + Z.of_nat (length (concat (lost ns <$> cs)))).
Proof.
  induction 1 as [|c cs Hc _ IH]; intros ch k.
  - destruct ch as [G L]. cbn. do 2 f_equal; [f_equal; same_names|lia].
  - cbn [count_each]. rewrite Hc. cbn [mbind result_bind]. rewrite IH.
    cbn [gains losses fmap list_fmap concat]. rewrite !length_app.
    do 2 f_equal; [f_equal; same_names|lia].
Qed.

Lemma gained_unfold ns u :
  gained ns u =
  (name <$> filter (λ c, gain_edge (label ns u) (label ns c) = true) (children u))
  ++ concat (gained ns <$> children u).
Proof. by destruct u. Qed.

Lemma lost_unfold ns u :
  lost ns u =
  (name <$> filter (λ c, loss_edge (label ns u) (label ns c) = true) (children u))
  ++ concat (lost ns <$> children u).
Proof. by destruct u. Qed.

(** The loop of tree.py:74-110 on a tree whose nodes all have an
    effective state: what it adds to [changes] and to [tot_changes]. *)
Lemma count_visit_spec ns u :
  resolved ns u = true →
  ∀ b ch k,
    count_visit ns b u (ch, k)
    = Ok (Changes (list_to_set (root_gain ns b u ++ gained ns u) ∪ gains ch)
                  (list_to_set (lost ns u) ∪ losses ch),
          k + Z.of_nat (length (root_gain ns b u ++ gained ns u))
            + Z.of_nat (length (lost ns u))).
Proof.
  induction u as [n d s o g l cs IH] using Tree_ind'. intros Hres b ch k.
  destruct cs as [|c cs].
  { unfold root_gain. cbn. rewrite andb_false_r. cbn.
    destruct ch as [G L]. cbn. do 2 f_equal; [f_equal; same_names|lia]. }
  set (u := TreeNode n d s o g l (c :: cs)) in *.
  rewrite (count_visit_inner ns b u) by done.
  destruct (resolved_unfold _ _ Hres) as [Hu Hcs].
  destruct (effective_state_label _ _ Hu) as [He _].
  assert (Hedges : Forall (λ c, resolvable ns c = true) (children u)).
  { eapply Forall_impl; [exact Hcs|]. intros x Hx. by apply resolved_resolvable. }
  assert (Heach : Forall (λ c, ∀ ch k,
    count_visit ns false c (ch, k)
    = Ok (Changes (list_to_set (gained ns c) ∪ gains ch)
                  (list_to_set (lost ns c) ∪ losses ch),
          k + Z.of_nat (length (gained ns c)) + Z.of_nat (length (lost ns c))))
    (children u)).
  { apply Forall_forall. intros x Hx ch' k'.
    rewrite Forall_forall in IH. rewrite Forall_forall in Hcs.
    rewrite (IH x Hx (Hcs x Hx) false ch' k').
    unfold root_gain. cbn [andb app]. done. }
  unfold count_node. rewrite He. cbn [mbind result_bind].
  unfold root_gain. change (is_leaf u) with false. cbn [negb].
  rewrite andb_true_r.
  rewrite gained_unfold, lost_unfold.
  destruct (b && (label ns u =? 1)); cbn [fst snd];
    rewrite (count_edges_spec ns _ _ Hedges); cbn [mbind result_bind];
    rewrite (count_each_spec ns _ Heach);
    cbn [gains losses fst snd];
    rewrite ?length_app, ?length_fmap; cbn [length app];
    rewrite ?length_app, ?length_fmap;
    do 2 f_equal; try (f_equal; same_names); lia.
Qed.

Lemma labelling_unfold ns u :
  labelling ns u = LNode (label ns u) (labelling ns <$> children u).
Proof. by destruct u. Qed.

Lemma edge_kinds s d :
  s = 0 ∨ s = 1 → d = 0 ∨ d = 1 →
  (if gain_edge s d then 1 else 0) + (if loss_edge s d then 1 else 0)
  = (if s =? d then 0 else 1).
Proof. intros [-> | ->] [-> | ->]; reflexivity. Qed.

Lemma length_filter_cons {A} (P : A → Prop) `{∀ x, Decision (P x)} x xs :
  Z.of_nat (length (filter P (x :: xs)))
  = (if decide (P x) then 1 else 0) + Z.of_nat (length (filter P xs)).
Proof. rewrite filter_cons. destruct (decide (P x)); cbn [length]; lia. Qed.

(** The events of a candidate are the changes of its assignment. *)
Lemma events_changes_of ns u :
  resolved ns u = true →
  Z.of_nat (length (gained ns u)) + Z.of_nat (length (lost ns u))
  = changes_of (labelling ns u).
Proof.
  induction u as [n d s o g l cs IH] using Tree_ind'. intros Hres.
  set (u := TreeNode n d s o g l cs) in *.
  destruct (resolved_unfold _ _ Hres) as [Hu Hcs].
  destruct (effective_state_label _ _ Hu) as [_ Hl].
  rewrite gained_unfold, lost_unfold, labelling_unfold, changes_of_unfold.
  rewrite !length_app, !length_fmap.
  generalize (label ns u) Hl. intros v Hv. cbn [children u] in *. clear u Hres Hu Hl.
  induction cs as [|c cs IHcs]; [done|].
  inversion IH as [|? ? IHc IH']; subst. inversion Hcs as [|? ? Hc Hcs']; subst.
  specialize (IHcs IH' Hcs'). specialize (IHc Hc).
  destruct (effective_state_label _ _ (resolved_resolvable _ _ Hc)) as [_ Hlc].
  cbn [fmap list_fmap concat foldr]. rewrite !length_app.
  pose proof (length_filter_cons (λ c, gain_edge v (label ns c) = true) c cs) as Eg.
  pose proof (length_filter_cons (λ c, loss_edge v (label ns c) = true) c cs) as El.
  rewrite !Nat2Z.inj_add in *.
  change (list_fmap Tree ltree (labelling ns) cs) with (labelling ns <$> cs).
  change (list_fmap Tree (list string) (gained ns) cs) with (gained ns <$> cs) in *.
  change (list_fmap Tree (list string) (lost ns) cs) with (lost ns <$> cs) in *.
  rewrite (labelling_unfold ns c) at 1. cbn [lab].
  pose proof (edge_kinds v (label ns c) Hv Hlc) as Hk.
  destruct (decide (gain_edge v (label ns c) = true)) as [Hg|Hg],
           (decide (loss_edge v (label ns c) = true)) as [Hl|Hl];
    try rewrite Hg in Hk; try rewrite Hl in Hk;
    try (apply not_true_is_false in Hg; rewrite Hg in Hk);
    try (apply not_true_is_false in Hl; rewrite Hl in Hk); lia.
Qed.

Lemma label_labelling ns u : lab (labelling ns u) = label ns u.
Proof. by destruct u. Qed.

(** A candidate that leaves the leaves alone is an assignment. *)
Lemma assigns_labelling ns u :
  resolved ns u = true →
  (∀ n, n ∈ traverse u → children n = [] → ns !! name n = None) →
  assigns u (labelling ns u) = true.
Proof.
  induction u as [n d s o g l cs IH] using Tree_ind'. intros Hres Hfree.
  set (u := TreeNode n d s o g l cs) in *.
  destruct (resolved_unfold _ _ Hres) as [Hu Hcs].
  destruct (effective_state_label _ _ Hu) as [_ Hl].
  destruct cs as [|c cs].
  { assert (Hn : ns !! name u = None).
    { apply Hfree; [rewrite traverse_unfold; left | done]. }
    unfold resolvable in Hu. rewrite Hn in Hu.
    apply bool_decide_eq_true in Hu. cbn [state u] in Hu.
    rewrite labelling_unfold. unfold label. rewrite Hn.
    destruct Hu as [-> | ->]; reflexivity. }
  rewrite assigns_inner by done. rewrite label_labelling.
  apply andb_true_iff. split; [lia|].
  rewrite labelling_unfold. cbn [subs].
  assert (Hsub : ∀ c', c' ∈ children u → ∀ n, n ∈ traverse c' → n ∈ traverse u).
  { intros c' Hc' m Hm. rewrite (traverse_unfold u). right.
    apply elem_of_concat. exists (traverse c'). split; [|done].
    apply list_elem_of_fmap. eauto. }
  assert (Heach : ∀ cs',
    Forall (λ u, resolved ns u = true →
       (∀ n, n ∈ traverse u → children n = [] → ns !! name n = None) →
       assigns u (labelling ns u) = true) cs' →
    Forall (λ c, resolved ns c = true) cs' →
    (∀ c', c' ∈ cs' → ∀ n, n ∈ traverse c' → children n = [] → ns !! name n = None) →
    assigns_each cs' (labelling ns <$> cs') = true).
  { clear. induction cs' as [|c' cs' IHcs]; intros IH' Hcs' Hfree'; [done|].
    inversion IH' as [|? ? IHc IH'']; subst.
    inversion Hcs' as [|? ? Hc Hcs'']; subst.
    cbn [fmap list_fmap assigns_each].
    apply andb_true_iff. split.
    - apply IHc; [done|]. apply Hfree'. left.
    - apply IHcs; [done|done|]. intros c'' Hc''. apply Hfree'. by right. }
  apply Heach; [exact IH|exact Hcs|].
  intros c' Hc' m Hm. apply Hfree. by eapply Hsub.
Qed.

(** ** The candidates of the enumeration *)

Lemma name_states_lookup (ts : list record) :
  ∀ (d : gmap string Z) nm,
    is_Some (foldl (λ d '(node, state), <[ref_name node := state]> d) d ts !! nm)
    ↔ is_Some (d !! nm) ∨ ∃ rec, rec ∈ ts ∧ ref_name rec.1 = nm.
Proof.
  induction ts as [|[r v] ts IH]; intros d nm; cbn [foldl].
  - split; [auto|]. intros [H|(rec & Hin & _)]; [done|]. by apply elem_of_nil in Hin.
  - rewrite IH. rewrite lookup_insert_is_Some. split.
    + intros [[<- | [_ H]]|(rec & Hin & Hnm)].
      * right. exists (r, v). split; [left|done].
      * by left.
      * right. exists rec. split; [by right|done].
    + intros [H|(rec & Hin & Hnm)].
      * destruct (decide (ref_name r = nm)); [left; by left|left; by right].
      * apply elem_of_cons in Hin as [-> | Hin]; [left; by left|].
        right. eauto.
Qed.

Lemma name_states_binary (ts : list record) :
  (∀ rec, rec ∈ ts → rec.2 = 0 ∨ rec.2 = 1) →
  ∀ d : gmap string Z, binary d →
    binary (foldl (λ d '(node, state), <[ref_name node := state]> d) d ts).
Proof.
  induction ts as [|[r v] ts IH]; intros Hts d Hd; cbn [foldl]; [done|].
  apply IH.
  - intros rec Hrec. apply Hts. by right.
  - intros nm w. rewrite lookup_insert_Some.
    intros [[_ <-]|[_ H]]; [apply (Hts (r, v)); left|by eapply Hd].
Qed.

Lemma truthy_final mra t :
  valid t = true → (∀ a, mra = Some a → truthy a = true) →
  truthy (final mra t) = true.
Proof.
  intros Hv Hm. pose proof (truthy_fset _ Hv) as Ht.
  destruct mra as [a|]; [|done]. specialize (Hm a eq_refl).
  cbn [final]. unfold refined.
  revert Hm Ht. unfold truthy, issubset, set_and, set_or.
  destruct a as [[] []], (fset t) as [[] []], (shared_of t) as [[] []],
    (union_of t) as [[] []]; done.
Qed.

Lemma len_le_1 s : truthy s = true → (1 <? len s) = false →
  s = singleton 0 ∨ s = singleton 1.
Proof. destruct s as [[] []]; cbn; auto; done. Qed.

(** When the candidate names every ambiguous node, every node of the
    working tree has an effective state. *)
Lemma resolved_after_pass2 ns t :
  binary ns →
  valid t = true →
  ∀ mra pos,
    (∀ a, mra = Some a → truthy a = true) →
    (∀ rec, rec ∈ ambiguous mra t pos → is_Some (ns !! ref_name rec.1)) →
    resolved ns (after_pass2 mra t) = true.
Proof.
  intros Hbin.
  induction t as [n d s o g l cs IH] using Tree_ind'. intros Hv mra pos Hm Hcov.
  destruct cs as [|c cs].
  { cbn. rewrite andb_true_r. unfold resolvable. cbn.
    destruct (ns !! n) as [v|] eqn:E.
    - destruct (Hbin _ _ E) as [-> | ->]; done.
    - apply valid_leaf_state in Hv. by apply bool_decide_eq_true. }
  set (t := TreeNode n d s o g l (c :: cs)) in *.
  assert (Hne : children t ≠ []) by done.
  pose proof (truthy_final mra t Hv Hm) as Htf.
  rewrite (after_pass2_inner mra t Hne). cbn [resolved children].
  rewrite (ambiguous_inner mra t pos Hne) in Hcov.
  apply andb_true_iff. split.
  - unfold resolvable. cbn [name state].
    destruct (ns !! name t) as [v|] eqn:E.
    + destruct (Hbin _ _ E) as [-> | ->]; done.
    + apply bool_decide_eq_true.
      destruct (1 <? len (final mra t)) eqn:El.
      * destruct (Hcov (NodeRef pos (name t), 0)) as [v Hv'].
        { apply elem_of_app. left. left. }
        cbn [ref_name fst] in Hv'. congruence.
      * destruct (len_le_1 _ Htf El) as [-> | ->]; auto.
  - apply Is_true_true, forallb_True.
    pose proof (valid_children _ Hv Hne) as Hcs.
    assert (Hcov' : ∀ rec, rec ∈ ambiguous_each (final mra t) (children t) (S pos) →
                           is_Some (ns !! ref_name rec.1)).
    { intros rec Hrec. apply Hcov. apply elem_of_app. by right. }
    assert (Heach : ∀ cs' p,
      Forall (λ t, valid t = true → ∀ mra pos,
        (∀ a, mra = Some a → truthy a = true) →
        (∀ rec, rec ∈ ambiguous mra t pos → is_Some (ns !! ref_name rec.1)) →
        resolved ns (after_pass2 mra t) = true) cs' →
      Forall (λ c, valid c = true) cs' →
      (∀ rec, rec ∈ ambiguous_each (final mra t) cs' p →
              is_Some (ns !! ref_name rec.1)) →
      Forall (λ c, Is_true (resolved ns c))
             (after_pass2 (Some (final mra t)) <$> cs')).
    { clear -Htf. induction cs' as [|c' cs' IHcs]; intros p IH' Hcs' Hcov;
        [constructor|].
      inversion IH' as [|? ? IHc IH'']; subst.
      inversion Hcs' as [|? ? Hc Hcs'']; subst.
      cbn [fmap list_fmap]. constructor.
      - apply Is_true_true. apply (IHc Hc _ p).
        + by intros a [= <-].
        + intros rec Hrec. apply Hcov. cbn [ambiguous_each].
          apply elem_of_app. by left.
      - apply (IHcs (p + node_count c')%nat); [done|done|].
        intros rec Hrec. apply Hcov. cbn [ambiguous_each].
        apply elem_of_app. by right. }
    exact (Heach _ _ IH Hcs Hcov').
Qed.

(** ** Events of an annotated tree *)

Lemma edge_events_unfold e :
  edge_events e =
  foldr (λ c n,
      (if (is_state 0 e && is_state 1 c) || (is_state 1 e && is_state 0 c)
       then 1 else 0) + edge_events c + n)
    0 (children e).
Proof. by destruct e. Qed.

Lemma resolvable_empty_state e :
  resolvable ∅ e = true → state e = Some (singleton (label ∅ e)).
Proof.
  unfold resolvable, label. rewrite lookup_empty.
  intros [-> | ->]%bool_decide_eq_true; done.
Qed.

Lemma is_state_label e v :
  resolvable ∅ e = true → v = 0 ∨ v = 1 → is_state v e = (label ∅ e =? v).
Proof.
  intros He Hv. unfold is_state. rewrite (resolvable_empty_state _ He).
  destruct (effective_state_label _ _ He) as [_ [-> | ->]], Hv as [-> | ->]; done.
Qed.

(** On a tree whose states are all singletons, the edge events are the
    changes of the assignment the states spell out. *)
Lemma edge_events_changes_of e :
  resolved ∅ e = true → edge_events e = changes_of (labelling ∅ e).
Proof.
  induction e as [n d s o g l cs IH] using Tree_ind'. intros Hres.
  set (e := TreeNode n d s o g l cs) in *.
  destruct (resolved_unfold _ _ Hres) as [He Hcs].
  rewrite edge_events_unfold, labelling_unfold, changes_of_unfold.
  rewrite (is_state_label e 0 He), (is_state_label e 1 He) by auto.
  destruct (effective_state_label _ _ He) as [_ Hl].
  generalize (label ∅ e) Hl. intros v Hv.
  cbn [children e] in *. clear e Hres He Hl.
  induction cs as [|c cs IHcs]; [done|].
  inversion IH as [|? ? IHc IH']; subst. inversion Hcs as [|? ? Hc Hcs']; subst.
  cbn [fmap list_fmap foldr]. rewrite (IHcs IH' Hcs'), (IHc Hc).
  pose proof (resolved_resolvable _ _ Hc) as Hrc.
  rewrite (is_state_label c 0 Hrc), (is_state_label c 1 Hrc) by auto.
  rewrite label_labelling.
  destruct (effective_state_label _ _ Hrc) as [_ Hlc].
  do 2 f_equal. destruct Hv as [-> | ->], Hlc as [-> | ->]; reflexivity.
Qed.

Lemma annotate_unfold ns ch u :
  annotate ns ch u =
  TreeNode (name u) (dist u)
    (match ns !! name u with
     | Some state => Some (singleton state)
     | None => state u
     end)
    (operation u)
    (if decide (name u ∈ gains ch) then true else gain u)
    (if decide (name u ∈ losses ch) then true else loss u)
    (annotate ns ch <$> children u).
Proof. by destruct u. Qed.

Lemma label_annotate ns ch u :
  resolvable ns u = true →
  resolvable ∅ (annotate ns ch u) = true
  ∧ label ∅ (annotate ns ch u) = label ns u.
Proof.
  rewrite annotate_unfold. unfold resolvable, label. cbn [name state].
  rewrite lookup_empty.
  destruct (ns !! name u) as [v|].
  - intros Hv. assert (v = 0 ∨ v = 1) as [-> | ->] by lia; done.
  - intros H. split; [done|]. apply bool_decide_eq_true in H.
    destruct H as [-> | ->]; done.
Qed.

(** The copy a candidate is emitted as spells out its assignment. *)
Lemma labelling_annotate ns ch u :
  resolved ns u = true →
  resolved ∅ (annotate ns ch u) = true
  ∧ labelling ∅ (annotate ns ch u) = labelling ns u.
Proof.
  induction u as [n d s o g l cs IH] using Tree_ind'. intros Hres.
  set (u := TreeNode n d s o g l cs) in *.
  destruct (resolved_unfold _ _ Hres) as [Hu Hcs].
  destruct (label_annotate ns ch u Hu) as [Hr Hl].
  rewrite (labelling_unfold ∅), (labelling_unfold ns), Hl.
  assert (Heach : Forall (λ c, Is_true (resolved ∅ c)) (annotate ns ch <$> cs)
                  ∧ labelling ∅ <$> (annotate ns ch <$> cs) = labelling ns <$> cs).
  { cbn [children u] in Hcs. clear -IH Hcs.
    induction cs as [|c cs IHcs]; [split; [constructor|done]|].
    inversion IH as [|? ? IHc IH']; subst. inversion Hcs as [|? ? Hc Hcs']; subst.
    destruct (IHcs IH' Hcs') as [H1 H2]. destruct (IHc Hc) as [H3 H4].
    cbn [fmap list_fmap]. split.
    - constructor; [by apply Is_true_true|done].
    - f_equal; done. }
  destruct Heach as [H1 H2]. split.
  - rewrite annotate_unfold. cbn [resolved children].
    apply andb_true_iff. split.
    + by rewrite annotate_unfold in Hr.
    + apply Is_true_true, forallb_True. exact H1.
  - f_equal. rewrite annotate_unfold. cbn [children]. exact H2.
Qed.

(** ** The copy emitted without enumeration *)

Lemma mark_visit_unfold u g l :
  mark_visit u g l =
  st ← get_state u;
  flags ← comprehension (mark_child st) (children u);
  children' ← mark_each (children u) flags;
  Ok (TreeNode (name u) (dist u) (state u) (operation u) g l children').
Proof. by destruct u. Qed.

Lemma marked_unfold u g l :
  marked u g l =
  TreeNode (name u) (dist u) (state u) (operation u) g l
    ((λ c, marked c
             (if is_state 0 u && is_state 1 c then true else gain c)
             (if is_state 1 u && is_state 0 c then true else loss c))
       <$> children u).
Proof. by destruct u. Qed.

Lemma mark_child_spec u c :
  resolvable ∅ u = true → resolvable ∅ c = true →
  mark_child (singleton (label ∅ u)) c
  = Ok (if is_state 0 u && is_state 1 c then true else gain c,
        if is_state 1 u && is_state 0 c then true else loss c).
Proof.
  intros Hu Hc.
  rewrite (is_state_label u 0 Hu), (is_state_label u 1 Hu) by auto.
  unfold mark_child, get_state, is_state.
  rewrite (resolvable_empty_state _ Hc).
  destruct (effective_state_label _ _ Hu) as [_ [-> | ->]],
           (effective_state_label _ _ Hc) as [_ [-> | ->]]; reflexivity.
Qed.

(** On a tree whose states are all singletons the marking raises nothing. *)
Lemma mark_visit_spec u :
  resolved ∅ u = true → ∀ g l, mark_visit u g l = Ok (marked u g l).
Proof.
  induction u as [n d s o g0 l0 cs IH] using Tree_ind'. intros Hres g l.
  set (u := TreeNode n d s o g0 l0 cs) in *.
  destruct (resolved_unfold _ _ Hres) as [Hu Hcs].
  rewrite mark_visit_unfold, marked_unfold.
  unfold get_state. rewrite (resolvable_empty_state _ Hu). cbn [mbind result_bind].
  assert (Heach : ∀ cs',
    Forall (λ u, resolved ∅ u = true → ∀ g l, mark_visit u g l = Ok (marked u g l)) cs' →
    Forall (λ c, resolved ∅ c = true) cs' →
    (flags ← comprehension (mark_child (singleton (label ∅ u))) cs';
     mark_each cs' flags)
    = Ok ((λ c, marked c
             (if is_state 0 u && is_state 1 c then true else gain c)
             (if is_state 1 u && is_state 0 c then true else loss c)) <$> cs')).
  { clear -Hu. induction cs' as [|c cs' IHcs]; intros IH' Hcs'; [done|].
    inversion IH' as [|? ? IHc IH'']; subst.
    inversion Hcs' as [|? ? Hc Hcs'']; subst.
    specialize (IHcs IH'' Hcs'').
    cbn [comprehension].
    rewrite (mark_child_spec u c Hu (resolved_resolvable _ _ Hc)).
    cbn [mbind result_bind].
    destruct (comprehension (mark_child (singleton (label ∅ u))) cs') as [fs|e];
      [|done].
    cbn [mbind result_bind mark_each fst snd] in *.
    rewrite (IHc Hc). cbn [mbind result_bind]. rewrite IHcs. done. }
  specialize (Heach (children u) IH Hcs).
  destruct (comprehension (mark_child (singleton (label ∅ u))) (children u))
    as [fs|e]; [|done].
  cbn [mbind result_bind] in *. rewrite Heach. done.
Qed.

Lemma is_state_marked v u g l : is_state v (marked u g l) = is_state v u.
Proof. unfold is_state. by rewrite marked_unfold. Qed.

Lemma children_marked u g l :
  children (marked u g l) =
  (λ c, marked c
          (if is_state 0 u && is_state 1 c then true else gain c)
          (if is_state 1 u && is_state 0 c then true else loss c))
    <$> children u.
Proof. by rewrite marked_unfold. Qed.

Lemma edge_events_marked u :
  ∀ g l, edge_events (marked u g l) = edge_events u.
Proof.
  induction u as [n d s o g0 l0 cs IH] using Tree_ind'. intros g l.
  set (u := TreeNode n d s o g0 l0 cs) in *.
  rewrite (edge_events_unfold u), edge_events_unfold.
  rewrite !is_state_marked, children_marked.
  generalize (is_state 0 u) (is_state 1 u). intros b0 b1.
  cbn [children u]. clearbody u.
  generalize (λ c, if b0 && is_state 1 c then true else gain c)
             (λ c, if b1 && is_state 0 c then true else loss c).
  intros G L.
  induction IH as [|c cs Hc _ IHcs]; [done|].
  cbn [fmap list_fmap foldr]. rewrite IHcs, Hc, !is_state_marked. done.
Qed.

Lemma unflagged_unfold u :
  unflagged u = true →
  gain u = false ∧ loss u = false ∧ Forall (λ c, unflagged c = true) (children u).
Proof.
  destruct u as [n d s o g l cs]. cbn [unflagged gain loss children].
  intros [[H1 H2]%andb_true_iff H3]%andb_true_iff.
  apply negb_true_iff in H1, H2. repeat split; try done.
  apply Is_true_true, forallb_True in H3.
  eapply Forall_impl; [exact H3|]. intros x Hx. by apply Is_true_true.
Qed.

Lemma unflagged_after_pass2 t : ∀ mra, unflagged (after_pass2 mra t) = true.
Proof.
  induction t as [n d s o g l cs IH] using Tree_ind'. intros mra.
  destruct cs as [|c cs]; [done|].
  set (t := TreeNode n d s o g l (c :: cs)) in *.
  rewrite (after_pass2_inner mra t) by done. cbn [unflagged gain loss children negb andb].
  apply Is_true_true, forallb_True, Forall_fmap.
  eapply Forall_impl; [exact IH|]. intros x Hx. cbn. by apply Is_true_true.
Qed.

Lemma length_filter_concat {A} (P : A → Prop) `{∀ x, Decision (P x)}
    (ls : list (list A)) :
  Z.of_nat (length (filter P (concat ls)))
  = foldr (λ l n, Z.of_nat (length (filter P l)) + n) 0 ls.
Proof.
  induction ls as [|l ls IH]; [done|].
  cbn [concat foldr]. rewrite filter_app, length_app. lia.
Qed.

Lemma flag_events_unfold e :
  flag_events e =
  (if gain e then 1 else 0) + (if loss e then 1 else 0)
  + foldr (λ c n, flag_events c + n) 0 (children e).
Proof.
  unfold flag_events at 1. rewrite traverse_unfold, !length_filter_cons.
  rewrite !length_filter_concat.
  assert (Hsum : ∀ cs,
    foldr (λ l n, Z.of_nat (length (filter (λ n, gain n = true) l)) + n) 0
          (traverse <$> cs)
    + foldr (λ l n, Z.of_nat (length (filter (λ n, loss n = true) l)) + n) 0
            (traverse <$> cs)
    = foldr (λ c n, flag_events c + n) 0 cs).
  { induction cs as [|c cs IH]; [done|].
    cbn [fmap list_fmap foldr]. unfold flag_events at 1. lia. }
  specialize (Hsum (children e)).
  destruct (gain e), (loss e); repeat case_decide; try done; lia.
Qed.

Lemma is_state_exclusive u : is_state 0 u && is_state 1 u = false.
Proof.
  unfold is_state. destruct (state u) as [[[] []]|]; reflexivity.
Qed.

(** The flags of the marked copy count its edge events. *)
Lemma flag_events_marked u :
  unflagged u = true →
  ∀ g l,
    flag_events (marked u g l)
    = (if g then 1 else 0) + (if l then 1 else 0) + edge_events u.
Proof.
  induction u as [n d s o g0 l0 cs IH] using Tree_ind'. intros Hun g l.
  set (u := TreeNode n d s o g0 l0 cs) in *.
  destruct (unflagged_unfold _ Hun) as (_ & _ & Hcs).
  rewrite flag_events_unfold, children_marked, (edge_events_unfold u).
  rewrite (marked_unfold u) at 1 2. cbn [gain loss].
  pose proof (is_state_exclusive u) as Hex.
  revert Hex. generalize (is_state 0 u) (is_state 1 u). intros b0 b1 Hex.
  cbn [children u] in *. clearbody u.
  assert (Hsum :
    foldr (λ c n, flag_events c + n) 0
      ((λ c, marked c (if b0 && is_state 1 c then true else gain c)
                      (if b1 && is_state 0 c then true else loss c)) <$> cs)
    = foldr (λ c n, (if b0 && is_state 1 c || b1 && is_state 0 c then 1 else 0)
                    + edge_events c + n) 0 cs).
  { induction cs as [|c cs IHcs]; [done|].
    inversion IH as [|? ? IHc IH']; subst. inversion Hcs as [|? ? Hc Hcs']; subst.
    cbn [fmap list_fmap foldr]. rewrite (IHcs IH' Hcs'), (IHc Hc).
    destruct (unflagged_unfold _ Hc) as (-> & -> & _).
    destruct b0, b1, (is_state 1 c) eqn:E1, (is_state 0 c) eqn:E0; cbn; try done;
      lia. }
  rewrite Hsum. done.
Qed.

(** ** The enumeration *)

Lemma try_assignment_spec u mc acc ts :
  (_unique_nodes ts = true → resolved (name_states ts) u = true) →
  try_assignment u mc acc ts = Ok (acc ++ accepted u mc ts).
Proof.
  intros Hres. unfold try_assignment, accepted.
  destruct (_unique_nodes ts); cbn [negb andb]; [|by rewrite app_nil_r].
  rewrite (count_visit_spec _ _ (Hres eq_refl)). cbn [mbind result_bind gains losses].
  fold (candidate_total (name_states ts) u).
  replace (Z.of_nat (length (root_gain (name_states ts) true u ++ gained (name_states ts) u))
           + Z.of_nat (length (lost (name_states ts) u)))
    with (candidate_total (name_states ts) u) by done.
  replace (0 + Z.of_nat (length (root_gain (name_states ts) true u ++ gained (name_states ts) u))
           + Z.of_nat (length (lost (name_states ts) u)))
    with (candidate_total (name_states ts) u) by (unfold candidate_total; lia).
  destruct (candidate_total (name_states ts) u =? mc); [|by rewrite app_nil_r].
  do 3 f_equal. unfold candidate_changes. rewrite !(right_id_L ∅ (∪)). done.
Qed.

Lemma enumeration_spec u mc css :
  (∀ ts, ts ∈ css → _unique_nodes ts = true → resolved (name_states ts) u = true) →
  ∀ acc,
    for_each (try_assignment u mc) css acc
    = Ok (acc ++ concat (accepted u mc <$> css)).
Proof.
  induction css as [|ts css IH]; intros Hres acc.
  - cbn. by rewrite app_nil_r.
  - cbn [for_each]. rewrite try_assignment_spec by (apply Hres; left).
    cbn [mbind result_bind]. rewrite IH by (intros; apply Hres; [by right|done]).
    cbn [fmap list_fmap concat]. by rewrite app_assoc.
Qed.

(** Every candidate that passes [_unique_nodes] gives every node of the
    working tree an effective state. *)
Lemma candidates_resolved t ts :
  valid t = true →
  ts ∈ combinations (ambiguous None t 0)
                    (size (node_set (ambiguous None t 0))) →
  _unique_nodes ts = true →
  binary (name_states ts)
  ∧ resolved (name_states ts) (after_pass2 None t) = true.
Proof.
  intros Hv Hts Huniq.
  destruct (combinations_sublist _ _ _ Hts) as [Hsub _].
  assert (Hbin : binary (name_states ts)).
  { apply name_states_binary; [|by intros ? ? ?%lookup_empty_Some].
    intros rec Hrec.
    assert (rec ∈ ambiguous None t 0) as Hin by (eapply sublist_subseteq; eauto).
    by apply ambiguous_refers in Hin as (n & _ & _ & _ & _ & _ & ?). }
  split; [done|].
  apply (resolved_after_pass2 _ t Hbin Hv None 0%nat); [done|].
  intros [r v] Hrec.
  destruct (unique_nodes_cover _ _ Hts Huniq _ Hrec) as ([r' v'] & Hin' & Hid).
  cbn [fst] in *.
  assert ((r', v') ∈ ambiguous None t 0) as Hin'' by (eapply sublist_subseteq; eauto).
  rewrite <- (ambiguous_id_name _ _ _ _ _ _ _ Hin'' Hrec Hid).
  apply name_states_lookup. right. exists (r', v'). done.
Qed.

(** ** [_fitch] on a valid tree *)

Lemma gain_after_pass2 mra t : gain (after_pass2 mra t) = false.
Proof. by destruct t as [n d s o g l [|c cs]]. Qed.

Lemma loss_after_pass2 mra t : loss (after_pass2 mra t) = false.
Proof. by destruct t as [n d s o g l [|c cs]]. Qed.

Lemma resolved_no_ambiguity t :
  valid t = true → ambiguous None t 0 = [] →
  resolved ∅ (after_pass2 None t) = true.
Proof.
  intros Hv Hamb.
  apply (resolved_after_pass2 ∅ t ltac:(by intros ? ? ?%lookup_empty_Some)
           Hv None 0%nat); [done|].
  rewrite Hamb. by intros rec ?%elem_of_nil.
Qed.

(** What [_fitch] returns on a valid tree, up to the origin veto. *)
Lemma _fitch_spec t :
  valid t = true →
  _fitch t =
  let u := after_pass2 None t in
  let amb := ambiguous None t 0 in
  match amb with
  | _ :: _ =>
      let r := size (node_set amb) in
      if (10 <? r)%nat then Ok (u, (unions t, []))
      else
        annot_trees ←
          origin_veto u (concat (accepted u (unions t) <$> combinations amb r));
        Ok (u, (unions t, annot_trees))
  | [] =>
      annot_trees ← origin_veto u [marked u false false];
      Ok (u, (unions t, annot_trees))
  end.
Proof.
  intros Hv. unfold _fitch.
  rewrite (_fitch_pass1_spec t Hv). cbn [mbind result_bind].
  rewrite (_fitch_pass2_spec t Hv). cbn [mbind result_bind]. cbv zeta.
  destruct (ambiguous None t 0) as [|rec amb] eqn:Hamb.
  - rewrite (mark_visit_spec _ (resolved_no_ambiguity t Hv Hamb)).
    cbn [mbind result_bind]. by rewrite gain_after_pass2, loss_after_pass2.
  - destruct (10 <? size (node_set (rec :: amb)))%nat; [done|].
    rewrite enumeration_spec; [done|].
    intros ts Hts Huniq. rewrite <- Hamb in Hts.
    by apply candidates_resolved.
Qed.

(** ** What Pass 2 keeps *)

Lemma after_pass2_keeps t :
  ∀ mra,
    fset (after_pass2 mra t) = fset t
    ∧ shared_of (after_pass2 mra t) = shared_of t
    ∧ unions (after_pass2 mra t) = unions t
    ∧ valid (after_pass2 mra t) = valid t
    ∧ name <$> traverse (after_pass2 mra t) = name <$> traverse t.
Proof.
  induction t as [n d s o g l cs IH] using Tree_ind'. intros mra.
  destruct cs as [|c cs]; [done|].
  set (t := TreeNode n d s o g l (c :: cs)) in *.
  rewrite (after_pass2_inner mra t) by done.
  generalize (final mra t). intros st.
  assert (Heach :
    fset <$> (after_pass2 (Some st) <$> children t) = fset <$> children t
    ∧ foldr (λ c n, unions c + n) 0 (after_pass2 (Some st) <$> children t)
      = foldr (λ c n, unions c + n) 0 (children t)
    ∧ forallb valid (after_pass2 (Some st) <$> children t)
      = forallb valid (children t)
    ∧ name <$> concat (traverse <$> (after_pass2 (Some st) <$> children t))
      = name <$> concat (traverse <$> children t)).
  { cbn [children t]. clearbody t.
    induction IH as [|c' cs' Hc _ IHcs]; [done|].
    destruct (Hc (Some st)) as (H1 & _ & H3 & H4 & H5).
    destruct IHcs as (H1' & H3' & H4' & H5').
    cbn [fmap list_fmap foldr forallb concat]. rewrite !fmap_app.
    repeat split; congruence. }
  destruct Heach as (H1 & H3 & H4 & H5).
  cbn [children t] in *. cbn [fmap list_fmap] in H1, H3, H4, H5.
  injection H1 as H1a H1b.
  repeat split.
  - cbn [fset children fmap list_fmap]. unfold t. cbn [fset children].
    by rewrite H1a, H1b.
  - unfold shared_of, t. cbn [children fmap list_fmap]. by rewrite H1a, H1b.
  - unfold t. cbn [unions children fmap list_fmap].
    unfold shared_of. cbn [children fmap list_fmap]. rewrite H1a, H1b.
    rewrite H3. done.
  - unfold t. cbn [valid children fmap list_fmap]. exact H4.
  - rewrite !traverse_unfold. cbn [fmap list_fmap children name].
    f_equal. exact H5.
Qed.

Lemma issubset_refl s : issubset s s = true.
Proof. by destruct s as [[] []]. Qed.

Lemma set_and_idemp s : set_and s s = s.
Proof. by destruct s as [[] []]. Qed.

Lemma first_branching_unfold u :
  first_branching u =
  match children u with
  | [c] => first_branching c
  | _ => u
  end.
Proof. by destruct u. Qed.

(** The first branching node of the working tree has the state of the
    root. *)
Lemma first_branching_state t :
  valid t = true →
  ∀ mra, mra = None ∨ mra = Some (fset t) →
    state (first_branching (after_pass2 mra t)) = Some (fset t)
    ∧ state (after_pass2 mra t) = Some (fset t).
Proof.
  induction t as [n d s o g l cs IH] using Tree_ind'. intros Hv mra Hmra.
  destruct cs as [|c cs].
  { apply valid_leaf_state in Hv. destruct Hv as [-> | ->]; done. }
  set (t := TreeNode n d s o g l (c :: cs)) in *.
  assert (Hne : children t ≠ []) by done.
  assert (Hf : final mra t = fset t).
  { destruct Hmra as [-> | ->]; [done|]. cbn [final]. unfold refined.
    by rewrite issubset_refl, set_and_idemp. }
  rewrite first_branching_unfold, after_pass2_children.
  rewrite (after_pass2_inner mra t Hne). cbn [state]. rewrite Hf.
  split; [|done].
  cbn [children t fmap list_fmap].
  destruct cs as [|c2 cs]; [|done].
  pose proof (valid_children _ Hv Hne) as Hcs. cbn [children t] in Hcs.
  inversion Hcs as [|? ? Hc _]; subst. inversion IH as [|? ? IHc _]; subst.
  assert (Hfc : fset t = fset c).
  { unfold t. cbn [fset children fmap list_fmap set_intersection set_union foldl].
    by rewrite (truthy_fset c Hc). }
  rewrite Hfc. apply (IHc Hc). by right.
Qed.

Lemma pseudo_root_state t p :
  valid t = true →
  _get_pseudo_root (after_pass2 None t) = Ok p →
  state p = state (after_pass2 None t).
Proof.
  intros Hv. unfold _get_pseudo_root, get_common_ancestor.
  destruct (first_branching_state t Hv None ltac:(by left)) as [H1 H2].
  case_bool_decide; [|done].
  destruct (get_leaf_names (after_pass2 None t)) as [|? [|? ?]];
    intros [= <-]; congruence.
Qed.

(** ** The reconstruction when Pass 2 finds no ambiguity *)

Lemma ambiguous_each_nil st cs pos :
  ambiguous_each st cs pos = [] →
  Forall (λ c, ∃ pos', ambiguous (Some st) c pos' = []) cs.
Proof.
  revert pos. induction cs as [|c cs IH]; intros pos H; [constructor|].
  cbn [ambiguous_each] in H. apply app_eq_nil in H as [H1 H2].
  constructor; [eauto|]. eapply IH, H2.
Qed.

(** Below a parent resolved to [v], a node that is not ambiguous follows
    the parent when its Fitch set allows and takes the other state
    otherwise. *)
Lemma child_state c v pos :
  valid c = true → v = 0 ∨ v = 1 →
  ambiguous (Some (singleton v)) c pos = [] →
  state (after_pass2 (Some (singleton v)) c)
  = Some (singleton (if mem v (fset c) then v else 1 - v)).
Proof.
  intros Hv Hv01 Hamb.
  destruct (decide (children c = [])) as [Hleaf|Hne].
  { destruct c as [n d s o g l cs]. cbn [children] in Hleaf. subst cs.
    apply valid_leaf_state in Hv. cbn.
    destruct Hv as [-> | ->], Hv01 as [-> | ->]; reflexivity. }
  rewrite (ambiguous_inner _ c pos Hne) in Hamb.
  apply app_eq_nil in Hamb as [Hamb _].
  rewrite (after_pass2_inner _ c Hne). cbn [state final] in *. f_equal.
  pose proof (truthy_fset c Hv) as Ht.
  revert Hamb Ht. unfold refined, truthy, issubset, set_and, set_or, mem, len.
  destruct (fset c) as [[] []], (shared_of c) as [[] []],
    (union_of c) as [[] []], Hv01 as [-> | ->]; cbn; done.
Qed.

Lemma follow_unfold v t :
  follow v t
  = LNode v ((λ c, follow (if mem v (fset c) then v else 1 - v) c) <$> children t).
Proof. by destruct t. Qed.

(** Without ambiguity the states Pass 2 leaves are the assignment
    [follow] builds from the state of the root. *)
Lemma no_ambiguity_follow t :
  valid t = true →
  ∀ mra pos v, v = 0 ∨ v = 1 →
    ambiguous mra t pos = [] →
    state (after_pass2 mra t) = Some (singleton v) →
    labelling ∅ (after_pass2 mra t) = follow v t.
Proof.
  induction t as [n d s o g l cs IH] using Tree_ind'. intros Hv mra pos v Hv01 Hamb Hst.
  rewrite labelling_unfold, follow_unfold.
  assert (Hl : label ∅ (after_pass2 mra (TreeNode n d s o g l cs)) = v).
  { unfold label. rewrite lookup_empty, Hst. by destruct Hv01 as [-> | ->]. }
  rewrite Hl. f_equal.
  destruct cs as [|c cs]; [done|].
  set (t := TreeNode n d s o g l (c :: cs)) in *.
  assert (Hne : children t ≠ []) by done.
  rewrite (ambiguous_inner _ t pos Hne) in Hamb.
  apply app_eq_nil in Hamb as [_ Hamb].
  apply ambiguous_each_nil in Hamb.
  rewrite (after_pass2_inner _ t Hne) in Hst. cbn [state] in Hst.
  injection Hst as Hst. rewrite after_pass2_children, Hst in *.
  pose proof (valid_children _ Hv Hne) as Hcs.
  assert (Heach : ∀ cs',
    Forall (λ t, valid t = true → ∀ mra pos v, v = 0 ∨ v = 1 →
      ambiguous mra t pos = [] →
      state (after_pass2 mra t) = Some (singleton v) →
      labelling ∅ (after_pass2 mra t) = follow v t) cs' →
    Forall (λ c, valid c = true) cs' →
    Forall (λ c, ∃ pos', ambiguous (Some (singleton v)) c pos' = []) cs' →
    labelling ∅ <$> (after_pass2 (Some (singleton v)) <$> cs')
    = (λ c, follow (if mem v (fset c) then v else 1 - v) c) <$> cs').
  { clear -Hv01. induction cs' as [|c' cs' IHcs]; intros H1 H2 H3; [done|].
    apply Forall_cons in H1 as [IHc IH'].
    apply Forall_cons in H2 as [Hc Hcs'].
    apply Forall_cons in H3 as [[pos' Hc'] Hamb'].
    cbn [fmap list_fmap]. f_equal; [|by apply IHcs].
    apply (IHc Hc _ pos'); [|done|by apply (child_state _ _ pos')].
    destruct (mem v (fset c')), Hv01 as [-> | ->]; auto. }
  exact (Heach _ IH Hcs Hamb).
Qed.

Lemma passes_inv t t1 mc t2 amb :
  valid t = true →
  _fitch_pass1 t = Ok (t1, mc) → _fitch_pass2 t1 = Ok (t2, amb) →
  t1 = after_pass1 t ∧ mc = unions t
  ∧ t2 = after_pass2 None t ∧ amb = ambiguous None t 0.
Proof.
  intros Hv H1 H2. rewrite (_fitch_pass1_spec t Hv) in H1.
  injection H1 as <- <-. rewrite (_fitch_pass2_spec t Hv) in H2.
  by injection H2 as <- <-.
Qed.

Lemma no_ambiguity_root_state t :
  valid t = true → ambiguous None t 0 = [] →
  ∃ v, (v = 0 ∨ v = 1) ∧ fset t = singleton v
       ∧ state (after_pass2 None t) = Some (singleton v).
Proof.
  intros Hv Hamb.
  pose proof (resolved_resolvable _ _ (resolved_no_ambiguity t Hv Hamb)) as Hr.
  destruct (first_branching_state t Hv None ltac:(by left)) as [_ Hst].
  pose proof (resolvable_empty_state _ Hr) as Hst'.
  destruct (effective_state_label _ _ Hr) as [_ Hl].
  exists (label ∅ (after_pass2 None t)). repeat split; [done| |done].
  congruence.
Qed.

(** Without ambiguity, on a tree with at most two children per node, the
    states Pass 2 leaves have exactly as many edge events as Pass 1
    counted. *)
Lemma no_ambiguity_events t :
  valid t = true → bifurcating t = true → ambiguous None t 0 = [] →
  edge_events (after_pass2 None t) = unions t.
Proof.
  intros Hv Hb Hamb.
  destruct (no_ambiguity_root_state t Hv Hamb) as (v & Hv01 & Hf & Hst).
  rewrite (edge_events_changes_of _ (resolved_no_ambiguity t Hv Hamb)).
  rewrite (no_ambiguity_follow t Hv None 0%nat v Hv01 Hamb Hst).
  apply follow_optimal; [done|done|]. rewrite Hf. by apply mem_singleton_self.
Qed.

(** ** Accepted candidates *)

Lemma ambiguous_inner_root mra t pos :
  ambiguous mra t pos ≠ [] → children (after_pass2 mra t) ≠ [].
Proof.
  destruct t as [n d s o g l [|c cs]]; [done|]. intros _.
  by rewrite (after_pass2_inner mra _) by done.
Qed.

Lemma elem_of_accepted u mc ts e :
  e ∈ accepted u mc ts →
  _unique_nodes ts = true
  ∧ candidate_total (name_states ts) u = mc
  ∧ e = annotate (name_states ts) (candidate_changes (name_states ts) u) u.
Proof.
  unfold accepted.
  destruct (_unique_nodes ts); [|by intros ?%elem_of_nil].
  destruct (Z.eqb_spec (candidate_total (name_states ts) u) mc);
    cbn [andb]; [|by intros ?%elem_of_nil].
  by intros ->%list_elem_of_singleton.
Qed.

Lemma candidate_total_internal ns u :
  children u ≠ [] → resolved ns u = true →
  candidate_total ns u
  = (if label ns u =? 1 then 1 else 0) + changes_of (labelling ns u).
Proof.
  intros Hne Hres. unfold candidate_total, root_gain.
  assert (is_leaf u = false) as -> by (unfold is_leaf; by destruct (children u)).
  rewrite <- (events_changes_of ns u Hres), length_app. cbn [andb negb].
  destruct (label ns u =? 1); cbn [length]; lia.
Qed.

(** The transitions of an accepted copy are the total its candidate was
    accepted with. *)
Lemma accepted_transition_events ns ch u :
  children u ≠ [] → resolved ns u = true →
  transition_events (annotate ns ch u) = candidate_total ns u.
Proof.
  intros Hne Hres. rewrite (candidate_total_internal ns u Hne Hres).
  destruct (labelling_annotate ns ch u Hres) as [Hres' Hlab].
  destruct (label_annotate ns ch u (resolved_resolvable _ _ Hres)) as [Hr Hl].
  unfold transition_events.
  rewrite (edge_events_changes_of _ Hres'), Hlab.
  rewrite (is_state_label _ 1 Hr) by auto. by rewrite Hl.
Qed.

(** An accepted candidate that leaves the leaves alone resolves the root
    to 0: with the root at 1 its total exceeds what Pass 1 counted. *)
Lemma accepted_root_state ns ch u :
  valid u = true → children u ≠ [] → resolved ns u = true →
  (∀ n, n ∈ traverse u → children n = [] → ns !! name n = None) →
  candidate_total ns u = unions u →
  state (annotate ns ch u) = Some (singleton 0).
Proof.
  intros Hv Hne Hres Hfree Htot.
  rewrite (candidate_total_internal ns u Hne Hres) in Htot.
  pose proof (lower_bound u Hv _ (assigns_labelling ns u Hres Hfree)) as Hlow.
  destruct (label_annotate ns ch u (resolved_resolvable _ _ Hres)) as [Hr Hl].
  rewrite (resolvable_empty_state _ Hr), Hl.
  destruct (effective_state_label _ _ (resolved_resolvable _ _ Hres)) as [_ H01].
  destruct (mem (lab (labelling ns u)) (fset u)), H01 as [-> | Heq]; try done;
    rewrite Heq in Htot; cbn in Htot; lia.
Qed.

(** With pairwise distinct names no candidate names a leaf. *)
Lemma distinct_names_leaves_free t ts :
  NoDup (name <$> traverse t) →
  sublist ts (ambiguous None t 0) →
  ∀ n, n ∈ traverse (after_pass2 None t) → children n = [] →
       name_states ts !! name n = None.
Proof.
  intros Hnd Hsub n Hn Hleaf.
  destruct (name_states ts !! name n) as [v|] eqn:E; [|done]. exfalso.
  assert (is_Some (name_states ts !! name n)) as Hsome by eauto.
  apply name_states_lookup in Hsome as [Hsome|(rec & Hrec & Hnm)].
  { rewrite lookup_empty in Hsome. by destruct Hsome. }
  assert (Hin : rec ∈ ambiguous None t 0) by (eapply sublist_subseteq; eauto).
  apply ambiguous_refers in Hin as (m & Hm & _ & Hnm' & Hch & _).
  apply list_elem_of_lookup in Hn as [j Hj].
  destruct (after_pass2_keeps t None) as (_ & _ & _ & _ & Hnames).
  rewrite <- Hnames in Hnd.
  assert (j = (ref_id rec.1 - 0)%nat).
  { eapply NoDup_lookup; [exact Hnd| |].
    - rewrite list_lookup_fmap, Hj. reflexivity.
    - rewrite list_lookup_fmap, Hm. cbn. congruence. }
  subst j. congruence.
Qed.

(** The veto keeps all the trees or none, and keeps them only when the
    root of the working tree is not in state [{1}]. *)
Lemma origin_veto_cases t trees kept :
  valid t = true →
  origin_veto (after_pass2 None t) trees = Ok kept →
  kept = [] ∨ (kept = trees ∧ state (after_pass2 None t) ≠ Some (singleton 1)).
Proof.
  intros Hv. unfold origin_veto.
  destruct (_get_pseudo_root (after_pass2 None t)) as [p|] eqn:Hp; [|done].
  cbn [mbind result_bind]. unfold get_state.
  rewrite (pseudo_root_state t p Hv Hp).
  destruct (state (after_pass2 None t)) as [st|] eqn:Hst; [|done].
  cbn [mbind result_bind].
  case_decide as Hd; intros [= <-]; [by left|].
  right. split; [done|]. congruence.
Qed.

Lemma count_one {A B} `{EqDecision B} (f : A → B) (l : list A) x :
  NoDup (f <$> l) → x ∈ l → length (filter (λ y, f y = f x) l) = 1%nat.
Proof.
  induction l as [|a l IH]; intros Hnd Hx; [by apply elem_of_nil in Hx|].
  cbn [fmap list_fmap] in Hnd. apply NoDup_cons in Hnd as [Ha Hnd].
  rewrite filter_cons.
  assert (Hnone : ∀ l' : list A, (∀ y, y ∈ l' → f y ≠ f a) →
                          filter (λ y, f y = f a) l' = []).
  { induction l' as [|b l' IHl]; intros Hl'; [done|].
    rewrite filter_cons, decide_False by (apply Hl'; left).
    apply IHl. intros y Hy. apply Hl'. by right. }
  apply elem_of_cons in Hx as [-> | Hx].
  - rewrite decide_True by done. cbn [length]. f_equal.
    rewrite Hnone; [done|]. intros y Hy Heq. apply Ha.
    rewrite <- Heq. apply list_elem_of_fmap. eauto.
  - rewrite decide_False; [by apply IH|].
    intros Heq. apply Ha. rewrite Heq. apply list_elem_of_fmap. eauto.
Qed.

(** With pairwise distinct names the pseudo-root is found. *)
Lemma pseudo_root_found u :
  NoDup (name <$> traverse u) → ∃ p, _get_pseudo_root u = Ok p.
Proof.
  intros Hnd. unfold _get_pseudo_root, get_common_ancestor.
  rewrite bool_decide_eq_true_2.
  - destruct (get_leaf_names u) as [|? [|? ?]]; eauto.
  - apply Forall_forall. intros nm Hnm. unfold get_leaf_names, get_leaves in Hnm.
    apply list_elem_of_fmap in Hnm as (n & -> & Hn).
    apply list_elem_of_filter in Hn as [_ Hn].
    by apply count_one.
Qed.

(** On a valid tree with pairwise distinct names [_fitch] returns. *)
Lemma _fitch_returns t :
  valid t = true → NoDup (name <$> traverse t) →
  ∃ w min_changes annot_trees, _fitch t = Ok (w, (min_changes, annot_trees)).
Proof.
  intros Hv Hnd. rewrite (_fitch_spec t Hv). cbv zeta.
  destruct (after_pass2_keeps t None) as (_ & _ & _ & _ & Hnames).
  rewrite <- Hnames in Hnd.
  destruct (pseudo_root_found _ Hnd) as [p Hp].
  assert (Hveto : ∀ trees, ∃ kept, origin_veto (after_pass2 None t) trees = Ok kept).
  { intros trees. unfold origin_veto. rewrite Hp. cbn [mbind result_bind].
    unfold get_state. rewrite (pseudo_root_state t p Hv Hp).
    destruct (first_branching_state t Hv None ltac:(by left)) as [_ ->].
    cbn [mbind result_bind]. case_decide; eauto. }
  destruct (ambiguous None t 0) as [|rec amb].
  - destruct (Hveto [marked (after_pass2 None t) false false]) as [kept ->].
    cbn [mbind result_bind]. eauto.
  - destruct (10 <? size (node_set (rec :: amb)))%nat; [eauto|].
    destruct (Hveto (concat (accepted (after_pass2 None t) (unions t) <$>
      combinations (rec :: amb) (size (node_set (rec :: amb)))))) as [kept ->].
    cbn [mbind result_bind]. eauto.
Qed.

(** ** The flags of an accepted copy *)

Lemma named_events_unfold edge ns u :
  named_events edge ns u =
  (name <$> filter (λ c, edge (label ns u) (label ns c) = true) (children u))
  ++ concat (named_events edge ns <$> children u).
Proof. by destruct u. Qed.

(** Every event names a node below the root, and no node twice. *)
Lemma named_events_below edge ns u :
  named_events edge ns u ⊆+ name <$> concat (traverse <$> children u).
Proof.
  induction u as [n d s o g l cs IH] using Tree_ind'.
  rewrite named_events_unfold. cbn [children].
  generalize (label ns (TreeNode n d s o g l cs)). intros v.
  induction IH as [|c cs Hc _ IHcs]; [done|].
  cbn [fmap list_fmap concat]. rewrite filter_cons, (traverse_unfold c).
  rewrite fmap_app. cbn [fmap list_fmap].
  change (list_fmap Tree string name ?l) with (name <$> l).
  change (list_fmap Tree (list string) ?f ?l) with (f <$> l) in *.
  change (list_fmap Tree (list Tree) ?f ?l) with (f <$> l) in *.
  set (rest := name <$> concat (traverse <$> cs)) in *.
  set (below := name <$> concat (traverse <$> children c)) in *.
  set (here := name <$> filter (λ c0, edge v (label ns c0) = true) cs) in *.
  set (deep := concat (named_events edge ns <$> cs)) in *.
  assert (Hperm : ∀ first : list string,
    (first ++ here) ++ named_events edge ns c ++ deep
    ≡ₚ first ++ named_events edge ns c ++ (here ++ deep)).
  { intros first. rewrite <- !app_assoc. f_equiv.
    rewrite !app_assoc. f_equiv. apply Permutation_app_comm. }
  destruct (decide (edge v (label ns c) = true)).
  - cbn [fmap list_fmap]. fold here.
    rewrite (Hperm [name c]). cbn [app]. apply submseteq_skip.
    by apply submseteq_app.
  - fold here. rewrite (Hperm []). cbn [app]. apply submseteq_cons.
    by apply submseteq_app.
Qed.

(** In a list without duplicates, the members of a sub-multiset are as
    many as the sub-multiset is long. *)
Lemma count_members (names xs : list string) :
  NoDup names → xs ⊆+ names →
  length (filter (λ x, x ∈ (list_to_set xs : gset string)) names) = length xs.
Proof.
  intros Hnd Hsub.
  destruct (submseteq_Permutation _ _ Hsub) as [k Hk].
  rewrite Hk in Hnd |- *. apply NoDup_app in Hnd as (_ & Hdisj & _).
  rewrite filter_app, length_app.
  assert (filter (λ x, x ∈ (list_to_set xs : gset string)) xs = xs) as ->.
  { clear. assert (∀ ys : list string, (∀ y, y ∈ ys → y ∈ xs) →
      filter (λ x, x ∈ (list_to_set xs : gset string)) ys = ys) as Hall.
    { induction ys as [|y ys IH]; intros Hys; [done|].
      rewrite filter_cons, decide_True.
      - f_equal. apply IH. intros z Hz. apply Hys. by right.
      - apply elem_of_list_to_set, Hys. left. }
    by apply Hall. }
  assert (filter (λ x, x ∈ (list_to_set xs : gset string)) k = []) as ->.
  { clear -Hdisj. induction k as [|y k IH]; [done|].
    rewrite filter_cons, decide_False.
    - apply IH. intros x Hx Hk. apply (Hdisj x Hx). by right.
    - intros Hy%elem_of_list_to_set. apply (Hdisj y Hy). left. }
  cbn [length]. lia.
Qed.

Lemma traverse_annotate ns ch u :
  traverse (annotate ns ch u) = annotate ns ch <$> traverse u.
Proof.
  induction u as [n d s o g l cs IH] using Tree_ind'.
  set (u := TreeNode n d s o g l cs) in *.
  rewrite (traverse_unfold (annotate ns ch u)), (traverse_unfold u).
  cbn [fmap list_fmap]. f_equal.
  rewrite annotate_unfold. cbn [children u]. clearbody u.
  induction IH as [|c cs Hc _ IHcs]; [done|].
  cbn [fmap list_fmap concat]. rewrite fmap_app. f_equal; done.
Qed.

Lemma unflagged_traverse u :
  unflagged u = true →
  ∀ n, n ∈ traverse u → gain n = false ∧ loss n = false.
Proof.
  induction u as [nm d s o g l cs IH] using Tree_ind'. intros Hun n Hn.
  destruct (unflagged_unfold _ Hun) as (Hg & Hl & Hcs).
  rewrite traverse_unfold in Hn. apply elem_of_cons in Hn as [-> | Hn]; [done|].
  apply elem_of_concat in Hn as (l' & Hl' & Hn).
  apply list_elem_of_fmap in Hl' as (c & -> & Hc).
  cbn [children] in *. rewrite Forall_forall in IH. rewrite Forall_forall in Hcs.
  by apply (IH c Hc (Hcs c Hc)).
Qed.

Lemma length_filter_fmap {A B} (f : A → B) (P : B → Prop) (Q : A → Prop)
    `{∀ x, Decision (P x)} `{∀ x, Decision (Q x)} (xs : list A) :
  (∀ x, x ∈ xs → (Q x ↔ P (f x))) →
  length (filter Q xs) = length (filter P (f <$> xs)).
Proof.
  induction xs as [|x xs IH]; intros HPQ; [done|].
  cbn [fmap list_fmap]. rewrite !filter_cons.
  assert (Hx : Q x ↔ P (f x)) by (apply HPQ; left).
  assert (IH' : length (filter Q xs) = length (filter P (f <$> xs))).
  { apply IH. intros y Hy. apply HPQ. by right. }
  change (list_fmap A B f xs) with (f <$> xs).
  destruct (decide (Q x)), (decide (P (f x))); cbn [length]; try tauto;
    by rewrite IH'.
Qed.

(** With pairwise distinct names, the flags of an accepted copy are as
    many as the events its candidate was counted with. *)
Lemma accepted_flag_events ns u :
  NoDup (name <$> traverse u) → unflagged u = true →
  flag_events (annotate ns (candidate_changes ns u) u) = candidate_total ns u.
Proof.
  intros Hnd Hun. unfold flag_events, candidate_total.
  rewrite traverse_annotate.
  assert (Hflag : ∀ (sel : Tree → bool) (names : gset string),
    (∀ n, n ∈ traverse u → sel n = false) →
    (∀ n, sel (annotate ns (candidate_changes ns u) n)
          = if decide (name n ∈ names) then true else sel n) →
    length (filter (λ n, sel n = true)
              (annotate ns (candidate_changes ns u) <$> traverse u))
    = length (filter (λ x, x ∈ names) (name <$> traverse u))).
  { intros sel names Hsel Hann.
    rewrite <- (length_filter_fmap name (λ x, x ∈ names)
                  (λ n, sel (annotate ns (candidate_changes ns u) n) = true)).
    - symmetry. apply (length_filter_fmap (annotate ns (candidate_changes ns u))
                         (λ n, sel n = true)).
      tauto.
    - intros n Hn. rewrite Hann, (Hsel n Hn). by case_decide. }
  rewrite (Hflag gain (gains (candidate_changes ns u))),
          (Hflag loss (losses (candidate_changes ns u))).
  - cbn [candidate_changes gains losses].
    rewrite !count_members; [done|done| |done|].
    + rewrite traverse_unfold. cbn [fmap list_fmap]. apply submseteq_cons.
      apply named_events_below.
    + rewrite traverse_unfold. cbn [fmap list_fmap].
      unfold root_gain. destruct (_ && _).
      * cbn [app]. apply submseteq_skip, named_events_below.
      * cbn [app]. apply submseteq_cons, named_events_below.
  - intros n Hn. by apply (unflagged_traverse u Hun).
  - intros n. by rewrite annotate_unfold.
  - intros n Hn. by apply (unflagged_traverse u Hun).
  - intros n. by rewrite annotate_unfold.
Qed.

(** ** Node ages *)

Lemma node_age_visit_unfold t m :
  node_age_visit t m = <[name t := age_entry t]> (node_age_each (children t) m).
Proof. unfold age_entry. destruct t as [n d s o g l [|c cs]]; reflexivity. Qed.




(** ** Pass 1 on input without a leaf state *)

Lemma get_state_raises d e : get_state d = Raise e → e = AttributeError.
Proof. unfold get_state. destruct (state d); [done|]. intros H. by injection H. Qed.

Lemma get_state_present d s : get_state d = Ok s → state d = Some s.
Proof. unfold get_state. destruct (state d); [|done]. intros H. by injection H as ->. Qed.

Lemma comprehension_get_state_raises ds e :
  comprehension get_state ds = Raise e → e = AttributeError.
Proof.
  induction ds as [|d ds IH]; [done|]. cbn [comprehension].
  destruct (get_state d) as [s|e'] eqn:E; cbn [mbind result_bind].
  - destruct (comprehension get_state ds) as [|e'']; [done|].
    cbn [mbind result_bind]. intros H. injection H as <-. by apply IH.
  - intros H. injection H as <-. by eapply get_state_raises.
Qed.

Lemma comprehension_get_state_missing ds :
  (∃ d, d ∈ ds ∧ state d = None) →
  comprehension get_state ds = Raise AttributeError.
Proof.
  induction ds as [|d ds IH]; intros (x & Hx & Hst).
  { by apply elem_of_nil in Hx. }
  cbn [comprehension].
  destruct (get_state d) as [s|e'] eqn:E; cbn [mbind result_bind].
  - apply get_state_present in E.
    apply elem_of_cons in Hx as [-> | Hx]; [congruence|].
    rewrite IH by eauto. done.
  - f_equal. by eapply get_state_raises.
Qed.

Lemma pass1_node_raises node cs k e :
  pass1_node node cs k = Raise e → e = AttributeError.
Proof.
  unfold pass1_node. destruct cs as [|d ds]; [done|].
  destruct (get_state d) as [s|e'] eqn:E; cbn [mbind result_bind].
  - destruct (comprehension get_state ds) as [|e''] eqn:E'.
    + cbn [mbind result_bind]. by destruct (truthy _).
    + cbn [mbind result_bind]. intros H. injection H as <-.
      by eapply comprehension_get_state_raises.
  - intros H. injection H as <-. by eapply get_state_raises.
Qed.

Lemma pass1_node_missing node cs k :
  (∃ d, d ∈ cs ∧ state d = None) →
  pass1_node node cs k = Raise AttributeError.
Proof.
  intros (x & Hx & Hst). unfold pass1_node.
  destruct cs as [|d ds]; [by apply elem_of_nil in Hx|].
  destruct (get_state d) as [s|e'] eqn:E; cbn [mbind result_bind].
  - apply get_state_present in E.
    apply elem_of_cons in Hx as [-> | Hx]; [congruence|].
    rewrite comprehension_get_state_missing by eauto. done.
  - f_equal. by eapply get_state_raises.
Qed.

(** Pass 1 raises nothing but [AttributeError]. *)
Lemma pass1_visit_raises t :
  ∀ k e, pass1_visit t k = Raise e → e = AttributeError.
Proof.
  induction t as [n d s o g l cs IH] using Tree_ind'. intros k e.
  rewrite pass1_visit_unfold. cbn [children].
  assert (Heach : ∀ k e, pass1_each cs k = Raise e → e = AttributeError).
  { clear -IH. induction IH as [|c cs Hc _ IHcs]; intros k e; [done|].
    cbn [pass1_each]. destruct (pass1_visit c k) as [[c' k']|e'] eqn:E.
    - cbn [mbind result_bind].
      destruct (pass1_each cs k') as [[cs' k'']|e''] eqn:E'; [done|].
      cbn [mbind result_bind]. intros H. injection H as <-. by eapply IHcs.
    - cbn [mbind result_bind]. intros H. injection H as <-. by eapply Hc. }
  destruct (pass1_each cs k) as [[cs' k']|e'] eqn:E.
  - cbn [mbind result_bind]. apply pass1_node_raises.
  - cbn [mbind result_bind]. intros H. injection H as <-. by eapply Heach.
Qed.

(** When a leaf below an internal node lacks its state, Pass 1 raises
    [AttributeError]. *)
Lemma pass1_visit_missing t :
  children t ≠ [] → leaf_without_state t →
  ∀ k, pass1_visit t k = Raise AttributeError.
Proof.
  induction t as [n d s o g l cs IH] using Tree_ind'.
  intros Hne (x & Hx & Hleaf & Hst) k.
  rewrite traverse_unfold in Hx. apply elem_of_cons in Hx as [-> | Hx]; [done|].
  cbn [children] in *. apply elem_of_concat in Hx as (l' & Hl' & Hx).
  apply list_elem_of_fmap in Hl' as (c & -> & Hc).
  rewrite pass1_visit_unfold. cbn [children].
  destruct (pass1_each cs k) as [[cs' k']|e] eqn:E.
  2:{ cbn [mbind result_bind]. f_equal.
      assert (Heach : ∀ cs k e, pass1_each cs k = Raise e → e = AttributeError).
      { clear. induction cs as [|c cs IHcs]; intros k e; [done|].
        cbn [pass1_each]. destruct (pass1_visit c k) as [[c' k']|e'] eqn:E.
        - cbn [mbind result_bind].
          destruct (pass1_each cs k') as [[cs' k'']|e''] eqn:E'; [done|].
          cbn [mbind result_bind]. intros H. injection H as <-. by eapply IHcs.
        - cbn [mbind result_bind]. intros H. injection H as <-.
          by eapply pass1_visit_raises. }
      by eapply Heach. }
  cbn [mbind result_bind]. apply pass1_node_missing.
  assert (Heach : ∀ cs k cs' k',
    Forall (λ t, children t ≠ [] → leaf_without_state t →
                 ∀ k, pass1_visit t k = Raise AttributeError) cs →
    c ∈ cs → pass1_each cs k = Ok (cs', k') →
    ∃ d, d ∈ cs' ∧ state d = None).
  { clear -Hx Hleaf Hst. induction cs as [|c0 cs IHcs]; intros k cs' k' IH Hc Hok.
    { by apply elem_of_nil in Hc. }
    apply Forall_cons in IH as [IHc IH'].
    cbn [pass1_each] in Hok.
    destruct (pass1_visit c0 k) as [[c0' k0]|] eqn:E0; [|done].
    cbn [mbind result_bind] in Hok.
    destruct (pass1_each cs k0) as [[cs0 k1]|] eqn:E1; [|done].
    injection Hok as <- <-.
    apply elem_of_cons in Hc as [<- | Hc].
    - exists c0'. split; [left|].
      destruct (decide (children c = [])) as [Hl|Hn].
      + assert (x = c) as ->.
        { rewrite traverse_unfold, Hl in Hx. cbn in Hx.
          by apply list_elem_of_singleton in Hx. }
        rewrite pass1_visit_unfold, Hl in E0. cbn in E0.
        injection E0 as <- _. done.
      + rewrite (IHc Hn) in E0; [done|]. by exists x.
    - destruct (IHcs _ _ _ IH' Hc E1) as (d & Hd & Hds).
      exists d. split; [by right|done]. }
  by eapply Heach.
Qed.

(** ** The store of tree objects *)



(** ** Pass 1 on any tree *)

Lemma stated_children t :
  stated t = true → children t ≠ [] → Forall (λ c, stated c = true) (children t).
Proof.
  destruct t as [n d s o g l [|c cs]]; [done|]. intros H _.
  change (forallb stated (c :: cs) = true) in H.
  apply Is_true_true, forallb_True in H.
  eapply Forall_impl; [exact H|]. intros x Hx. by apply Is_true_true.
Qed.

Lemma get_state_after_pass1_stated c :
  stated c = true → get_state (after_pass1 c) = Ok (fset c).
Proof.
  destruct c as [n d s o g l [|c' cs]]; [|done].
  cbn. intros H%bool_decide_eq_true. by destruct s.
Qed.

Lemma comprehension_get_state_stated cs :
  Forall (λ c, stated c = true) cs →
  comprehension get_state (after_pass1 <$> cs) = Ok (fset <$> cs).
Proof.
  induction 1 as [|c cs Hc _ IH]; [done|].
  cbn [fmap list_fmap comprehension].
  rewrite get_state_after_pass1_stated by done. cbn [mbind result_bind].
  change (list_fmap Tree Tree after_pass1 cs) with (after_pass1 <$> cs).
  rewrite IH. done.
Qed.

(** Pass 1 raises nothing when every leaf has a state attribute. *)
Lemma pass1_visit_stated t :
  stated t = true → ∀ k, pass1_visit t k = Ok (after_pass1 t, k + unions t).
Proof.
  induction t as [n d s o g l cs IH] using Tree_ind'. intros Hv k.
  rewrite pass1_visit_unfold.
  destruct cs as [|c cs].
  { simpl. f_equal. f_equal. lia. }
  pose proof (stated_children _ Hv ltac:(done)) as Hcs. simpl in Hcs.
  rewrite (pass1_each_spec (c :: cs)).
  2:{ apply Forall_forall. intros x Hx.
      rewrite Forall_forall in IH. rewrite Forall_forall in Hcs. auto. }
  cbn [mbind result_bind children].
  inversion Hcs as [|? ? Hc Hcs']; subst.
  unfold pass1_node. cbn [fmap list_fmap].
  rewrite get_state_after_pass1_stated by done. cbn [mbind result_bind].
  rewrite comprehension_get_state_stated by done. cbn [mbind result_bind].
  change (after_pass1 (TreeNode n d s o g l (c :: cs))) with
    (TreeNode n d (Some (fset (TreeNode n d s o g l (c :: cs))))
       (Some (if truthy (shared_of (TreeNode n d s o g l (c :: cs))) then Inter else Union))
       false false (after_pass1 <$> (c :: cs))).
  change (unions (TreeNode n d s o g l (c :: cs))) with
    (foldr (λ c n, unions c + n) 0 (c :: cs)
     + (if truthy (shared_of (TreeNode n d s o g l (c :: cs))) then 0 else 1)).
  change (fset (TreeNode n d s o g l (c :: cs))) with
    (let shared := set_intersection (fset c) (fset <$> cs) in
     if truthy shared then shared else set_union (fset c) (fset <$> cs)).
  change (shared_of (TreeNode n d s o g l (c :: cs))) with
    (set_intersection (fset c) (fset <$> cs)).
  cbv zeta. cbn [name dist].
  destruct (truthy (set_intersection (fset c) (fset <$> cs))).
  - f_equal. f_equal. lia.
  - f_equal. f_equal. lia.
Qed.

Lemma unflagged_after_pass1 t : unflagged (after_pass1 t) = true.
Proof.
  induction t as [n d s o g l cs IH] using Tree_ind'.
  destruct cs as [|c cs]; [done|].
  rewrite after_pass1_inner by done. cbn [unflagged gain loss children negb andb].
  apply Is_true_true, forallb_True, Forall_fmap.
  eapply Forall_impl; [exact IH|]. intros x Hx. by apply Is_true_true.
Qed.

Lemma dist_after_pass1 t : dist (after_pass1 t) = dist t.
Proof. by destruct t as [n d s o g l [|c cs]]. Qed.

Lemma shape_of_unfold t :
  shape_of t = Shape (name t) (dist t) (shape_of <$> children t).
Proof. by destruct t. Qed.

Lemma shape_of_after_pass1 t : shape_of (after_pass1 t) = shape_of t.
Proof.
  induction t as [n d s o g l cs IH] using Tree_ind'.
  rewrite (shape_of_unfold (after_pass1 _)), name_after_pass1, dist_after_pass1,
    children_after_pass1, (shape_of_unfold (TreeNode _ _ _ _ _ _ _)).
  f_equal. cbn [children]. rewrite <- list_fmap_compose.
  by apply Forall_fmap_ext.
Qed.

Lemma filter_concat {A} (P : A → Prop) `{∀ x, Decision (P x)} (ls : list (list A)) :
  filter P (concat ls) = concat (filter P <$> ls).
Proof.
  induction ls as [|l ls IH]; [done|].
  cbn [concat fmap list_fmap]. by rewrite filter_app, IH.
Qed.

Lemma get_leaves_unfold t :
  get_leaves t = if is_leaf t then [t] else concat (get_leaves <$> children t).
Proof.
  unfold get_leaves. rewrite traverse_unfold, filter_cons, filter_concat.
  rewrite <- list_fmap_compose.
  destruct (decide (is_leaf t = true)) as [Hl|Hl].
  - rewrite Hl. unfold is_leaf in Hl. destruct (children t); done.
  - apply not_true_is_false in Hl. rewrite Hl. done.
Qed.

Lemma leaf_states_unfold t :
  leaf_states t
  = if is_leaf t then [(name t, state t)] else concat (leaf_states <$> children t).
Proof.
  unfold leaf_states. rewrite get_leaves_unfold.
  destruct (is_leaf t); [done|].
  induction (children t) as [|c cs IH]; [done|].
  cbn [fmap list_fmap concat]. rewrite fmap_app. f_equal. exact IH.
Qed.

Lemma is_leaf_after_pass1 t : is_leaf (after_pass1 t) = is_leaf t.
Proof. by destruct t as [n d s o g l [|c cs]]. Qed.

Lemma leaf_states_after_pass1 t : leaf_states (after_pass1 t) = leaf_states t.
Proof.
  induction t as [n d s o g l cs IH] using Tree_ind'.
  rewrite (leaf_states_unfold (after_pass1 _)), is_leaf_after_pass1,
    (leaf_states_unfold (TreeNode _ _ _ _ _ _ _)).
  destruct cs as [|c cs]; [done|].
  rewrite children_after_pass1. cbn [is_leaf children].
  f_equal. rewrite <- list_fmap_compose. by apply Forall_fmap_ext.
Qed.

Lemma fset_after_pass1 t : fset (after_pass1 t) = fset t.
Proof.
  induction t as [n d s o g l cs IH] using Tree_ind'.
  destruct cs as [|c cs]; [done|].
  rewrite after_pass1_inner by done.
  inversion IH as [|? ? Hc Hcs]; subst.
  apply Forall_fmap_ext in Hcs.
  cbn [fset children fmap list_fmap].
  change (list_fmap Tree Tree after_pass1 cs) with (after_pass1 <$> cs).
  rewrite <- list_fmap_compose. unfold compose. rewrite Hcs, Hc. done.
Qed.

Lemma shared_of_after_pass1 t : shared_of (after_pass1 t) = shared_of t.
Proof.
  destruct t as [n d s o g l [|c cs]]; [done|].
  rewrite after_pass1_inner by done. unfold shared_of.
  cbn [children fmap list_fmap].
  change (list_fmap Tree Tree after_pass1 cs) with (after_pass1 <$> cs).
  rewrite <- list_fmap_compose, fset_after_pass1. f_equal.
  apply list_fmap_ext. intros ? x _. apply fset_after_pass1.
Qed.

Lemma unions_unfold t :
  unions t =
  match children t with
  | [] => 0
  | _ :: _ =>
      foldr (λ c n, unions c + n) 0 (children t)
      + (if truthy (shared_of t) then 0 else 1)
  end.
Proof. by destruct t. Qed.

Lemma sum_fmap_ext {A} (f : A → Z) (g : A → A) (xs : list A) :
  Forall (λ x, f (g x) = f x) xs →
  foldr (λ c n, f c + n) 0 (g <$> xs) = foldr (λ c n, f c + n) 0 xs.
Proof.
  induction 1 as [|x xs Hx _ IH]; [done|].
  cbn [fmap list_fmap foldr]. rewrite Hx. f_equal. exact IH.
Qed.

Lemma unions_after_pass1 t : unions (after_pass1 t) = unions t.
Proof.
  induction t as [n d s o g l cs IH] using Tree_ind'.
  rewrite (unions_unfold (after_pass1 _)), shared_of_after_pass1, children_after_pass1,
    (unions_unfold (TreeNode _ _ _ _ _ _ _)).
  cbn [children]. destruct cs as [|c cs]; [done|].
  change (list_fmap Tree Tree after_pass1 (c :: cs)) with (after_pass1 <$> (c :: cs)).
  by rewrite (sum_fmap_ext unions).
Qed.

Lemma after_pass1_idemp t : after_pass1 (after_pass1 t) = after_pass1 t.
Proof.
  induction t as [n d s o g l cs IH] using Tree_ind'.
  destruct cs as [|c cs]; [done|].
  set (t := TreeNode n d s o g l (c :: cs)) in *.
  assert (Hne : children t ≠ []) by done.
  assert (Hne' : children (after_pass1 t) ≠ []).
  { rewrite children_after_pass1. by destruct (children t). }
  rewrite (after_pass1_inner (after_pass1 t) Hne').
  rewrite fset_after_pass1, shared_of_after_pass1, name_after_pass1, dist_after_pass1,
    children_after_pass1.
  rewrite (after_pass1_inner t Hne). f_equal.
  rewrite <- list_fmap_compose. by apply Forall_fmap_ext.
Qed.

Lemma stated_unfold t :
  stated t =
  match children t with
  | [] => bool_decide (state t ≠ None)
  | _ :: _ => forallb stated (children t)
  end.
Proof. by destruct t. Qed.

Lemma forallb_fmap_ext {A} (f : A → bool) (g : A → A) (xs : list A) :
  Forall (λ x, f (g x) = f x) xs → forallb f (g <$> xs) = forallb f xs.
Proof.
  induction 1 as [|x xs Hx _ IH]; [done|].
  cbn [fmap list_fmap forallb]. rewrite Hx. f_equal. exact IH.
Qed.

Lemma stated_after_pass1 t : stated (after_pass1 t) = stated t.
Proof.
  induction t as [n d s o g l cs IH] using Tree_ind'.
  destruct cs as [|c cs]; [done|].
  rewrite (stated_unfold (after_pass1 _)), children_after_pass1,
    (stated_unfold (TreeNode _ _ _ _ _ _ _)).
  cbn [children]. by rewrite (forallb_fmap_ext stated).
Qed.

(** A tree that is not [stated] has a leaf without state. *)
Lemma not_stated t : stated t = false → leaf_without_state t.
Proof.
  induction t as [n d s o g l cs IH] using Tree_ind'. intros Hs.
  destruct cs as [|c cs].
  { cbn in Hs. apply bool_decide_eq_false in Hs.
    exists (TreeNode n d s o g l []). split; [rewrite traverse_unfold; left|].
    split; [done|]. cbn. destruct s; [|done]. by destruct Hs. }
  change (forallb stated (c :: cs) = false) in Hs.
  assert (∃ x, x ∈ c :: cs ∧ stated x = false) as (x & Hx & Hxs).
  { clear -Hs. induction (c :: cs) as [|y ys IHy]; [done|].
    cbn in Hs. apply andb_false_iff in Hs as [Hs|Hs].
    - exists y. split; [left|done].
    - destruct (IHy Hs) as (x & ? & ?). exists x. split; [by right|done]. }
  rewrite Forall_forall in IH. destruct (IH x Hx Hxs) as (m & Hm & Hlf & Hst).
  exists m. split; [|done].
  rewrite traverse_unfold. right. apply elem_of_concat.
  exists (traverse x). split; [|done]. apply list_elem_of_fmap. by exists x.
Qed.

(** What a successful Pass 1 has returned. *)
Lemma pass1_ok_inv t t1 k :
  _fitch_pass1 t = Ok (t1, k) →
  t1 = after_pass1 t ∧ k = unions t ∧ (children t = [] ∨ stated t = true).
Proof.
  unfold _fitch_pass1. intros H.
  destruct (stated t) eqn:Hs.
  { rewrite pass1_visit_stated in H by done. injection H as <- <-. auto. }
  destruct t as [n d s o g l [|c cs]].
  { cbn in H. injection H as <- <-. auto. }
  rewrite pass1_visit_missing in H; [done|done|]. by apply not_stated.
Qed.

Lemma unions_nonneg t : 0 ≤ unions t.
Proof.
  induction t as [n d s o g l cs IH] using Tree_ind'.
  rewrite unions_unfold. cbn [children]. destruct cs as [|c cs]; [done|].
  assert (0 ≤ foldr (λ c n, unions c + n) 0 (c :: cs)).
  { clear -IH. induction IH as [|x xs Hx _ IHxs]; [done|]. cbn [foldr]. lia. }
  destruct (truthy _); lia.
Qed.

Lemma sum_zero {A} (f : A → Z) (xs : list A) :
  Forall (λ x, 0 ≤ f x) xs →
  foldr (λ c n, f c + n) 0 xs = 0 → Forall (λ x, f x = 0) xs.
Proof.
  induction 1 as [|x xs Hx Hxs IH]; [done|]. cbn [foldr]. intros H.
  assert (0 ≤ foldr (λ c n, f c + n) 0 xs).
  { clear -Hxs. induction Hxs as [|y ys Hy _ IHy]; [done|]. cbn [foldr]. lia. }
  constructor; [lia|]. apply IH. lia.
Qed.

Lemma mem_set_intersection v s ss :
  mem v (set_intersection s ss) = true →
  mem v s = true ∧ Forall (λ x, mem v x = true) ss.
Proof.
  unfold mem. rewrite has0_set_intersection, has1_set_intersection.
  intros H. split.
  - destruct (has0 s), (has1 s), (forallb has0 ss), (forallb has1 ss),
      (v =? 0), (v =? 1); done.
  - induction ss as [|x xs IH]; [done|]. cbn [forallb] in H.
    constructor.
    + destruct (has0 s), (has1 s), (has0 x), (has1 x), (forallb has0 xs),
        (forallb has1 xs), (v =? 0), (v =? 1); done.
    + apply IH.
      destruct (has0 s), (has1 s), (has0 x), (has1 x), (forallb has0 xs),
        (forallb has1 xs), (v =? 0), (v =? 1); done.
Qed.

Lemma uniform_child v t c : uniform v t → c ∈ children t → uniform v c.
Proof.
  intros Hu Hc n Hn. apply Hu. rewrite traverse_unfold. right.
  apply elem_of_concat. exists (traverse c). split; [|done].
  apply list_elem_of_fmap. by exists c.
Qed.

Lemma uniform_inner v t :
  (∀ c, c ∈ children t → uniform v c) → children t ≠ [] → uniform v t.
Proof.
  intros Hcs Hne n Hn Hlf. rewrite traverse_unfold in Hn.
  apply elem_of_cons in Hn as [->|Hn]; [done|].
  apply elem_of_concat in Hn as (l & Hl & Hn).
  apply list_elem_of_fmap in Hl as (c & -> & Hc). by apply (Hcs c).
Qed.

(** When no node is a union node, every leaf is in the state the root's
    Fitch set holds. *)
Lemma no_union_uniform t :
  valid t = true → unions t = 0 →
  ∀ v, mem v (fset t) = true → uniform v t.
Proof.
  induction t as [n d s o g l cs IH] using Tree_ind'. intros Hv Hu v Hm.
  destruct cs as [|c cs].
  { intros m Hm' _. rewrite traverse_unfold in Hm'. cbn in Hm'.
    apply list_elem_of_singleton in Hm' as ->. cbn.
    apply valid_leaf_state in Hv. cbn in Hm.
    destruct Hv as [-> | ->]; cbn in Hm; f_equal;
      unfold mem in Hm; cbn in Hm;
      destruct (Z.eqb_spec v 0), (Z.eqb_spec v 1); subst; done. }
  set (t := TreeNode n d s o g l (c :: cs)) in *.
  assert (Hne : children t ≠ []) by done.
  pose proof (valid_children _ Hv Hne) as Hcs.
  rewrite unions_unfold in Hu. cbn [children t] in Hu. fold t in Hu.
  assert (Hnn : Forall (λ x, 0 ≤ unions x) (c :: cs)).
  { apply Forall_forall. intros. apply unions_nonneg. }
  assert (Hsum : 0 ≤ foldr (λ c n, unions c + n) 0 (c :: cs)).
  { clear -Hnn. induction Hnn as [|y ys Hy _ IHy]; [done|]. cbn [foldr]. lia. }
  destruct (truthy (shared_of t)) eqn:Hsh; [|lia].
  assert (Hz : foldr (λ c n, unions c + n) 0 (c :: cs) = 0) by lia.
  pose proof (sum_zero unions _ Hnn Hz) as Hzs.
  assert (Hf : fset t = shared_of t).
  { unfold shared_of in *. cbn [fset t children] in *. by rewrite Hsh. }
  rewrite Hf in Hm. unfold shared_of in Hm. cbn [children t] in Hm.
  apply mem_set_intersection in Hm as [Hmc Hmcs].
  apply uniform_inner; [|done]. intros x Hx.
  rewrite Forall_forall in IH, Hcs, Hzs.
  apply IH; auto.
  cbn [children t] in Hx. apply elem_of_cons in Hx as [->|Hx]; [done|].
  rewrite Forall_fmap, Forall_forall in Hmcs. by apply Hmcs.
Qed.

Lemma foldl_set_and_const s n : foldl set_and s (replicate n s) = s.
Proof.
  induction n as [|n IH]; [done|]. cbn. by rewrite set_and_idemp.
Qed.

(** When every leaf is in state [{v}], so is every node, and no node is a
    union node. *)
Lemma uniform_no_union v t :
  v = 0 ∨ v = 1 → uniform v t → fset t = singleton v ∧ unions t = 0.
Proof.
  intros Hv01.
  induction t as [n d s o g l cs IH] using Tree_ind'. intros Hu.
  destruct cs as [|c cs].
  { specialize (Hu _ ltac:(rewrite traverse_unfold; left) eq_refl).
    cbn in *. by subst. }
  set (t := TreeNode n d s o g l (c :: cs)) in *.
  assert (Hcs : Forall (λ x, fset x = singleton v ∧ unions x = 0) (c :: cs)).
  { rewrite Forall_forall in IH. apply Forall_forall. intros x Hx.
    apply IH; [done|]. by apply (uniform_child v t). }
  assert (Hf : fset <$> (c :: cs) = replicate (length (c :: cs)) (singleton v)).
  { clear -Hcs. induction Hcs as [|x xs [Hx _] _ IHxs]; [done|].
    cbn [fmap list_fmap length replicate]. by rewrite Hx, IHxs. }
  assert (Hz : foldr (λ c n, unions c + n) 0 (c :: cs) = 0).
  { clear -Hcs. induction Hcs as [|x xs [_ Hx] _ IHxs]; [done|].
    cbn [foldr]. lia. }
  cbn [fmap list_fmap length replicate] in Hf. injection Hf as Hc Hcs'.
  change (list_fmap Tree stateset fset cs) with (fset <$> cs) in Hcs'.
  assert (Hsh : shared_of t = singleton v).
  { unfold shared_of. cbn [children t]. rewrite Hc, Hcs'.
    unfold set_intersection. apply foldl_set_and_const. }
  assert (Htr : truthy (singleton v) = true).
  { destruct Hv01 as [-> | ->]; done. }
  split.
  - change (fset t) with
      (let shared := set_intersection (fset c) (fset <$> cs) in
       if truthy shared then shared else set_union (fset c) (fset <$> cs)).
    unfold shared_of in Hsh. cbn [children t] in Hsh. cbv zeta.
    by rewrite Hsh, Htr.
  - rewrite unions_unfold. cbn [children t]. fold t. rewrite Hsh, Htr. lia.
Qed.

Lemma valid_leaf_exists t : valid t = true → ∃ v, (v = 0 ∨ v = 1) ∧ mem v (fset t) = true.
Proof.
  intros Hv%truthy_fset. unfold truthy in Hv. unfold mem.
  destruct (has0 (fset t)) eqn:H0.
  - exists 0. split; [auto|]. done.
  - exists 1. split; [auto|]. cbn in *. rewrite Hv. done.
Qed.

Lemma constant_unfold v t :
  constant v t =
  match children t with
  | [] => LNode (label ∅ t) []
  | _ :: _ => LNode v (constant v <$> children t)
  end.
Proof. by destruct t. Qed.

Lemma constant_assigns v t :
  v = 0 ∨ v = 1 → valid t = true → assigns t (constant v t) = true.
Proof.
  intros Hv01.
  induction t as [n d s o g l cs IH] using Tree_ind'. intros Hv.
  destruct cs as [|c cs].
  { apply valid_leaf_state in Hv. destruct Hv as [-> | ->]; done. }
  set (t := TreeNode n d s o g l (c :: cs)) in *.
  assert (Hne : children t ≠ []) by done.
  pose proof (valid_children _ Hv Hne) as Hcs.
  rewrite (assigns_inner t _ Hne), constant_unfold. cbn [children t lab subs].
  apply andb_true_iff. split; [destruct Hv01 as [-> | ->]; done|].
  cbn [children t] in Hcs.
  clear -IH Hcs. induction IH as [|x xs Hx _ IHxs]; [done|].
  inversion Hcs; subst. cbn [fmap list_fmap assigns_each].
  rewrite Hx by done. cbn [andb]. by apply IHxs.
Qed.

Lemma leaves_in_state_unfold v t :
  leaves_in_state v t =
  match children t with
  | [] => if decide (state t = Some (singleton v)) then 1 else 0
  | _ :: _ => foldr (λ c n, leaves_in_state v c + n) 0 (children t)
  end.
Proof.
  unfold leaves_in_state. rewrite get_leaves_unfold. unfold is_leaf.
  destruct (children t) as [|c cs].
  { rewrite filter_cons. by destruct (decide _). }
  rewrite filter_concat, <- list_fmap_compose.
  induction (c :: cs) as [|x xs IH]; [done|].
  cbn [fmap list_fmap concat foldr]. rewrite length_app, Nat2Z.inj_add.
  f_equal. exact IH.
Qed.

(** The changes of the constant assignment, counted with the edge above
    the tree, are the leaves in the other state. *)
Lemma constant_changes v t :
  v = 0 ∨ v = 1 → valid t = true →
  (if v =? lab (constant v t) then 0 else 1) + changes_of (constant v t)
  = leaves_in_state (1 - v) t.
Proof.
  intros Hv01.
  induction t as [n d s o g l cs IH] using Tree_ind'. intros Hv.
  rewrite leaves_in_state_unfold, constant_unfold. cbn [children].
  destruct cs as [|c cs].
  { apply valid_leaf_state in Hv.
    destruct Hv as [-> | ->], Hv01 as [-> | ->]; done. }
  set (t := TreeNode n d s o g l (c :: cs)) in *.
  pose proof (valid_children t Hv ltac:(done)) as Hcs. cbn [children t] in Hcs.
  cbn [lab]. rewrite Z.eqb_refl, changes_of_unfold, Z.add_0_l.
  clear -IH Hcs. induction IH as [|x xs Hx _ IHxs]; [done|].
  inversion Hcs as [|? ? Hvx Hvxs]; subst. cbn [fmap list_fmap foldr].
  change (list_fmap Tree ltree (constant v) xs) with (constant v <$> xs).
  rewrite <- (Hx Hvx), <- (IHxs Hvxs). lia.
Qed.

Lemma changes_of_nonneg a : 0 ≤ changes_of a.
Proof.
  revert a. fix IH 1. intros [v bs]. rewrite changes_of_unfold.
  induction bs as [|b bs IHbs]; [done|]. cbn [foldr].
  specialize (IH b). destruct (v =? lab b); lia.
Qed.

(** ** Pass 2 on any tree *)

Lemma get_operation_raises d e : get_operation d = Raise e → e = AttributeError.
Proof. unfold get_operation. destruct (operation d); [done|]. by intros [= <-]. Qed.

Lemma updated_state_raises a t e : updated_state a t = Raise e → e = AttributeError.
Proof.
  unfold updated_state.
  destruct (get_state t) as [st|e'] eqn:Hst; cbn [mbind result_bind].
  2:{ intros [= <-]. by apply get_state_raises in Hst. }
  destruct (issubset a st); [done|].
  destruct (get_operation t) as [[]|e'] eqn:Hop; cbn [mbind result_bind].
  - destruct (children t) as [|d ds]; [done|].
    destruct (get_state d) as [s|e'] eqn:Hd; cbn [mbind result_bind].
    2:{ intros [= <-]. by apply get_state_raises in Hd. }
    destruct (comprehension get_state ds) as [ss|e'] eqn:Hds; cbn [mbind result_bind];
      [done|].
    intros [= <-]. by apply comprehension_get_state_raises in Hds.
  - done.
  - intros [= <-]. by apply get_operation_raises in Hop.
Qed.

Lemma pass2_node_raises mra t pos amb e :
  pass2_node mra t pos amb = Raise e → e = AttributeError.
Proof.
  unfold pass2_node.
  destruct mra as [a|].
  - destruct (updated_state a t) as [st|e'] eqn:Hst; cbn [mbind result_bind].
    + by destruct (1 <? len st).
    + intros [= <-]. by apply updated_state_raises in Hst.
  - destruct (get_state t) as [st|e'] eqn:Hst; cbn [mbind result_bind].
    + by destruct (1 <? len st).
    + intros [= <-]. by apply get_state_raises in Hst.
Qed.

Lemma pass2_each_raises st cs :
  Forall (λ c, ∀ mra pos amb e,
    pass2_visit mra c pos amb = Raise e → e = AttributeError) cs →
  ∀ pos amb e, pass2_each st cs pos amb = Raise e → e = AttributeError.
Proof.
  induction 1 as [|c cs Hc _ IH]; intros pos amb e; [done|].
  cbn [pass2_each].
  destruct (pass2_visit (Some st) c pos amb) as [[[c' pos1] amb1]|e'] eqn:Hv;
    cbn [mbind result_bind].
  2:{ intros [= <-]. by apply Hc in Hv. }
  destruct (pass2_each st cs pos1 amb1) as [[[cs' pos2] amb2]|e'] eqn:He;
    cbn [mbind result_bind]; [done|].
  intros [= <-]. by apply IH in He.
Qed.

(** Pass 2 raises nothing but [AttributeError]. *)
Lemma pass2_visit_raises t :
  ∀ mra pos amb e, pass2_visit mra t pos amb = Raise e → e = AttributeError.
Proof.
  induction t as [n d s o g l cs IH] using Tree_ind'. intros mra pos amb e.
  rewrite pass2_visit_unfold. cbn [children].
  destruct cs as [|c cs]; [done|].
  set (t := TreeNode n d s o g l (c :: cs)) in *.
  destruct (pass2_node mra t pos amb) as [[st amb1]|e'] eqn:Hn;
    cbn [mbind result_bind].
  2:{ intros [= <-]. by apply pass2_node_raises in Hn. }
  destruct (pass2_each st (c :: cs) (S pos) amb1) as [[[cs' pos2] amb2]|e'] eqn:He;
    cbn [mbind result_bind]; [done|].
  intros [= <-]. by apply (pass2_each_raises st (c :: cs) IH) in He.
Qed.

Lemma pass2_node_inv mra t pos amb st amb' :
  pass2_node mra t pos amb = Ok (st, amb') →
  state t ≠ None
  ∧ (mra = None → state t = Some st)
  ∧ ∃ refs, amb' = amb ++ paired refs
            ∧ Forall (λ r, ref_id r = pos) refs ∧ (length refs ≤ 1)%nat.
Proof.
  unfold pass2_node. intros H.
  assert (Hst : state t ≠ None ∧ (mra = None → state t = Some st)
                ∧ ((1 <? len st) = true
                     ∧ amb' = amb ++ both_states (NodeRef pos (name t))
                   ∨ amb' = amb)).
  { destruct mra as [a|].
    - unfold updated_state in H.
      destruct (get_state t) as [s0|] eqn:Hs0; [|done].
      apply get_state_present in Hs0. cbn [mbind result_bind] in H.
      split; [congruence|]. split; [done|].
      match type of H with (?m ≫= _) = _ => destruct m as [s1|] eqn:Hs1 end;
        [|done].
      cbn [mbind result_bind] in H.
      destruct (1 <? len s1) eqn:Hl; injection H as <- <-; auto.
    - destruct (get_state t) as [s0|] eqn:Hs0; [|done].
      apply get_state_present in Hs0. cbn [mbind result_bind] in H.
      split; [congruence|].
      destruct (1 <? len s0) eqn:Hl; injection H as <- <-; auto. }
  destruct Hst as (H1 & H2 & H3). split; [done|]. split; [done|].
  destruct H3 as [[_ ->] | ->].
  - exists [NodeRef pos (name t)].
    split; [unfold paired; by rewrite bind_singleton|]. split; [|done].
    by constructor.
  - exists []. split; [by rewrite app_nil_r|]. split; [constructor|cbn; lia].
Qed.

Lemma without_inner_states_unfold t :
  without_inner_states t =
  TreeNode (name t) (dist t)
    (match children t with [] => state t | _ :: _ => None end)
    (operation t) (gain t) (loss t)
    (without_inner_states <$> children t).
Proof. by destruct t. Qed.

Lemma NoDup_ids_app (refs1 refs2 : list node_ref) (lo mid hi : nat) :
  Forall (λ r, (lo ≤ ref_id r < mid)%nat) refs1 →
  Forall (λ r, (mid ≤ ref_id r < hi)%nat) refs2 →
  NoDup (ref_id <$> refs1) → NoDup (ref_id <$> refs2) →
  NoDup (ref_id <$> (refs1 ++ refs2)).
Proof.
  intros H1 H2 N1 N2. rewrite fmap_app. apply NoDup_app.
  split; [done|]. split; [|done].
  intros x Hx1 Hx2.
  apply list_elem_of_fmap in Hx1 as (r1 & -> & Hr1).
  apply list_elem_of_fmap in Hx2 as (r2 & Heq & Hr2).
  rewrite Forall_forall in H1, H2.
  specialize (H1 _ Hr1). specialize (H2 _ Hr2). lia.
Qed.

Lemma paired_app refs1 refs2 : paired (refs1 ++ refs2) = paired refs1 ++ paired refs2.
Proof. unfold paired. apply bind_app. Qed.

Lemma pass2_each_inv st cs :
  Forall (λ c, ∀ mra pos amb c' pos' amb',
    pass2_visit mra c pos amb = Ok (c', pos', amb') →
    pass2_outcome c c' pos pos' amb amb') cs →
  ∀ pos amb cs' pos' amb',
    pass2_each st cs pos amb = Ok (cs', pos', amb') →
    pos' = (pos + nodes_count cs)%nat
    ∧ without_inner_states <$> cs' = without_inner_states <$> cs
    ∧ Forall inner_stated cs
    ∧ ∃ refs, amb' = amb ++ paired refs
              ∧ Forall (λ r, (pos ≤ ref_id r < pos')%nat) refs
              ∧ NoDup (ref_id <$> refs).
Proof.
  induction 1 as [|c cs Hc _ IH]; intros pos amb cs' pos' amb' H.
  { cbn in H. injection H as <- <- <-. split; [cbn; lia|]. split; [done|].
    split; [done|]. exists []. rewrite app_nil_r. split; [done|].
    split; constructor. }
  cbn [pass2_each] in H.
  destruct (pass2_visit (Some st) c pos amb) as [[[c' pos1] amb1]|] eqn:Hv; [|done].
  cbn [mbind result_bind] in H.
  destruct (pass2_each st cs pos1 amb1) as [[[cs1 pos2] amb2]|] eqn:He; [|done].
  cbn [mbind result_bind] in H. injection H as <- <- <-.
  apply Hc in Hv as (-> & Hw & Hin & refs1 & -> & Hr1 & N1).
  apply IH in He as (-> & Hws & Hins & refs2 & -> & Hr2 & N2).
  split; [cbn [nodes_count foldr]; unfold nodes_count; lia|].
  split; [cbn [fmap list_fmap]; by rewrite Hw, Hws|].
  split; [by constructor|].
  exists (refs1 ++ refs2). split; [by rewrite paired_app, app_assoc|].
  split.
  - apply Forall_app. split.
    + eapply Forall_impl; [exact Hr1|]. cbn. intros. lia.
    + eapply Forall_impl; [exact Hr2|]. cbn. intros. lia.
  - eapply NoDup_ids_app; eauto.
Qed.

Lemma inner_stated_node t :
  (children t ≠ [] → state t ≠ None) → Forall inner_stated (children t) →
  inner_stated t.
Proof.
  intros Ht Hcs n Hn Hne. rewrite traverse_unfold in Hn.
  apply elem_of_cons in Hn as [->|Hn]; [auto|].
  apply elem_of_concat in Hn as (l & Hl & Hn).
  apply list_elem_of_fmap in Hl as (c & -> & Hc).
  rewrite Forall_forall in Hcs. by apply (Hcs c Hc).
Qed.

Lemma pass2_visit_inv t :
  ∀ mra pos amb t2 pos' amb',
    pass2_visit mra t pos amb = Ok (t2, pos', amb') →
    pass2_outcome t t2 pos pos' amb amb'.
Proof.
  induction t as [n d s o g l cs IH] using Tree_ind'.
  intros mra pos amb t2 pos' amb' H.
  rewrite pass2_visit_unfold in H. cbn [children] in H.
  destruct cs as [|c cs].
  { injection H as <- <- <-. split; [unfold node_count; cbn; lia|].
    split; [done|]. split.
    { intros m Hm. rewrite traverse_unfold in Hm. cbn in Hm.
      apply list_elem_of_singleton in Hm as ->. done. }
    exists []. rewrite app_nil_r. split; [done|]. split; constructor. }
  set (t := TreeNode n d s o g l (c :: cs)) in *.
  destruct (pass2_node mra t pos amb) as [[st amb1]|] eqn:Hn; [|done].
  cbn [mbind result_bind] in H.
  destruct (pass2_each st (c :: cs) (S pos) amb1) as [[[cs' pos2] amb2]|] eqn:He;
    [|done].
  cbn [mbind result_bind] in H. injection H as <- <- <-.
  apply pass2_node_inv in Hn as (Hst & _ & refs0 & -> & Hr0 & Hlen).
  apply (pass2_each_inv st (c :: cs) IH) in He as (-> & Hws & Hins & refs & -> & Hr & N).
  split; [rewrite (node_count_unfold t); cbn [children t]; lia|].
  split.
  { rewrite without_inner_states_unfold. cbn [name dist operation gain loss children].
    rewrite (without_inner_states_unfold t). cbn [name dist operation gain loss children t].
    rewrite Hws. by destruct cs'. }
  split; [by apply inner_stated_node|].
  exists (refs0 ++ refs). split; [by rewrite paired_app, app_assoc|].
  split.
  - apply Forall_app. split.
    + eapply Forall_impl; [exact Hr0|]. cbn. intros r ->.
      unfold nodes_count. cbn [foldr]. pose proof (node_count_unfold c). lia.
    + eapply Forall_impl; [exact Hr|]. cbn. intros. lia.
  - apply (NoDup_ids_app refs0 refs pos (S pos) (S pos + nodes_count (c :: cs))).
    + eapply Forall_impl; [exact Hr0|]. cbn. intros r ->. lia.
    + done.
    + destruct refs0 as [|r0 [|r1 rs]]; [constructor| |cbn in Hlen; lia].
      cbn. apply NoDup_singleton.
    + done.
Qed.

(** ** Candidates that name every node once *)

Lemma union_singleton_elem (x : nat) (X : gset nat) : x ∈ X → {[x]} ∪ X = X.
Proof.
  intros Hx. apply set_eq. intros y. rewrite elem_of_union, elem_of_singleton.
  split; [intros [->|]; done | auto].
Qed.

Lemma size_list_to_set_le (l : list nat) :
  (size (list_to_set l : gset nat) ≤ length l)%nat.
Proof.
  induction l as [|x l IH]; [done|]. cbn [list_to_set length].
  destruct (decide (x ∈ (list_to_set l : gset nat))) as [Hin|Hin].
  - rewrite union_singleton_elem by done. lia.
  - rewrite size_union by by apply disjoint_singleton_l.
    rewrite size_singleton. lia.
Qed.

Lemma size_list_to_set_NoDup (l : list nat) :
  size (list_to_set l : gset nat) = length l ↔ NoDup l.
Proof.
  split; [|apply size_list_to_set].
  induction l as [|x l IH]; [constructor|]. cbn [list_to_set length]. intros H.
  destruct (decide (x ∈ (list_to_set l : gset nat))) as [Hin|Hin].
  - rewrite union_singleton_elem in H by done.
    pose proof (size_list_to_set_le l). lia.
  - rewrite size_union, size_singleton in H by by apply disjoint_singleton_l.
    constructor; [by rewrite elem_of_list_to_set in Hin|]. apply IH. lia.
Qed.

Lemma _unique_nodes_ids ts : _unique_nodes ts = true ↔ NoDup (ids ts).
Proof.
  unfold _unique_nodes, node_set. rewrite bool_decide_eq_true.
  rewrite <- size_list_to_set_NoDup. unfold ids. by rewrite length_fmap.
Qed.

Lemma combinations_0 {A} (xs : list A) : combinations xs 0 = [[]].
Proof. by destruct xs. Qed.

Lemma combinations_S {A} (x : A) xs k :
  combinations (x :: xs) (S k)
  = ((x ::.) <$> combinations xs k) ++ combinations xs (S k).
Proof. done. Qed.

Lemma ids_sublist ts xs : sublist ts xs → ids ts ⊆ ids xs.
Proof.
  intros Hs i Hi. unfold ids in *.
  apply list_elem_of_fmap in Hi as (x & -> & Hx).
  apply list_elem_of_fmap. exists x. split; [done|].
  eapply sublist_subseteq; eauto.
Qed.

Lemma length_filter_ext_in {A} (P Q : A → Prop)
    `{∀ x, Decision (P x)} `{∀ x, Decision (Q x)} (xs : list A) :
  (∀ x, x ∈ xs → (Q x ↔ P x)) →
  length (filter Q xs) = length (filter P xs).
Proof.
  intros Hext. rewrite (length_filter_fmap id P Q xs) by done.
  by rewrite list_fmap_id.
Qed.

Lemma length_filter_none {A} (P : A → Prop) `{∀ x, Decision (P x)} (xs : list A) :
  (∀ x, x ∈ xs → ¬ P x) → length (filter P xs) = 0%nat.
Proof.
  intros Hn. destruct (filter P xs) as [|y ys] eqn:Hf; [done|].
  assert (y ∈ filter P xs) as Hy by (rewrite Hf; left).
  apply list_elem_of_filter in Hy as [Hy Hin]. by destruct (Hn y Hin).
Qed.

(** No combination of more records than there are nodes names every node
    once. *)
Lemma no_unique_combination (xs : list record) k :
  (size (node_set xs) < k)%nat →
  length (filter (λ ts, NoDup (ids ts)) (combinations xs k)) = 0%nat.
Proof.
  intros Hk. apply length_filter_none. intros ts Hts Hnd.
  apply combinations_sublist in Hts as [Hsub Hlen].
  pose proof (ids_sublist _ _ Hsub) as Hincl.
  assert (size (list_to_set (ids ts) : gset nat) ≤ size (node_set xs))%nat.
  { apply subseteq_size. intros i Hi. unfold node_set.
    apply elem_of_list_to_set. apply elem_of_list_to_set in Hi. by apply Hincl. }
  rewrite size_list_to_set in H by done. unfold ids in H.
  rewrite length_fmap in H. unfold record in *. lia.
Qed.

Lemma ids_paired refs i : i ∈ ids (paired refs) ↔ i ∈ ref_id <$> refs.
Proof.
  induction refs as [|r rs IH]; [done|].
  unfold paired in *. rewrite bind_cons. unfold ids in *.
  rewrite fmap_app, elem_of_app, IH. cbn [both_states fmap list_fmap compose fst].
  rewrite !elem_of_cons. split; [|tauto].
  intros [[->| [->|Hn]]|?]; auto. by apply elem_of_nil in Hn.
Qed.

Lemma node_set_paired refs :
  NoDup (ref_id <$> refs) → size (node_set (paired refs)) = length refs.
Proof.
  intros Hnd.
  assert (node_set (paired refs) = list_to_set (ref_id <$> refs)) as ->.
  { apply set_eq. intros i. unfold node_set.
    rewrite !elem_of_list_to_set. apply ids_paired. }
  rewrite size_list_to_set by done. by rewrite length_fmap.
Qed.

(** Of the combinations of as many records as there are ambiguous nodes,
    those that name every node once are the [2 ^ r] ways of choosing a
    state for each node. *)
Lemma unique_combinations_count refs :
  NoDup (ref_id <$> refs) →
  length (filter (λ ts, NoDup (ids ts)) (combinations (paired refs) (length refs)))
  = (2 ^ length refs)%nat.
Proof.
  induction refs as [|r rs IH]; [done|].
  intros [Hr Hrs]%NoDup_cons. specialize (IH Hrs).
  change (paired (r :: rs)) with ((r, 0) :: (r, 1) :: paired rs).
  cbn [length]. set (k := length rs) in *. set (P := paired rs) in *.
  assert (Hfree : ∀ ts j, ts ∈ combinations P j → ref_id r ∉ ids ts).
  { intros ts j [Hsub _]%combinations_sublist Hin.
    apply ids_sublist in Hsub. apply Hsub, ids_paired in Hin. done. }
  (* the combinations of [P] that take a record of [r] in front *)
  assert (Hcons : ∀ v j,
    length (filter (λ ts, NoDup (ids ts)) (((r, v) ::.) <$> combinations P j))
    = length (filter (λ ts, NoDup (ids ts)) (combinations P j))).
  { intros v j.
    rewrite <- (length_filter_fmap ((r, v) ::.) (λ ts, NoDup (ids ts))
                  (λ ts, NoDup (ids ts)) (combinations P j)); [done|].
    intros ts Hts. unfold ids. cbn [fmap list_fmap compose fst].
    rewrite NoDup_cons. specialize (Hfree ts j Hts). unfold ids in Hfree. tauto. }
  (* those that leave [r] out although a record of [r] is on offer *)
  assert (Hskip : ∀ j,
    length (filter (λ ts, NoDup (ids ts) ∧ ref_id r ∉ ids ts)
              (combinations ((r, 1) :: P) j))
    = length (filter (λ ts, NoDup (ids ts)) (combinations P j))).
  { intros [|j].
    - by rewrite !combinations_0.
    - rewrite combinations_S, filter_app, length_app.
      rewrite (length_filter_none _ (((r, 1) ::.) <$> _)).
      2:{ intros ts Hts [_ Hn]. apply list_elem_of_fmap in Hts as (ts' & -> & _).
          apply Hn. unfold ids. cbn. left. }
      cbn [Nat.add]. apply length_filter_ext_in.
      intros ts Hts. specialize (Hfree ts _ Hts). tauto. }
  rewrite combinations_S, filter_app, length_app.
  rewrite <- (length_filter_fmap ((r, 0) ::.) (λ ts, NoDup (ids ts))
                (λ ts, NoDup (ids ts) ∧ ref_id r ∉ ids ts)).
  2:{ intros ts _. unfold ids. cbn [fmap list_fmap compose fst].
      rewrite NoDup_cons. tauto. }
  rewrite Hskip, combinations_S, filter_app, length_app, Hcons.
  rewrite (no_unique_combination P (S k)).
  2:{ unfold P, k. rewrite node_set_paired by done. lia. }
  rewrite IH. cbn [Nat.pow]. lia.
Qed.

Lemma pass2_ok_inv t t2 amb :
  _fitch_pass2 t = Ok (t2, amb) →
  without_inner_states t2 = without_inner_states t
  ∧ state t2 = state t
  ∧ inner_stated t
  ∧ ∃ refs, amb = paired refs ∧ NoDup (ref_id <$> refs).
Proof.
  unfold _fitch_pass2. intros H.
  destruct (pass2_visit None t 0 []) as [[[t' pos'] amb']|] eqn:Hv; [|done].
  cbn [mbind result_bind] in H. injection H as <- <-.
  pose proof (pass2_visit_inv _ _ _ _ _ _ _ Hv) as (_ & Hw & Hin & refs & -> & _ & Hnd).
  split; [done|]. split; [|split; [done|by exists refs]].
  rewrite pass2_visit_unfold in Hv.
  destruct (children t) as [|c cs] eqn:Hcs; [injection Hv as <- ? ?; done|].
  destruct (pass2_node None t 0 []) as [[st amb1]|] eqn:Hn; [|done].
  cbn [mbind result_bind] in Hv.
  destruct (pass2_each st (c :: cs) 1 amb1) as [[[cs' pos2] amb2]|]; [|done].
  cbn [mbind result_bind] in Hv. injection Hv as <- ? ?. cbn [state].
  apply pass2_node_inv in Hn as (_ & Hst & _). symmetry. by apply Hst.
Qed.

(** ** [_fitch] case by case *)

Lemma is_leaf_after_pass2 mra t : is_leaf (after_pass2 mra t) = is_leaf t.
Proof. by destruct t as [n d s o g l [|c cs]]. Qed.

Lemma get_leaf_names_unfold t :
  get_leaf_names t
  = if is_leaf t then [name t] else concat (get_leaf_names <$> children t).
Proof.
  unfold get_leaf_names. rewrite get_leaves_unfold.
  destruct (is_leaf t); [done|].
  induction (children t) as [|c cs IH]; [done|].
  cbn [fmap list_fmap concat]. rewrite fmap_app. f_equal. exact IH.
Qed.

Lemma get_leaf_names_after_pass2 t :
  ∀ mra, get_leaf_names (after_pass2 mra t) = get_leaf_names t.
Proof.
  induction t as [n d s o g l cs IH] using Tree_ind'. intros mra.
  rewrite (get_leaf_names_unfold (after_pass2 _ _)), is_leaf_after_pass2,
    name_after_pass2, after_pass2_children,
    (get_leaf_names_unfold (TreeNode _ _ _ _ _ _ _)).
  destruct (is_leaf _); [done|]. f_equal. cbn [children].
  rewrite <- list_fmap_compose. apply Forall_fmap_ext.
  eapply Forall_impl; [exact IH|]. intros x Hx. apply Hx.
Qed.

Lemma name_count_names t nm :
  name_count t nm = length (filter (λ x, x = nm) (name <$> traverse t)).
Proof. unfold name_count. by apply length_filter_fmap. Qed.

Lemma name_count_after_pass2 t nm :
  name_count (after_pass2 None t) nm = name_count t nm.
Proof.
  rewrite !name_count_names.
  destruct (after_pass2_keeps t None) as (_ & _ & _ & _ & ->). done.
Qed.

Lemma unique_leaf_names_after_pass2 t :
  unique_leaf_names (after_pass2 None t) ↔ unique_leaf_names t.
Proof.
  unfold unique_leaf_names. rewrite get_leaf_names_after_pass2.
  apply Forall_proper; [|done]. intros nm. by rewrite name_count_after_pass2.
Qed.

(** The origin veto on the working tree of a valid input. *)
Lemma origin_veto_spec t trees :
  valid t = true →
  origin_veto (after_pass2 None t) trees
  = if decide (unique_leaf_names t)
    then Ok (if decide (fset t = singleton 1) then [] else trees)
    else Raise TreeError.
Proof.
  intros Hv. unfold origin_veto.
  destruct (first_branching_state t Hv None ltac:(by left)) as [H1 H2].
  destruct (decide (unique_leaf_names t)) as [Hu|Hu].
  - assert (∃ p, _get_pseudo_root (after_pass2 None t) = Ok p) as [p Hp].
    { unfold _get_pseudo_root, get_common_ancestor.
      rewrite bool_decide_eq_true_2 by by apply unique_leaf_names_after_pass2.
      destruct (get_leaf_names _) as [|? [|? ?]]; eauto. }
    rewrite Hp. cbn [mbind result_bind]. unfold get_state.
    rewrite (pseudo_root_state t p Hv Hp), H2. cbn [mbind result_bind].
    destruct (decide (fset t = singleton 1)); done.
  - unfold _get_pseudo_root, get_common_ancestor.
    rewrite bool_decide_eq_false_2; [done|].
    intros H. by apply Hu, unique_leaf_names_after_pass2.
Qed.

(** [_fitch] on a valid tree, case by case. *)
Lemma _fitch_cases t :
  valid t = true →
  _fitch t =
  if too_ambiguous t then Ok (after_pass2 None t, (unions t, []))
  else if decide (unique_leaf_names t)
  then Ok (after_pass2 None t,
           (unions t, if decide (fset t = singleton 1) then [] else candidates t))
  else Raise TreeError.
Proof.
  intros Hv. rewrite (_fitch_spec t Hv). cbv zeta.
  unfold too_ambiguous, candidates.
  destruct (ambiguous None t 0) as [|rec amb] eqn:Hamb.
  - change (10 <? size (node_set []))%nat with false. cbv iota.
    rewrite origin_veto_spec by done.
    destruct (decide (unique_leaf_names t)); done.
  - destruct (10 <? size (node_set (rec :: amb)))%nat; [done|].
    rewrite origin_veto_spec by done.
    destruct (decide (unique_leaf_names t)); done.
Qed.

Lemma elem_of_candidates t e :
  valid t = true → e ∈ candidates t →
  (ambiguous None t 0 = [] ∧ e = marked (after_pass2 None t) false false)
  ∨ (∃ ts, ts ∈ combinations (ambiguous None t 0)
                  (size (node_set (ambiguous None t 0)))
          ∧ ambiguous None t 0 ≠ []
          ∧ binary (name_states ts)
          ∧ resolved (name_states ts) (after_pass2 None t) = true
          ∧ candidate_total (name_states ts) (after_pass2 None t) = unions t
          ∧ e = annotate (name_states ts)
                  (candidate_changes (name_states ts) (after_pass2 None t))
                  (after_pass2 None t)).
Proof.
  intros Hv. unfold candidates.
  destruct (ambiguous None t 0) as [|rec amb] eqn:Hamb.
  - intros ->%list_elem_of_singleton. by left.
  - intros (l & Hl & He)%elem_of_concat. right.
    apply list_elem_of_fmap in Hl as (ts & -> & Hts).
    apply elem_of_accepted in He as (Hu & Htot & ->).
    rewrite <- Hamb in Hts.
    destruct (candidates_resolved t ts Hv Hts Hu) as [Hb Hr].
    exists ts. rewrite Hamb in Hts. done.
Qed.

(** What [_fitch] returns on a valid tree is a list of candidates. *)
Lemma returned_candidates t w mc trees e :
  valid t = true → _fitch t = Ok (w, (mc, trees)) → e ∈ trees →
  e ∈ candidates t ∧ unique_leaf_names t ∧ fset t ≠ singleton 1.
Proof.
  intros Hv H He. rewrite (_fitch_cases t Hv) in H.
  destruct (too_ambiguous t).
  { injection H as <- <- <-. by apply elem_of_nil in He. }
  destruct (decide (unique_leaf_names t)); [|done].
  destruct (decide (fset t = singleton 1)).
  { injection H as <- <- <-. by apply elem_of_nil in He. }
  injection H as <- <- <-. done.
Qed.

Lemma dist_after_pass2 mra t : dist (after_pass2 mra t) = dist t.
Proof. by destruct t as [n d s o g l [|c cs]]. Qed.

Lemma shape_of_after_pass2 t : ∀ mra, shape_of (after_pass2 mra t) = shape_of t.
Proof.
  induction t as [n d s o g l cs IH] using Tree_ind'. intros mra.
  rewrite (shape_of_unfold (after_pass2 _ _)), name_after_pass2, dist_after_pass2,
    after_pass2_children, (shape_of_unfold (TreeNode _ _ _ _ _ _ _)).
  f_equal. cbn [children]. rewrite <- list_fmap_compose.
  apply Forall_fmap_ext. eapply Forall_impl; [exact IH|]. intros x Hx. apply Hx.
Qed.

Lemma shape_of_annotate ns ch u : shape_of (annotate ns ch u) = shape_of u.
Proof.
  induction u as [n d s o g l cs IH] using Tree_ind'.
  rewrite annotate_unfold, !shape_of_unfold. cbn [name dist children].
  f_equal. rewrite <- list_fmap_compose. by apply Forall_fmap_ext.
Qed.

Lemma shape_of_marked u : ∀ g l, shape_of (marked u g l) = shape_of u.
Proof.
  induction u as [n d s o g0 l0 cs IH] using Tree_ind'. intros g l.
  rewrite marked_unfold, !shape_of_unfold. cbn [name dist children].
  f_equal. rewrite <- list_fmap_compose.
  apply Forall_fmap_ext. eapply Forall_impl; [exact IH|]. intros x Hx. apply Hx.
Qed.

Lemma resolved_fully e : resolved ∅ e = true → fully_resolved e.
Proof.
  induction e as [n d s o g l cs IH] using Tree_ind'.
  intros [Hr Hcs]%resolved_unfold m Hm.
  rewrite traverse_unfold in Hm. apply elem_of_cons in Hm as [->|Hm].
  - unfold resolvable in Hr. rewrite lookup_empty in Hr.
    by apply bool_decide_eq_true in Hr.
  - apply elem_of_concat in Hm as (l' & Hl & Hm).
    apply list_elem_of_fmap in Hl as (c & -> & Hc). cbn [children] in *.
    rewrite Forall_forall in IH, Hcs. by apply (IH c Hc (Hcs c Hc)).
Qed.

Lemma resolved_eq ns u :
  resolved ns u = resolvable ns u && forallb (resolved ns) (children u).
Proof. by destruct u. Qed.

Lemma resolved_marked u : ∀ g l, resolved ∅ (marked u g l) = resolved ∅ u.
Proof.
  induction u as [n d s o g0 l0 cs IH] using Tree_ind'. intros g l.
  rewrite marked_unfold, !resolved_eq. cbn [children]. f_equal.
  apply (forallb_fmap_ext (resolved ∅)).
  eapply Forall_impl; [exact IH|]. intros x Hx. apply Hx.
Qed.

Lemma leaf_states_after_pass2 t : ∀ mra, leaf_states (after_pass2 mra t) = leaf_states t.
Proof.
  induction t as [n d s o g l cs IH] using Tree_ind'. intros mra.
  rewrite (leaf_states_unfold (after_pass2 _ _)), is_leaf_after_pass2,
    (leaf_states_unfold (TreeNode _ _ _ _ _ _ _)).
  destruct cs as [|c cs]; [done|].
  rewrite after_pass2_children. cbn [is_leaf children].
  f_equal. rewrite <- list_fmap_compose.
  apply Forall_fmap_ext. eapply Forall_impl; [exact IH|]. intros x Hx. apply Hx.
Qed.

Lemma is_leaf_marked u g l : is_leaf (marked u g l) = is_leaf u.
Proof. by destruct u as [n d s o g0 l0 [|c cs]]. Qed.

Lemma name_marked u g l : name (marked u g l) = name u.
Proof. by destruct u. Qed.

Lemma state_marked u g l : state (marked u g l) = state u.
Proof. by destruct u. Qed.

Lemma leaf_states_marked u : ∀ g l, leaf_states (marked u g l) = leaf_states u.
Proof.
  induction u as [n d s o g0 l0 cs IH] using Tree_ind'. intros g l.
  rewrite (leaf_states_unfold (marked _ _ _)), is_leaf_marked, name_marked,
    state_marked, children_marked, (leaf_states_unfold (TreeNode _ _ _ _ _ _ _)).
  destruct (is_leaf _); [done|]. cbn [children].
  f_equal. rewrite <- list_fmap_compose.
  apply Forall_fmap_ext. eapply Forall_impl; [exact IH|]. intros x Hx. apply Hx.
Qed.

Lemma is_leaf_annotate ns ch u : is_leaf (annotate ns ch u) = is_leaf u.
Proof. by destruct u as [n d s o g0 l0 [|c cs]]. Qed.

Lemma name_annotate ns ch u : name (annotate ns ch u) = name u.
Proof. by destruct u. Qed.

Lemma state_annotate ns ch u :
  state (annotate ns ch u)
  = match ns !! name u with Some v => Some (singleton v) | None => state u end.
Proof. by destruct u. Qed.

Lemma children_annotate ns ch u :
  children (annotate ns ch u) = annotate ns ch <$> children u.
Proof. by destruct u. Qed.

Lemma leaf_states_annotate ns ch u :
  (∀ n, n ∈ traverse u → children n = [] → ns !! name n = None) →
  leaf_states (annotate ns ch u) = leaf_states u.
Proof.
  induction u as [n d s o g l cs IH] using Tree_ind'. intros Hfree.
  rewrite (leaf_states_unfold (annotate _ _ _)), is_leaf_annotate, name_annotate,
    state_annotate, children_annotate, (leaf_states_unfold (TreeNode _ _ _ _ _ _ _)).
  destruct cs as [|c cs].
  { pose proof (Hfree (TreeNode n d s o g l [])
                  ltac:(rewrite traverse_unfold; left) eq_refl) as Hn.
    cbn [is_leaf children name state] in *. by rewrite Hn. }
  cbn [is_leaf children].
  f_equal. rewrite <- list_fmap_compose.
  apply Forall_fmap_ext. rewrite Forall_forall in IH. apply Forall_forall.
  intros x Hx. apply (IH x Hx). intros m Hm. apply Hfree.
  rewrite traverse_unfold. right. apply elem_of_concat.
  exists (traverse x). split; [|done]. apply list_elem_of_fmap. by exists x.
Qed.

Lemma length_accepted u mc ts :
  (length (accepted u mc ts) ≤ if _unique_nodes ts then 1 else 0)%nat.
Proof.
  unfold accepted. destruct (_unique_nodes ts); [|cbn; lia].
  cbn [andb]. destruct (_ =? _); cbn; lia.
Qed.

Lemma length_accepted_all u mc css :
  (length (concat (accepted u mc <$> css))
   ≤ length (filter (λ ts, _unique_nodes ts = true) css))%nat.
Proof.
  induction css as [|ts css IH]; [done|].
  cbn [fmap list_fmap concat]. rewrite length_app, filter_cons.
  pose proof (length_accepted u mc ts) as Hl.
  destruct (decide (_unique_nodes ts = true)) as [Hu|Hu].
  - rewrite Hu in Hl. cbn [length]. lia.
  - apply not_true_is_false in Hu. rewrite Hu in Hl. lia.
Qed.

(** ** Flags along the edges *)

Lemma edges_unfold t :
  edges t = ((λ c, (t, c)) <$> children t) ++ concat (edges <$> children t).
Proof. by destruct t. Qed.

Lemma concat_fmap_fmap {A B C} (f : B → C) (g : A → list B) (xs : list A) :
  f <$> concat (g <$> xs) = concat ((λ x, f <$> g x) <$> xs).
Proof.
  induction xs as [|x xs IH]; [done|].
  cbn [fmap list_fmap concat]. rewrite fmap_app. f_equal. exact IH.
Qed.

Lemma concat_fmap_ext {A B} (f g : A → list B) (xs : list A) :
  Forall (λ x, f x = g x) xs → concat (f <$> xs) = concat (g <$> xs).
Proof. intros H. f_equal. by apply Forall_fmap_ext. Qed.

(** The lower ends of the edges are the nodes below the root. *)
Lemma snd_edges t : snd <$> edges t ≡ₚ concat (traverse <$> children t).
Proof.
  induction t as [n d s o g l cs IH] using Tree_ind'.
  rewrite edges_unfold, fmap_app, <- list_fmap_compose. cbn [children].
  change (snd ∘ (λ c, (TreeNode n d s o g l cs, c))) with (@id Tree).
  rewrite list_fmap_id, concat_fmap_fmap.
  clear -IH. induction IH as [|c cs Hc _ IHcs]; [done|].
  cbn [fmap list_fmap concat].
  rewrite (traverse_unfold c). cbn [app].
  constructor. rewrite Hc, <- IHcs.
  rewrite !app_assoc. f_equiv. apply Permutation_app_comm.
Qed.

Lemma edge_ends t p c : (p, c) ∈ edges t → p ∈ traverse t ∧ c ∈ traverse t.
Proof.
  induction t as [n d s o g l cs IH] using Tree_ind'.
  rewrite edges_unfold, elem_of_app. cbn [children]. intros [H|H].
  - apply list_elem_of_fmap in H as (c' & [= -> ->] & Hc).
    rewrite traverse_unfold. split; [left|]. right.
    apply elem_of_concat. exists (traverse c'). split.
    + apply list_elem_of_fmap. by exists c'.
    + rewrite traverse_unfold. left.
  - apply elem_of_concat in H as (l' & Hl & H).
    apply list_elem_of_fmap in Hl as (c' & -> & Hc).
    rewrite Forall_forall in IH. destruct (IH c' Hc H) as [Hp Hc'].
    rewrite (traverse_unfold (TreeNode _ _ _ _ _ _ _)). cbn [children].
    split; right; apply elem_of_concat; exists (traverse c');
      (split; [apply list_elem_of_fmap; by exists c' | done]).
Qed.

Lemma edges_annotate ns ch u :
  edges (annotate ns ch u)
  = (λ pc, (annotate ns ch pc.1, annotate ns ch pc.2)) <$> edges u.
Proof.
  induction u as [n d s o g l cs IH] using Tree_ind'.
  rewrite (edges_unfold (annotate _ _ _)), children_annotate,
    (edges_unfold (TreeNode _ _ _ _ _ _ _)), fmap_app.
  cbn [children]. rewrite <- !list_fmap_compose. f_equal.
  rewrite concat_fmap_fmap. apply concat_fmap_ext.
  eapply Forall_impl; [exact IH|]. intros x Hx. exact Hx.
Qed.

Lemma named_events_edges edge ns u :
  named_events edge ns u
  = (name ∘ snd)
      <$> filter (λ pc, edge (label ns pc.1) (label ns pc.2) = true) (edges u).
Proof.
  induction u as [n d s o g l cs IH] using Tree_ind'.
  rewrite named_events_unfold, edges_unfold, filter_app, fmap_app.
  cbn [children]. f_equal.
  - generalize (TreeNode n d s o g l cs). intros t. clear.
    induction cs as [|c cs IH]; [done|].
    cbn [fmap list_fmap]. rewrite !filter_cons. cbn [fst snd].
    destruct (decide (edge (label ns t) (label ns c) = true)).
    + cbn [fmap list_fmap compose snd]. f_equal. exact IH.
    + exact IH.
  - rewrite filter_concat, <- list_fmap_compose, concat_fmap_fmap.
    apply concat_fmap_ext.
    eapply Forall_impl; [exact IH|]. intros x Hx. exact Hx.
Qed.

Lemma NoDup_fmap_eq {A B} (f : A → B) (l : list A) x y :
  NoDup (f <$> l) → x ∈ l → y ∈ l → f x = f y → x = y.
Proof.
  intros Hnd Hx Hy Heq.
  apply list_elem_of_lookup in Hx as [i Hi].
  apply list_elem_of_lookup in Hy as [j Hj].
  assert (i = j) as ->.
  { apply (proj1 (NoDup_alt (f <$> l)) Hnd i j (f x)).
    - by rewrite list_lookup_fmap, Hi.
    - by rewrite list_lookup_fmap, Hj, Heq. }
  congruence.
Qed.

(** With pairwise distinct names, an edge is known by the name of its
    lower end. *)
Lemma NoDup_edge_names u :
  NoDup (name <$> traverse u) → NoDup ((name ∘ snd) <$> edges u).
Proof.
  rewrite traverse_unfold. cbn [fmap list_fmap]. intros [_ Hnd]%NoDup_cons.
  rewrite list_fmap_compose. by rewrite snd_edges.
Qed.

(** With pairwise distinct names, the name of a node is among the events
    exactly when the edge above the node counts. *)
Lemma edge_named edge ns u p c :
  NoDup (name <$> traverse u) → (p, c) ∈ edges u →
  name c ∈ named_events edge ns u ↔ edge (label ns p) (label ns c) = true.
Proof.
  intros Hnd Hpc. rewrite named_events_edges. split.
  - intros (pc' & Hn & Hin)%list_elem_of_fmap.
    apply list_elem_of_filter in Hin as [He Hin].
    assert (pc' = (p, c)) as ->; [|done].
    apply (NoDup_fmap_eq (name ∘ snd) (edges u)); auto using NoDup_edge_names.
  - intros He. apply list_elem_of_fmap. exists (p, c). split; [done|].
    by apply list_elem_of_filter.
Qed.

Lemma resolved_traverse ns u :
  resolved ns u = true → ∀ n, n ∈ traverse u → resolvable ns n = true.
Proof.
  induction u as [n d s o g l cs IH] using Tree_ind'.
  intros [Hr Hcs]%resolved_unfold m Hm.
  rewrite traverse_unfold in Hm. apply elem_of_cons in Hm as [->|Hm]; [done|].
  apply elem_of_concat in Hm as (l' & Hl & Hm).
  apply list_elem_of_fmap in Hl as (c & -> & Hc). cbn [children] in *.
  rewrite Forall_forall in IH, Hcs. by apply (IH c Hc (Hcs c Hc)).
Qed.

Lemma is_state_annotate ns ch u v :
  resolvable ns u = true → v = 0 ∨ v = 1 →
  is_state v (annotate ns ch u) = (label ns u =? v).
Proof.
  intros Hr Hv. destruct (label_annotate ns ch u Hr) as [Hr' Hl].
  by rewrite is_state_label, Hl.
Qed.

(** The flags of the copy made for a candidate that resolves the root to
    0, when names are pairwise distinct. *)
Lemma annotate_flags ns u :
  NoDup (name <$> traverse u) → resolved ns u = true → unflagged u = true →
  label ns u = 0 →
  flags_mark_transitions (annotate ns (candidate_changes ns u) u).
Proof.
  intros Hnd Hres Hun Hroot.
  assert (Hbelow : ∀ edge, name u ∉ named_events edge ns u).
  { intros edge Hin.
    pose proof (named_events_below edge ns u) as Hsub.
    rewrite traverse_unfold in Hnd. cbn [fmap list_fmap] in Hnd.
    apply NoDup_cons in Hnd as [Hnot _]. apply Hnot.
    eapply elem_of_submseteq; eauto. }
  assert (Hrg : root_gain ns true u = []).
  { unfold root_gain. rewrite Hroot. by rewrite andb_false_r. }
  assert (Hgain : ∀ n, n ∈ traverse u →
    gain (annotate ns (candidate_changes ns u) n) = bool_decide (name n ∈ gained ns u)).
  { intros n Hn. rewrite annotate_unfold. cbn [gain candidate_changes gains].
    rewrite Hrg. cbn [app]. destruct (unflagged_traverse u Hun n Hn) as [-> _].
    case_decide as Hd; rewrite elem_of_list_to_set in Hd.
    - by rewrite bool_decide_eq_true_2.
    - by rewrite bool_decide_eq_false_2. }
  assert (Hloss : ∀ n, n ∈ traverse u →
    loss (annotate ns (candidate_changes ns u) n) = bool_decide (name n ∈ lost ns u)).
  { intros n Hn. rewrite annotate_unfold. cbn [loss candidate_changes losses].
    destruct (unflagged_traverse u Hun n Hn) as [_ ->].
    case_decide as Hd; rewrite elem_of_list_to_set in Hd.
    - by rewrite bool_decide_eq_true_2.
    - by rewrite bool_decide_eq_false_2. }
  split; [|split].
  - rewrite Hgain by (rewrite traverse_unfold; left).
    apply bool_decide_eq_false_2, Hbelow.
  - rewrite Hloss by (rewrite traverse_unfold; left).
    apply bool_decide_eq_false_2, Hbelow.
  - intros p' c'. rewrite edges_annotate.
    intros ([p c] & [= -> ->] & Hpc)%list_elem_of_fmap. cbn [fst snd].
    destruct (edge_ends u p c Hpc) as [Hp Hc].
    pose proof (resolved_traverse ns u Hres p Hp) as Hrp.
    pose proof (resolved_traverse ns u Hres c Hc) as Hrc.
    rewrite (Hgain c Hc), (Hloss c Hc).
    rewrite !is_state_annotate by auto.
    change ((label ns p =? 0) && (label ns c =? 1))
      with (gain_edge (label ns p) (label ns c)).
    change ((label ns p =? 1) && (label ns c =? 0))
      with (loss_edge (label ns p) (label ns c)).
    pose proof (edge_named gain_edge ns u p c Hnd Hpc) as Hg.
    pose proof (edge_named loss_edge ns u p c Hnd Hpc) as Hl.
    fold (gained ns u) in Hg. fold (lost ns u) in Hl.
    split.
    + destruct (gain_edge _ _);
        [apply bool_decide_eq_true_2 | apply bool_decide_eq_false_2];
        rewrite Hg; done.
    + destruct (loss_edge _ _);
        [apply bool_decide_eq_true_2 | apply bool_decide_eq_false_2];
        rewrite Hl; done.
Qed.

Lemma edges_marked u :
  ∀ g l p' c', (p', c') ∈ edges (marked u g l) →
  ∃ p c gp lp,
    (p, c) ∈ edges u ∧ p' = marked p gp lp
    ∧ c' = marked c (if is_state 0 p && is_state 1 c then true else gain c)
                    (if is_state 1 p && is_state 0 c then true else loss c).
Proof.
  induction u as [n d s o g0 l0 cs IH] using Tree_ind'. intros g l p' c'.
  set (u := TreeNode n d s o g0 l0 cs) in *.
  rewrite (edges_unfold (marked _ _ _)), children_marked, elem_of_app.
  rewrite <- list_fmap_compose. intros [H|H].
  - apply list_elem_of_fmap in H as (c & [= -> ->] & Hc).
    exists u, c, g, l. split; [|done].
    rewrite edges_unfold. apply elem_of_app. left.
    apply list_elem_of_fmap. by exists c.
  - apply elem_of_concat in H as (l' & Hl & H).
    rewrite <- list_fmap_compose in Hl.
    apply list_elem_of_fmap in Hl as (c & -> & Hc).
    rewrite Forall_forall in IH. cbn [compose] in H.
    destruct (IH c Hc _ _ _ _ H) as (p & c0 & gp & lp & Hin & -> & ->).
    exists p, c0, gp, lp. split; [|done].
    rewrite edges_unfold. apply elem_of_app. right.
    apply elem_of_concat. exists (edges c). split; [|done].
    apply list_elem_of_fmap. by exists c.
Qed.

Lemma gain_marked u g l : gain (marked u g l) = g.
Proof. by destruct u. Qed.

Lemma loss_marked u g l : loss (marked u g l) = l.
Proof. by destruct u. Qed.

(** The flags of the copy made when nothing is ambiguous. *)
Lemma marked_flags u :
  unflagged u = true → flags_mark_transitions (marked u false false).
Proof.
  intros Hun. split; [apply gain_marked|]. split; [apply loss_marked|].
  intros p' c' (p & c & gp & lp & Hpc & -> & ->)%edges_marked.
  rewrite gain_marked, loss_marked, !is_state_marked.
  destruct (edge_ends u p c Hpc) as [_ Hc].
  destruct (unflagged_traverse u Hun c Hc) as [-> ->].
  split; by destruct (_ && _).
Qed.

(** ** Input in one state *)

Lemma uniform_valid v t : v = 0 ∨ v = 1 → uniform v t → valid t = true.
Proof.
  intros Hv01.
  induction t as [n d s o g l cs IH] using Tree_ind'. intros Hu.
  destruct cs as [|c cs].
  { specialize (Hu _ ltac:(rewrite traverse_unfold; left) eq_refl).
    cbn in *. subst s. apply bool_decide_eq_true_2.
    destruct Hv01 as [-> | ->]; auto. }
  set (t := TreeNode n d s o g l (c :: cs)) in *.
  change (forallb valid (c :: cs) = true).
  apply Is_true_true, forallb_True. rewrite Forall_forall in IH.
  apply Forall_forall. intros x Hx. apply Is_true_true, IH; [done|].
  by apply (uniform_child v t).
Qed.

Lemma len_singleton v : v = 0 ∨ v = 1 → len (singleton v) = 1.
Proof. by intros [-> | ->]. Qed.

Lemma traverse_after_pass2 mra t :
  traverse (after_pass2 mra t)
  = after_pass2 mra t
    :: concat (traverse <$> (after_pass2 (Some (final mra t)) <$> children t)).
Proof. by rewrite traverse_unfold, after_pass2_children. Qed.

(** When every leaf is in state [{v}], Pass 2 leaves every node in state
    [{v}] and finds no ambiguity. *)
Lemma uniform_pass2 v t :
  v = 0 ∨ v = 1 → uniform v t →
  ∀ mra pos, mra = None ∨ mra = Some (singleton v) →
    ambiguous mra t pos = [] ∧ quiet v (after_pass2 mra t).
Proof.
  intros Hv01.
  induction t as [n d s o g l cs IH] using Tree_ind'. intros Hu mra pos Hmra.
  destruct cs as [|c cs].
  { split; [done|]. intros m Hm. rewrite traverse_unfold in Hm. cbn in Hm.
    apply list_elem_of_singleton in Hm as ->. cbn.
    specialize (Hu _ ltac:(rewrite traverse_unfold; left) eq_refl).
    by cbn in Hu. }
  set (t := TreeNode n d s o g l (c :: cs)) in *.
  assert (Hne : children t ≠ []) by done.
  destruct (uniform_no_union v t Hv01 Hu) as [Hf _].
  assert (Hfin : final mra t = singleton v).
  { destruct Hmra as [-> | ->]; cbn [final]; [done|].
    unfold refined. by rewrite Hf, issubset_refl, set_and_idemp. }
  assert (Hcs : Forall (λ x, ∀ pos, ambiguous (Some (singleton v)) x pos = []
                              ∧ quiet v (after_pass2 (Some (singleton v)) x))
                  (children t)).
  { rewrite Forall_forall in IH. apply Forall_forall. intros x Hx pos'.
    apply IH; [done| |by right]. by apply (uniform_child v t). }
  split.
  - rewrite (ambiguous_inner mra t pos Hne), Hfin, len_singleton by done.
    cbn [Z.ltb Z.compare app].
    generalize (S pos). clear -Hcs. induction Hcs as [|x xs Hx _ IHxs]; [done|].
    intros k. cbn [ambiguous_each]. rewrite (proj1 (Hx k)). apply IHxs.
  - intros m Hm. rewrite traverse_after_pass2, Hfin in Hm.
    apply elem_of_cons in Hm as [->|Hm].
    { rewrite (after_pass2_inner mra t Hne), Hfin. done. }
    apply elem_of_concat in Hm as (l' & Hl & Hm).
    rewrite <- list_fmap_compose in Hl.
    apply list_elem_of_fmap in Hl as (x & -> & Hx).
    rewrite Forall_forall in Hcs. by apply (proj2 (Hcs x Hx 0%nat)).
Qed.

Lemma quiet_child v u c : quiet v u → c ∈ children u → quiet v c.
Proof.
  intros Hq Hc n Hn. apply Hq. rewrite traverse_unfold. right.
  apply elem_of_concat. exists (traverse c). split; [|done].
  apply list_elem_of_fmap. by exists c.
Qed.

(** Marking a tree whose nodes are all in the same state sets no flag. *)
Lemma quiet_marked v u : v = 0 ∨ v = 1 → quiet v u → quiet v (marked u false false).
Proof.
  intros Hv01.
  induction u as [n d s o g l cs IH] using Tree_ind'. intros Hq.
  set (u := TreeNode n d s o g l cs) in *.
  intros m Hm. rewrite traverse_unfold, children_marked in Hm.
  apply elem_of_cons in Hm as [->|Hm].
  { destruct (Hq u ltac:(rewrite traverse_unfold; left)) as (Hs & _ & _).
    by rewrite state_marked, gain_marked, loss_marked. }
  apply elem_of_concat in Hm as (l' & Hl & Hm).
  rewrite <- list_fmap_compose in Hl.
  apply list_elem_of_fmap in Hl as (c & -> & Hc). cbn [compose] in Hm.
  pose proof (quiet_child v u c Hq Hc) as Hqc.
  destruct (Hqc c ltac:(rewrite traverse_unfold; left)) as (Hsc & Hgc & Hlc).
  destruct (Hq u ltac:(rewrite traverse_unfold; left)) as (Hsu & _ & _).
  assert (Hex : is_state 0 c && is_state 1 c = false) by apply is_state_exclusive.
  assert (Hsame : ∀ w, is_state w c = is_state w u).
  { intros w. unfold is_state. by rewrite Hsc, Hsu. }
  rewrite Hgc, Hlc in Hm.
  rewrite <- (Hsame 0), <- (Hsame 1) in Hm.
  rewrite Hex, (andb_comm (is_state 1 c)), Hex in Hm.
  rewrite Forall_forall in IH. by apply (IH c Hc Hqc).
Qed.

Lemma too_ambiguous_nil t : ambiguous None t 0 = [] → too_ambiguous t = false.
Proof. unfold too_ambiguous. by intros ->. Qed.

(** ** The dictionary of [get_node_age] *)

Lemma postorder_unfold t :
  postorder t = concat (postorder <$> children t) ++ [t].
Proof. by destruct t. Qed.

Lemma node_age_each_last cs :
  Forall (λ c, ∀ m nm,
    node_age_visit c m !! nm
    = match last (filter (λ n, name n = nm) (postorder c)) with
      | Some n => Some (age_entry n)
      | None => m !! nm
      end) cs →
  ∀ m nm,
    node_age_each cs m !! nm
    = match last (filter (λ n, name n = nm) (concat (postorder <$> cs))) with
      | Some n => Some (age_entry n)
      | None => m !! nm
      end.
Proof.
  induction 1 as [|c cs Hc _ IH]; intros m nm; [done|].
  cbn [node_age_each fmap list_fmap concat].
  rewrite IH, Hc, filter_app, last_app.
  by destruct (last (filter _ (concat _))).
Qed.

(** What a visit leaves under a name: the entry of the last node of that
    name it has visited, or what was there before. *)
Lemma node_age_visit_last t :
  ∀ m nm,
    node_age_visit t m !! nm
    = match last (filter (λ n, name n = nm) (postorder t)) with
      | Some n => Some (age_entry n)
      | None => m !! nm
      end.
Proof.
  induction t as [n d s o g l cs IH] using Tree_ind'. intros m nm.
  set (t := TreeNode n d s o g l cs) in *.
  rewrite node_age_visit_unfold, postorder_unfold, filter_app, last_app.
  cbn [children t]. fold t.
  rewrite filter_cons, filter_nil.
  destruct (decide (name t = nm)) as [<-|Hne].
  { by rewrite lookup_insert_eq. }
  rewrite lookup_insert_ne by done. cbn [last].
  by apply node_age_each_last.
Qed.

Lemma postorder_perm t : postorder t ≡ₚ traverse t.
Proof.
  induction t as [n d s o g l cs IH] using Tree_ind'.
  rewrite postorder_unfold, traverse_unfold. cbn [children].
  rewrite Permutation_app_comm. cbn [app]. constructor.
  clear -IH. induction IH as [|c cs Hc _ IHcs]; [done|].
  cbn [fmap list_fmap concat]. by rewrite Hc, IHcs.
Qed.




(** ** The loop of [viz] *)

Lemma viz_node_raises n e : viz_node n = Raise e → e = AttributeError.
Proof.
  unfold viz_node, get_state. destruct (state n); [|destruct (is_leaf n)]; cbn.
  - by destruct (is_leaf n).
  - by intros [= <-].
  - by intros [= <-].
Qed.

Lemma viz_node_stated n st :
  state n = Some st →
  viz_node n
  = Ok (Decoration
          (if is_leaf n then [NameFace (name n); StateFace st] else [])
          (if gain n then Some ori_node_style
           else if decide (st = singleton 1) then Some pos_node_style else None)).
Proof. unfold viz_node, get_state. intros ->. by destruct (is_leaf n). Qed.

Lemma comprehension_ok {A B} (f : A → result B) (g : A → B) (xs : list A) :
  (∀ x, x ∈ xs → f x = Ok (g x)) → comprehension f xs = Ok (g <$> xs).
Proof.
  induction xs as [|x xs IH]; intros H; [done|].
  cbn [comprehension fmap list_fmap]. rewrite (H x) by left.
  cbn [mbind result_bind]. rewrite IH; [done|]. intros y Hy. apply H. by right.
Qed.

Lemma comprehension_raises {A B} (f : A → result B) (xs : list A) (e : exn) :
  (∀ x e', f x = Raise e' → e' = e) →
  (∃ x, x ∈ xs ∧ ∃ e', f x = Raise e') →
  comprehension f xs = Raise e.
Proof.
  intros Honly. induction xs as [|x xs IH]; intros (y & Hy & e' & He').
  { by apply elem_of_nil in Hy. }
  cbn [comprehension].
  destruct (f x) as [b|e1] eqn:Hfx; cbn [mbind result_bind].
  - rewrite IH; [done|]. apply elem_of_cons in Hy as [->|Hy]; [congruence|].
    exists y. eauto.
  - f_equal. by apply (Honly x).
Qed.

(** ** The dictionary of a candidate *)

Lemma name_states_last_from (ts : list record) :
  ∀ (d : gmap string Z) nm,
    foldl (λ d '(node, state), <[ref_name node := state]> d) d ts !! nm
    = match last (filter (λ rec, ref_name rec.1 = nm) ts) with
      | Some rec => Some rec.2
      | None => d !! nm
      end.
Proof.
  induction ts as [|[r v] ts IH]; intros d nm; [done|].
  cbn [foldl]. rewrite IH, filter_cons. cbn [fst].
  destruct (decide (ref_name r = nm)) as [<-|Hne].
  - rewrite last_cons, lookup_insert_eq. by destruct (last _).
  - by rewrite lookup_insert_ne.
Qed.

(** ** Nodes marked ['∪'] *)

Lemma some_has0 (l : list stateset) :
  Forall (λ x, truthy x = true) l → forallb has1 l = false →
  existsb has0 l = true.
Proof.
  induction 1 as [|x xs Hx _ IH]; [done|]. cbn [forallb existsb].
  unfold truthy in Hx. destruct (has1 x); cbn [andb].
  - intros H. rewrite (IH H). apply orb_true_r.
  - intros _. rewrite orb_false_r in Hx. by rewrite Hx.
Qed.

Lemma some_has1 (l : list stateset) :
  Forall (λ x, truthy x = true) l → forallb has0 l = false →
  existsb has1 l = true.
Proof.
  induction 1 as [|x xs Hx _ IH]; [done|]. cbn [forallb existsb].
  unfold truthy in Hx. destruct (has0 x); cbn [andb].
  - intros H. rewrite (IH H). apply orb_true_r.
  - intros _. cbn in Hx. by rewrite Hx.
Qed.

(** Sets that are not empty and share no state hold both states between
    them. *)
Lemma disjoint_union_full s ss :
  Forall (λ x, truthy x = true) (s :: ss) →
  truthy (set_intersection s ss) = false →
  set_union s ss = StateSet true true.
Proof.
  intros Hne Hdis.
  unfold truthy in Hdis. apply orb_false_iff in Hdis as [Hd0 Hd1].
  rewrite has0_set_intersection in Hd0. rewrite has1_set_intersection in Hd1.
  pose proof (some_has0 (s :: ss) Hne Hd1) as H0.
  pose proof (some_has1 (s :: ss) Hne Hd0) as H1.
  cbn [existsb] in H0, H1.
  rewrite <- has0_set_union in H0. rewrite <- has1_set_union in H1.
  destruct (set_union s ss) as [a b]. cbn in H0, H1. by subst.
Qed.

Lemma valid_subtree t n : valid t = true → n ∈ traverse t → valid n = true.
Proof.
  induction t as [nm d s o g l cs IH] using Tree_ind'. intros Hv Hn.
  rewrite traverse_unfold in Hn. apply elem_of_cons in Hn as [->|Hn]; [done|].
  apply elem_of_concat in Hn as (l' & Hl & Hn).
  apply list_elem_of_fmap in Hl as (c & -> & Hc). cbn [children] in Hc.
  destruct cs as [|c0 cs]; [by apply elem_of_nil in Hc|].
  pose proof (valid_children _ Hv ltac:(done)) as Hcs. cbn [children] in Hcs.
  rewrite Forall_forall in IH, Hcs. by apply (IH c Hc (Hcs c Hc)).
Qed.

(** On a valid tree a node whose children share no state has both states
    in its Fitch set. *)
Lemma fset_union_node t :
  valid t = true → children t ≠ [] → truthy (shared_of t) = false →
  fset t = StateSet true true.
Proof.
  intros Hv Hne Hsh. pose proof (valid_children _ Hv Hne) as Hcs.
  destruct t as [n d s o g l [|c cs]]; [done|].
  unfold shared_of in Hsh. cbn [children] in *. cbn [fset children].
  rewrite Hsh. apply disjoint_union_full; [|done].
  change (fset c :: (fset <$> cs)) with (fset <$> (c :: cs)).
  apply Forall_fmap. eapply Forall_impl; [exact Hcs|].
  intros x Hx. by apply truthy_fset.
Qed.

Lemma traverse_after_pass1 t :
  traverse (after_pass1 t) = after_pass1 <$> traverse t.
Proof.
  induction t as [n d s o g l cs IH] using Tree_ind'.
  rewrite (traverse_unfold (after_pass1 _)), children_after_pass1,
    (traverse_unfold (TreeNode _ _ _ _ _ _ _)).
  cbn [fmap list_fmap children]. f_equal.
  rewrite <- list_fmap_compose, concat_fmap_fmap.
  apply concat_fmap_ext. eapply Forall_impl; [exact IH|]. intros x Hx. exact Hx.
Qed.

Lemma operation_after_pass1 t :
  children t ≠ [] →
  operation (after_pass1 t) = Some (if truthy (shared_of t) then Inter else Union).
Proof. intros Hne. by rewrite (after_pass1_inner t Hne). Qed.

Lemma state_after_pass1 t :
  children t ≠ [] → state (after_pass1 t) = Some (fset t).
Proof. intros Hne. by rewrite (after_pass1_inner t Hne). Qed.

Lemma children_after_pass1_nil t : children (after_pass1 t) ≠ [] ↔ children t ≠ [].
Proof. rewrite children_after_pass1. by destruct (children t). Qed.

(** Pass 1 counts the nodes it marks ['∪']. *)
Lemma unions_union_nodes t :
  unions t = Z.of_nat (length (union_nodes (after_pass1 t))).
Proof.
  unfold union_nodes.
  induction t as [n d s o g l cs IH] using Tree_ind'.
  set (t := TreeNode n d s o g l cs) in *.
  rewrite traverse_unfold, children_after_pass1, filter_cons, unions_unfold.
  cbn [children t]. fold t.
  rewrite filter_concat, <- !list_fmap_compose.
  assert (Hsum : foldr (λ c n, unions c + n) 0 cs
                 = Z.of_nat (length (concat
                     ((filter (λ n, children n ≠ [] ∧ operation n = Some Union)
                        ∘ traverse ∘ after_pass1) <$> cs)))).
  { clear -IH. induction IH as [|x xs Hx _ IHxs]; [done|].
    cbn [foldr fmap list_fmap concat compose].
    rewrite length_app, Nat2Z.inj_add, <- Hx. f_equal. exact IHxs. }
  destruct cs as [|c cs].
  { rewrite decide_False; [done|]. by intros [? _]. }
  assert (Hne : children t ≠ []) by done.
  rewrite Hsum. rewrite (operation_after_pass1 t Hne).
  destruct (truthy (shared_of t)).
  - rewrite decide_False by (by intros [_ ?]). lia.
  - rewrite decide_True.
    2:{ split; [by apply children_after_pass1_nil|done]. }
    cbn [length]. lia.
Qed.

Lemma state_after_pass2 mra t :
  children t ≠ [] → state (after_pass2 mra t) = Some (final mra t).
Proof. intros Hne. by rewrite (after_pass2_inner mra t Hne). Qed.

Lemma operation_after_pass2 mra t :
  children t ≠ [] →
  operation (after_pass2 mra t)
  = Some (if truthy (shared_of t) then Inter else Union).
Proof. intros Hne. by rewrite (after_pass2_inner mra t Hne). Qed.

Lemma children_after_pass2_nil mra t :
  children (after_pass2 mra t) ≠ [] ↔ children t ≠ [].
Proof. rewrite after_pass2_children. by destruct (children t). Qed.

(** The edges of the working tree after Pass 2, each with the nodes of
    the input it comes from. *)
Lemma edges_after_pass2 t :
  ∀ mra p c, (p, c) ∈ edges (after_pass2 mra t) →
  ∃ mra0 p0 c0,
    p0 ∈ traverse t ∧ c0 ∈ children p0
    ∧ p = after_pass2 mra0 p0
    ∧ c = after_pass2 (Some (final mra0 p0)) c0.
Proof.
  induction t as [n d s o g l cs IH] using Tree_ind'. intros mra p c.
  set (t := TreeNode n d s o g l cs) in *.
  rewrite edges_unfold, after_pass2_children, elem_of_app. intros [H|H].
  - apply list_elem_of_fmap in H as (c' & [= -> ->] & Hc).
    apply list_elem_of_fmap in Hc as (c0 & -> & Hc0).
    exists mra, t, c0. split; [rewrite traverse_unfold; left|]. done.
  - apply elem_of_concat in H as (l' & Hl & H).
    rewrite <- list_fmap_compose in Hl.
    apply list_elem_of_fmap in Hl as (x & -> & Hx). cbn [compose] in H.
    rewrite Forall_forall in IH.
    destruct (IH x Hx _ _ _ H) as (mra0 & p0 & c0 & Hp0 & Hc0 & -> & ->).
    exists mra0, p0, c0. split; [|done].
    rewrite traverse_unfold. right. apply elem_of_concat.
    exists (traverse x). split; [|done]. apply list_elem_of_fmap. by exists x.
Qed.

Lemma issubset_full a : issubset a (StateSet true true) = true.
Proof. by destruct a as [[] []]. Qed.

Lemma set_and_full a : set_and (StateSet true true) a = a.
Proof. by destruct a as [[] []]. Qed.

(** ** The count of a candidate on any tree *)

Lemma unpack_raises s e : unpack s = Raise e → e = ValueError.
Proof. destruct s as [[] []]; cbn; intros H; by inversion H. Qed.

Lemma unpack_not_singleton s :
  s ≠ singleton 0 → s ≠ singleton 1 → unpack s = Raise ValueError.
Proof.
  destruct s as [[] []]; cbn; intros H0 H1; [done| | |done].
  - by destruct H0.
  - by destruct H1.
Qed.

Lemma effective_state_raises ns n e :
  state n ≠ None → effective_state ns n = Raise e → e = ValueError.
Proof.
  unfold effective_state, get_state. intros Hst.
  destruct (ns !! name n); [done|].
  destruct (state n) as [s|]; [|done]. cbn [mbind result_bind].
  apply unpack_raises.
Qed.

Lemma for_each_raises {A S} (body : S → A → result S) (xs : list A) (e : exn) :
  (∀ x, x ∈ xs → ∀ acc e', body acc x = Raise e' → e' = e) →
  (∃ x, x ∈ xs ∧ ∀ acc, body acc x = Raise e) →
  ∀ acc, for_each body xs acc = Raise e.
Proof.
  induction xs as [|x xs IH]; intros Honly (y & Hy & Hbad) acc.
  { by apply elem_of_nil in Hy. }
  cbn [for_each].
  destruct (body acc x) as [acc'|e'] eqn:Hx; cbn [mbind result_bind].
  - apply IH.
    + intros z Hz. apply Honly. by right.
    + apply elem_of_cons in Hy as [->|Hy]; [by rewrite Hbad in Hx|]. eauto.
  - f_equal. apply (Honly x ltac:(left) acc e' Hx).
Qed.

Lemma for_each_only {A S} (body : S → A → result S) (xs : list A) (e : exn) :
  (∀ x, x ∈ xs → ∀ acc e', body acc x = Raise e' → e' = e) →
  ∀ acc e', for_each body xs acc = Raise e' → e' = e.
Proof.
  induction xs as [|x xs IH]; intros Honly acc e'; [done|].
  cbn [for_each].
  destruct (body acc x) as [acc'|e''] eqn:Hx; cbn [mbind result_bind].
  - apply IH. intros z Hz. apply Honly. by right.
  - intros [= <-]. apply (Honly x ltac:(left) acc e'' Hx).
Qed.

Lemma count_each_for_each ns cs acc :
  count_each ns cs acc = for_each (λ acc c, count_visit ns false c acc) cs acc.
Proof.
  revert acc. induction cs as [|c cs IH]; intros acc; [done|].
  cbn [count_each for_each].
  destruct (count_visit ns false c acc); cbn [mbind result_bind]; [apply IH|done].
Qed.

Lemma every_state_child u c : every_state u → c ∈ children u → every_state c.
Proof.
  intros Hu Hc n Hn. apply Hu. rewrite traverse_unfold. right.
  apply elem_of_concat. exists (traverse c). split; [|done].
  apply list_elem_of_fmap. by exists c.
Qed.

Lemma count_node_only ns b u acc e :
  every_state u → count_node ns b u acc = Raise e → e = ValueError.
Proof.
  intros Hu. unfold count_node.
  destruct (effective_state ns u) as [st|e'] eqn:Hst; cbn [mbind result_bind].
  2:{ intros [= <-]. apply (effective_state_raises ns u); [|done].
      apply Hu. rewrite traverse_unfold. left. }
  apply for_each_only. intros c Hc acc' e'.
  destruct (effective_state ns c) as [d|e''] eqn:Hd; cbn [mbind result_bind]; [done|].
  intros [= <-]. apply (effective_state_raises ns c); [|done].
  apply (every_state_child u c Hu Hc). rewrite traverse_unfold. left.
Qed.

(** On a tree whose nodes all have a state, the loop of tree.py:74-110
    raises nothing but [ValueError]. *)
Lemma count_visit_only ns u :
  every_state u → ∀ b acc e, count_visit ns b u acc = Raise e → e = ValueError.
Proof.
  induction u as [n d s o g l cs IH] using Tree_ind'. intros Hu b acc e.
  destruct cs as [|c cs]; [done|].
  set (u := TreeNode n d s o g l (c :: cs)) in *.
  rewrite (count_visit_inner ns b u acc) by done.
  destruct (count_node ns b u acc) as [acc'|e'] eqn:Hn; cbn [mbind result_bind].
  2:{ intros [= <-]. by apply (count_node_only ns b u acc). }
  rewrite count_each_for_each. apply for_each_only.
  intros x Hx acc'' e''. rewrite Forall_forall in IH.
  apply (IH x Hx). by apply (every_state_child u).
Qed.

(** The loop raises [ValueError] when it meets, as the lower end of an
    edge, a node that the candidate does not name and whose state is not
    a singleton. *)
Lemma count_visit_wide ns u :
  every_state u →
  (∃ p c s, (p, c) ∈ edges u ∧ ns !! name c = None
            ∧ state c = Some s ∧ unpack s = Raise ValueError) →
  ∀ b acc, count_visit ns b u acc = Raise ValueError.
Proof.
  induction u as [n d s o g l cs IH] using Tree_ind'.
  intros Hu (p & c & sc & Hpc & Hns & Hsc & Hun) b acc.
  set (u := TreeNode n d s o g l cs) in *.
  assert (Hne : children u ≠ []).
  { intros Hnil. rewrite edges_unfold, Hnil in Hpc. by apply elem_of_nil in Hpc. }
  rewrite (count_visit_inner ns b u acc Hne).
  rewrite edges_unfold in Hpc. apply elem_of_app in Hpc as [Hpc|Hpc].
  - apply list_elem_of_fmap in Hpc as (c' & [= -> ->] & Hc).
    assert (count_node ns b u acc = Raise ValueError) as ->; [|done].
    unfold count_node.
    destruct (effective_state ns u) as [st|e'] eqn:Hst; cbn [mbind result_bind].
    2:{ f_equal. apply (effective_state_raises ns u); [|done].
        apply Hu. rewrite traverse_unfold. left. }
    apply for_each_raises.
    + intros x Hx acc' e'.
      destruct (effective_state ns x) as [dx|e''] eqn:Hd; cbn [mbind result_bind];
        [done|].
      intros [= <-]. apply (effective_state_raises ns x); [|done].
      apply (every_state_child u x Hu Hx). rewrite traverse_unfold. left.
    + exists c'. split; [done|]. intros acc'.
      unfold effective_state, get_state. rewrite Hns, Hsc.
      cbn [mbind result_bind]. by rewrite Hun.
  - destruct (count_node ns b u acc) as [acc'|e'] eqn:Hn; cbn [mbind result_bind].
    2:{ f_equal. by apply (count_node_only ns b u acc). }
    rewrite count_each_for_each.
    apply elem_of_concat in Hpc as (l' & Hl & Hpc).
    apply list_elem_of_fmap in Hl as (x & -> & Hx).
    rewrite Forall_forall in IH.
    apply for_each_raises.
    + intros y Hy acc'' e''. apply count_visit_only. by apply (every_state_child u).
    + exists x. split; [done|]. intros acc''. apply (IH x Hx).
      * by apply (every_state_child u).
      * exists p, c, sc. done.
Qed.

Lemma every_state_node u :
  state u ≠ None → Forall every_state (children u) → every_state u.
Proof.
  intros Hu Hcs n Hn. rewrite traverse_unfold in Hn.
  apply elem_of_cons in Hn as [->|Hn]; [done|].
  apply elem_of_concat in Hn as (l' & Hl & Hn).
  apply list_elem_of_fmap in Hl as (c & -> & Hc).
  rewrite Forall_forall in Hcs. by apply (Hcs c Hc).
Qed.

Lemma pass2_each_every_state st cs :
  Forall (λ c, stated c = true → ∀ mra pos amb c' pos' amb',
    pass2_visit mra c pos amb = Ok (c', pos', amb') → every_state c') cs →
  Forall (λ c, stated c = true) cs →
  ∀ pos amb cs' pos' amb',
    pass2_each st cs pos amb = Ok (cs', pos', amb') → Forall every_state cs'.
Proof.
  induction 1 as [|c cs Hc _ IH]; intros Hst pos amb cs' pos' amb' H.
  { cbn in H. injection H as <- <- <-. constructor. }
  inversion Hst as [|? ? Hsc Hscs]; subst.
  cbn [pass2_each] in H.
  destruct (pass2_visit (Some st) c pos amb) as [[[c' pos1] amb1]|] eqn:Hv; [|done].
  cbn [mbind result_bind] in H.
  destruct (pass2_each st cs pos1 amb1) as [[[cs1 pos2] amb2]|] eqn:He; [|done].
  cbn [mbind result_bind] in H. injection H as <- <- <-.
  constructor; [by eapply Hc|by eapply IH].
Qed.

(** After Pass 2 every node has a state, when every leaf had one. *)
Lemma pass2_visit_every_state t :
  stated t = true → ∀ mra pos amb t2 pos' amb',
    pass2_visit mra t pos amb = Ok (t2, pos', amb') → every_state t2.
Proof.
  induction t as [n d s o g l cs IH] using Tree_ind'.
  intros Hst mra pos amb t2 pos' amb' H.
  rewrite pass2_visit_unfold in H. cbn [children] in H.
  destruct cs as [|c cs].
  { injection H as <- <- <-. intros m Hm. rewrite traverse_unfold in Hm. cbn in Hm.
    apply list_elem_of_singleton in Hm as ->. cbn in *.
    by apply bool_decide_eq_true in Hst. }
  set (t := TreeNode n d s o g l (c :: cs)) in *.
  destruct (pass2_node mra t pos amb) as [[st amb1]|] eqn:Hn; [|done].
  cbn [mbind result_bind] in H.
  destruct (pass2_each st (c :: cs) (S pos) amb1) as [[[cs' pos2] amb2]|] eqn:He;
    [|done].
  cbn [mbind result_bind] in H. injection H as <- <- <-.
  apply every_state_node; [done|]. cbn [children].
  eapply (pass2_each_every_state st (c :: cs)); [exact IH| |exact He].
  by apply (stated_children t).
Qed.

Lemma leaf_states_without_inner_states u :
  leaf_states (without_inner_states u) = leaf_states u.
Proof.
  induction u as [n d s o g l cs IH] using Tree_ind'.
  rewrite (leaf_states_unfold (without_inner_states _)), without_inner_states_unfold,
    (leaf_states_unfold (TreeNode _ _ _ _ _ _ _)).
  unfold is_leaf. cbn [children name state].
  destruct cs as [|c cs]; [done|].
  change (list_fmap _ _ ?f (c :: cs)) with (f <$> (c :: cs)).
  destruct (without_inner_states <$> c :: cs) eqn:E; [done|]. rewrite <- E.
  f_equal. rewrite <- list_fmap_compose. by apply Forall_fmap_ext.
Qed.

(** A leaf below an internal root is the lower end of an edge. *)
Lemma leaf_edge u nm st :
  children u ≠ [] → (nm, st) ∈ leaf_states u →
  ∃ p c, (p, c) ∈ edges u ∧ name c = nm ∧ state c = st.
Proof.
  intros Hne Hin. unfold leaf_states, get_leaves in Hin.
  apply list_elem_of_fmap in Hin as (c & [= -> ->] & Hc).
  apply list_elem_of_filter in Hc as [Hleaf Hc].
  rewrite traverse_unfold in Hc. apply elem_of_cons in Hc as [->|Hc].
  { unfold is_leaf in Hleaf. by destruct (children u). }
  rewrite <- snd_edges in Hc.
  apply list_elem_of_fmap in Hc as ([p c'] & -> & Hpc). by exists p, c'.
Qed.

(** ** The records Pass 2 appends *)

Lemma records_of_app pos l1 l2 :
  records_of pos (l1 ++ l2)
  = records_of pos l1 ++ records_of (pos + length l1) l2.
Proof.
  revert pos. induction l1 as [|n l1 IH]; intros pos.
  { cbn. by rewrite Nat.add_0_r. }
  cbn [app records_of length]. rewrite IH, <- app_assoc.
  do 2 f_equal. f_equal. lia.
Qed.

Lemma pass2_node_records mra t pos amb st amb' :
  pass2_node mra t pos amb = Ok (st, amb') →
  amb' = amb ++ (if 1 <? len st then both_states (NodeRef pos (name t)) else []).
Proof.
  unfold pass2_node.
  destruct (match mra with Some a => updated_state a t | None => get_state t end)
    as [s0|]; [|done].
  cbn [mbind result_bind].
  destruct (1 <? len s0) eqn:Hl; intros [= <- <-]; rewrite Hl; [done|].
  by rewrite app_nil_r.
Qed.

Lemma pass2_each_records st cs :
  Forall (λ c, ∀ mra pos amb c' pos' amb',
    pass2_visit mra c pos amb = Ok (c', pos', amb') →
    amb' = amb ++ records_of pos (traverse c')
    ∧ pos' = (pos + length (traverse c'))%nat) cs →
  ∀ pos amb cs' pos' amb',
    pass2_each st cs pos amb = Ok (cs', pos', amb') →
    amb' = amb ++ records_of pos (concat (traverse <$> cs'))
    ∧ pos' = (pos + length (concat (traverse <$> cs')))%nat.
Proof.
  induction 1 as [|c cs Hc _ IH]; intros pos amb cs' pos' amb' H.
  { cbn in H. injection H as <- <- <-. cbn. by rewrite app_nil_r, Nat.add_0_r. }
  cbn [pass2_each] in H.
  destruct (pass2_visit (Some st) c pos amb) as [[[c' pos1] amb1]|] eqn:Hv; [|done].
  cbn [mbind result_bind] in H.
  destruct (pass2_each st cs pos1 amb1) as [[[cs1 pos2] amb2]|] eqn:He; [|done].
  cbn [mbind result_bind] in H. injection H as <- <- <-.
  apply Hc in Hv as [-> ->]. apply IH in He as [-> ->].
  cbn [fmap list_fmap concat]. rewrite records_of_app, length_app, <- app_assoc.
  split; [done|lia].
Qed.

(** The records a visit of Pass 2 appends are those of the ambiguous
    nodes of the tree it leaves. *)
Lemma pass2_visit_records t :
  ∀ mra pos amb t2 pos' amb',
    pass2_visit mra t pos amb = Ok (t2, pos', amb') →
    amb' = amb ++ records_of pos (traverse t2)
    ∧ pos' = (pos + length (traverse t2))%nat.
Proof.
  induction t as [n d s o g l cs IH] using Tree_ind'.
  intros mra pos amb t2 pos' amb' H.
  rewrite pass2_visit_unfold in H. cbn [children] in H.
  destruct cs as [|c cs].
  { injection H as <- <- <-. rewrite traverse_unfold. cbn.
    rewrite app_nil_r. split; [done|lia]. }
  set (t := TreeNode n d s o g l (c :: cs)) in *.
  destruct (pass2_node mra t pos amb) as [[st amb1]|] eqn:Hn; [|done].
  cbn [mbind result_bind] in H.
  destruct (pass2_each st (c :: cs) (S pos) amb1) as [[[cs' pos2] amb2]|] eqn:He;
    [|done].
  cbn [mbind result_bind] in H. injection H as <- <- <-.
  apply pass2_node_records in Hn as ->.
  pose proof He as Hlen.
  apply (pass2_each_records st (c :: cs) IH) in He as [-> ->].
  assert (Hcs' : cs' ≠ []).
  { intros ->. cbn [pass2_each] in Hlen.
    destruct (pass2_visit (Some st) c (S pos) _) as [[[c' pos1] amb1]|]; [|done].
    cbn [mbind result_bind] in Hlen.
    destruct (pass2_each st cs pos1 amb1) as [[[cs1 pos3] amb3]|]; done. }
  rewrite traverse_unfold. cbn [children records_of length name].
  unfold is_ambiguous, is_leaf. cbn [children state].
  destruct cs' as [|c' cs']; [done|]. cbn [negb andb].
  rewrite <- app_assoc. split; [done|lia].
Qed.

(** * The claims *)

(** ** C1: the event count of every returned tree *)

(** C1, as stated for every reconstruction, fails in two ways.  When
    Pass 2 finds no ambiguity the single tree is returned without being
    compared to [min_changes]: on [rake], which has a node with five
    children, it has three gains and [min_changes] is 1.  In the
    enumeration the flags are set by name: on [namesakes], where two
    internal nodes are called alike, the accepted tree has one transition
    and two gain flags, and [min_changes] is 1. *)
Lemma returned_tree_with_more_events :
  (valid rake = true
   ∧ ∃ e, snd <$> _fitch rake = Ok (1, [e])
          ∧ flag_events e = 3 ∧ transition_events e = 3)
  ∧ (valid namesakes = true
     ∧ ∃ e, snd <$> _fitch namesakes = Ok (1, [e])
            ∧ flag_events e = 2 ∧ transition_events e = 1).
Proof.
  split.
  - split; [reflexivity|].
    eexists. split; [vm_compute; reflexivity|]. split; reflexivity.
  - split; [reflexivity|].
    eexists. split; [vm_compute; reflexivity|]. split; by vm_compute.
Qed.

(** C1, amended: on a valid tree on which Pass 2 reports at least one
    ambiguous node, or whose internal nodes have at most two children,
    every annotated tree [_fitch] returns has exactly [min_changes] gain
    and loss events counted from its states (the 0-to-1 and 1-to-0 edges,
    and one spontaneous gain when the root is in state [{1}]); counted from
    its gain and loss flags the same holds when the node names are
    pairwise distinct. *)
Theorem returned_event_count t t1 min_changes t2 ambiguous_nodes w annot_trees :
  valid t = true →
  _fitch_pass1 t = Ok (t1, min_changes) →
  _fitch_pass2 t1 = Ok (t2, ambiguous_nodes) →
  ambiguous_nodes ≠ [] ∨ bifurcating t = true →
  _fitch t = Ok (w, (min_changes, annot_trees)) →
  ∀ e, e ∈ annot_trees →
    transition_events e = min_changes
    ∧ (NoDup (name <$> traverse t) → flag_events e = min_changes).
Proof.
  intros Hv H1 H2 Hor Hf e He.
  destruct (passes_inv _ _ _ _ _ Hv H1 H2) as (-> & -> & -> & ->).
  rewrite (_fitch_spec t Hv) in Hf. cbv zeta in Hf.
  set (u := after_pass2 None t) in *.
  destruct (ambiguous None t 0) as [|rec amb] eqn:Hamb.
  - destruct Hor as [?|Hb]; [done|].
    destruct (origin_veto u [marked u false false]) as [kept|] eqn:Hk; [|done].
    injection Hf as _ <-.
    destruct (origin_veto_cases t _ _ Hv Hk) as [-> | [-> Hne]];
      [by apply elem_of_nil in He|].
    apply list_elem_of_singleton in He as ->. fold u in Hne.
    pose proof (no_ambiguity_events t Hv Hb Hamb) as Hev. fold u in Hev.
    assert (Hflags : flag_events (marked u false false) = unions t).
    { rewrite (flag_events_marked u (unflagged_after_pass2 t None)), Hev. lia. }
    split; [|done].
    unfold transition_events. rewrite is_state_marked, edge_events_marked, Hev.
    unfold is_state. rewrite bool_decide_eq_false_2 by done. lia.
  - destruct (10 <? size (node_set (rec :: amb)))%nat.
    { injection Hf as _ <-. by apply elem_of_nil in He. }
    destruct (origin_veto u _) as [kept|] eqn:Hk; [|done].
    injection Hf as _ <-.
    destruct (origin_veto_cases t _ _ Hv Hk) as [-> | [-> _]];
      [by apply elem_of_nil in He|].
    apply elem_of_concat in He as (l & Hl & He).
    apply list_elem_of_fmap in Hl as (ts & -> & Hts).
    apply elem_of_accepted in He as (Huniq & Htot & ->).
    rewrite <- Hamb in Hts.
    destruct (candidates_resolved t ts Hv Hts Huniq) as [_ Hres].
    split.
    + rewrite accepted_transition_events; [done| |done].
      apply ambiguous_inner_root with (pos := 0%nat). by rewrite Hamb.
    + intros Hnd. rewrite accepted_flag_events; [done| |].
      * destruct (after_pass2_keeps t None) as (_ & _ & _ & _ & Hnames).
        unfold u. by rewrite Hnames.
      * apply unflagged_after_pass2.
Qed.

(** [returned_event_count] at [cherry_tree], whose root is ambiguous. *)
Lemma returned_event_count_witness :
  transition_events
    (annotate {["r" := 0]} (Changes {["x"]} ∅) (after_pass2 None cherry_tree)) = 1
  ∧ (NoDup (name <$> traverse cherry_tree) →
     flag_events
       (annotate {["r" := 0]} (Changes {["x"]} ∅) (after_pass2 None cherry_tree)) = 1).
Proof.
  apply (returned_event_count cherry_tree (after_pass1 cherry_tree) 1
           (after_pass2 None cherry_tree) (ambiguous None cherry_tree 0)
           (after_pass2 None cherry_tree)
           [annotate {["r" := 0]} (Changes {["x"]} ∅) (after_pass2 None cherry_tree)]).
  - reflexivity.
  - reflexivity.
  - reflexivity.
  - left. vm_compute. discriminate.
  - vm_compute. reflexivity.
  - left.
Defined.

(** ** C2: candidates are applied by name *)

(** C2 fails on the code.  On [unnamed] only the root is ambiguous, and
    the candidate that gives the root 0 makes the inner node, which Pass 2
    resolved to [{1}], count with state 0: no candidate reaches
    [min_changes] and nothing is returned, while [cherry_tree], the same
    tree with distinct names, has one optimal history.  On [homonym] the
    same candidate makes the leaf called like the root count with state 0
    although it carries [{1}]. *)
Lemma candidate_overrides_by_name :
  (∃ x c,
     ambiguous None unnamed 0 = both_states (NodeRef 0 "")
     ∧ children (after_pass2 None unnamed) = [x; c]
     ∧ state x = Some (singleton 1)
     ∧ effective_state (name_states [(NodeRef 0 "", 0)]) x = Ok 0
     ∧ snd <$> _fitch unnamed = Ok (1, [])
     ∧ length <$> (snd <$> (snd <$> _fitch cherry_tree)) = Ok 1%nat)
  ∧ (∃ x c lf b,
       ambiguous None homonym 0 = both_states (NodeRef 0 "a")
       ∧ children (after_pass2 None homonym) = [x; c]
       ∧ children x = [lf; b]
       ∧ children lf = []
       ∧ state lf = Some (singleton 1)
       ∧ effective_state (name_states [(NodeRef 0 "a", 0)]) lf = Ok 0).
Proof.
  split.
  - do 2 eexists. split; [reflexivity|]. split; [reflexivity|].
    split; [reflexivity|]. split; [reflexivity|]. split; by vm_compute.
  - do 4 eexists. split; [reflexivity|]. split; [reflexivity|].
    split; [reflexivity|]. split; [reflexivity|]. split; reflexivity.
Qed.

(** ** C3: the value of Pass 1 and the minimum number of changes *)

(** C3, as stated, fails on a node with more than two children: on the
    star with leaf states 1, 1, 0, 0 Pass 1 returns 1, and every assignment
    of states consistent with the leaves has 2 changes. *)
Lemma pass1_star4_below_minimum :
  valid star4 = true
  ∧ snd <$> _fitch_pass1 star4 = Ok 1
  ∧ ∀ a, assigns star4 a = true → changes_of a = 2.
Proof.
  split; [reflexivity|]. split; [reflexivity|]. exact star4_assignments.
Qed.

(** C3, amended: on every tree whose leaves carry singleton states and
    whose internal nodes have at most two children, the integer Pass 1
    returns is the minimum number of state-changing edges over all
    assignments of states to the nodes that agree with the leaves: no
    assignment has fewer changes and some assignment has exactly that
    many.  (The lower bound needs no limit on the number of children.) *)
Theorem pass1_minimum t :
  valid t = true → bifurcating t = true →
  ∃ t1 min_changes,
    _fitch_pass1 t = Ok (t1, min_changes)
    ∧ (∀ a, assigns t a = true → min_changes ≤ changes_of a)
    ∧ (∃ a, assigns t a = true ∧ changes_of a = min_changes).
Proof.
  intros Hv Hb. exists (after_pass1 t), (unions t).
  split; [by apply _fitch_pass1_spec|]. split.
  - intros a Ha. pose proof (lower_bound t Hv a Ha).
    destruct (mem (lab a) (fset t)); lia.
  - pose proof (truthy_fset t Hv) as Ht.
    set (v := if has0 (fset t) then 0 else 1).
    assert (Hm : mem v (fset t) = true).
    { revert Ht. unfold v, mem, truthy. by destruct (fset t) as [[] []]. }
    exists (follow v t). by apply follow_optimal.
Qed.

(** [pass1_minimum] at [cherry_tree]. *)
Lemma pass1_minimum_witness :
  valid cherry_tree = true ∧ bifurcating cherry_tree = true
  ∧ ∃ t1 min_changes,
      _fitch_pass1 cherry_tree = Ok (t1, min_changes)
      ∧ (∀ a, assigns cherry_tree a = true → min_changes ≤ changes_of a)
      ∧ (∃ a, assigns cherry_tree a = true ∧ changes_of a = min_changes).
Proof.
  split; [reflexivity|]. split; [reflexivity|].
  apply (pass1_minimum cherry_tree); reflexivity.
Defined.

(** ** C4: the origin veto *)

(** C4: on a valid tree, when the pseudo-root of the working tree has the
    state [{1}] after the two passes, [_fitch] returns an empty set of
    annotated trees, whatever the number of ambiguous nodes, and returns
    the [min_changes] of Pass 1 unchanged. *)
Theorem origin_veto_empties t t1 min_changes t2 ambiguous_nodes pseudo_root :
  valid t = true →
  _fitch_pass1 t = Ok (t1, min_changes) →
  _fitch_pass2 t1 = Ok (t2, ambiguous_nodes) →
  _get_pseudo_root t2 = Ok pseudo_root →
  state pseudo_root = Some (singleton 1) →
  _fitch t = Ok (t2, (min_changes, [])).
Proof.
  intros Hv H1 H2 Hp Hst.
  destruct (passes_inv _ _ _ _ _ Hv H1 H2) as (-> & -> & -> & ->).
  rewrite (_fitch_spec t Hv). cbv zeta.
  assert (Hveto : ∀ trees, origin_veto (after_pass2 None t) trees = Ok []).
  { intros trees. unfold origin_veto. rewrite Hp. cbn [mbind result_bind].
    unfold get_state. rewrite Hst. cbn [mbind result_bind].
    by rewrite decide_True. }
  destruct (ambiguous None t 0) as [|rec amb].
  - by rewrite Hveto.
  - destruct (10 <? size (node_set (rec :: amb)))%nat; [done|].
    by rewrite Hveto.
Qed.

(** [origin_veto_empties] at [ones]. *)
Lemma origin_veto_empties_witness :
  _fitch ones = Ok (after_pass2 None ones, (0, [])).
Proof.
  apply (origin_veto_empties ones (after_pass1 ones) 0 (after_pass2 None ones)
           [] (after_pass2 None ones)); reflexivity.
Defined.

(** ** C5: more than ten ambiguous nodes *)

(** C5: when Pass 2 reports more than 10 distinct ambiguous nodes, [_fitch]
    returns [min_changes] as Pass 1 computed it together with an empty set
    of annotated trees; the result does not depend on any enumeration. *)
Theorem too_ambiguous_returns_empty t t1 min_changes t2 ambiguous_nodes :
  _fitch_pass1 t = Ok (t1, min_changes) →
  _fitch_pass2 t1 = Ok (t2, ambiguous_nodes) →
  (10 < size (node_set ambiguous_nodes))%nat →
  _fitch t = Ok (t2, (min_changes, [])).
Proof.
  intros H1 H2 Hr. unfold _fitch. rewrite H1. cbn [mbind result_bind].
  rewrite H2. cbn [mbind result_bind].
  destruct ambiguous_nodes as [|rec amb].
  { unfold node_set in Hr. cbn in Hr. rewrite size_empty in Hr. lia. }
  apply Nat.ltb_lt in Hr. by rewrite Hr.
Qed.

(** [too_ambiguous_returns_empty] at [bush]. *)
Lemma too_ambiguous_returns_empty_witness :
  _fitch bush = Ok (after_pass2 None bush, (11, [])).
Proof.
  apply (too_ambiguous_returns_empty bush (after_pass1 bush) 11
           (after_pass2 None bush) (ambiguous None bush 0)).
  - vm_compute. reflexivity.
  - vm_compute. reflexivity.
  - vm_compute. lia.
Defined.

(** ** C6: no ambiguous node *)

(** C6, as stated, fails in two ways.  On [ones] Pass 2 reports no
    ambiguous node and the origin veto leaves no tree at all.  On [broom]
    Pass 2 reports no ambiguous node either and the single tree returned
    has two gains while [min_changes] is 1. *)
Lemma no_ambiguity_counterexamples :
  (valid ones = true
   ∧ (_fitch_pass1 ones ≫= λ '(t1, _), snd <$> _fitch_pass2 t1) = Ok []
   ∧ snd <$> _fitch ones = Ok (0, []))
  ∧ (valid broom = true
     ∧ (_fitch_pass1 broom ≫= λ '(t1, _), snd <$> _fitch_pass2 t1) = Ok []
     ∧ ∃ e, snd <$> _fitch broom = Ok (1, [e])
            ∧ flag_events e = 2 ∧ transition_events e = 2).
Proof.
  split; [by vm_compute|].
  split; [reflexivity|]. split; [reflexivity|].
  eexists. split; [vm_compute; reflexivity|]. split; reflexivity.
Qed.

(** C6, amended: on a valid tree whose internal nodes have at most two
    children, when Pass 2 reports no ambiguous node, the pseudo-root is
    found and its state is not [{1}], [_fitch] returns exactly one
    annotated tree, and the gain and loss events of that tree, counted
    from its flags or from its states, are exactly [min_changes]. *)
Theorem no_ambiguity_single_tree t t1 min_changes t2 pseudo_root :
  valid t = true → bifurcating t = true →
  _fitch_pass1 t = Ok (t1, min_changes) →
  _fitch_pass2 t1 = Ok (t2, []) →
  _get_pseudo_root t2 = Ok pseudo_root →
  state pseudo_root ≠ Some (singleton 1) →
  ∃ e, _fitch t = Ok (t2, (min_changes, [e]))
       ∧ flag_events e = min_changes
       ∧ transition_events e = min_changes.
Proof.
  intros Hv Hb H1 H2 Hp Hst.
  destruct (passes_inv _ _ _ _ _ Hv H1 H2) as (-> & -> & -> & Hamb).
  symmetry in Hamb.
  set (u := after_pass2 None t) in *.
  exists (marked u false false).
  rewrite (pseudo_root_state t _ Hv Hp) in Hst. fold u in Hst.
  pose proof (no_ambiguity_events t Hv Hb Hamb) as Hev. fold u in Hev.
  split; [|split].
  - rewrite (_fitch_spec t Hv). cbv zeta. rewrite Hamb. fold u.
    unfold origin_veto. rewrite Hp. cbn [mbind result_bind].
    unfold get_state. rewrite (pseudo_root_state t _ Hv Hp). fold u.
    destruct (state u) as [st|] eqn:E.
    + cbn [mbind result_bind]. rewrite decide_False by congruence. done.
    + by destruct (no_ambiguity_root_state t Hv Hamb) as (v & _ & _ & Hu);
        fold u in Hu; rewrite E in Hu.
  - rewrite (flag_events_marked u (unflagged_after_pass2 t None)), Hev. lia.
  - unfold transition_events.
    rewrite is_state_marked, edge_events_marked, Hev.
    unfold is_state. rewrite bool_decide_eq_false_2 by done. lia.
Qed.

(** [no_ambiguity_single_tree] at [late_gain]. *)
Lemma no_ambiguity_single_tree_witness :
  ∃ e, _fitch late_gain = Ok (after_pass2 None late_gain, (1, [e]))
       ∧ flag_events e = 1 ∧ transition_events e = 1.
Proof.
  apply (no_ambiguity_single_tree late_gain (after_pass1 late_gain) 1
           (after_pass2 None late_gain) (after_pass2 None late_gain)).
  - reflexivity.
  - reflexivity.
  - reflexivity.
  - reflexivity.
  - vm_compute. reflexivity.
  - vm_compute. discriminate.
Defined.

(** ** C7: input that carries no usable leaf state *)

(** C7, as stated, fails on the code, which validates nothing.  A leaf
    whose state is not a singleton is accepted and a result is returned; a
    leaf without a state makes Pass 1 itself raise, and what it raises is
    an [AttributeError]. *)
Lemma no_validation_before_pass1 :
  (valid wide_leaf = false
   ∧ ∃ res, (fitch {[1%positive := wide_leaf]} 1%positive).2 = Ok res)
  ∧ (valid bare_leaf = false
     ∧ _fitch_pass1 bare_leaf = Raise AttributeError
     ∧ (fitch {[1%positive := bare_leaf]} 1%positive).2 = Raise AttributeError).
Proof.
  split; [split; [reflexivity|]|].
  - eexists. vm_compute. reflexivity.
  - split; [reflexivity|]. split; by vm_compute.
Qed.

(** C7, amended: the entry point does not validate its input.  When some
    leaf of the tree has no state, [fitch] raises an [AttributeError]:
    Pass 1 raises it when the tree has an internal node, and the marking
    of the copy raises it when the tree is a single leaf. *)
Theorem leaf_without_state_raises (σ : store) l t :
  σ !! l = Some t →
  leaf_without_state t →
  (fitch σ l).2 = Raise AttributeError
  ∧ (children t ≠ [] → _fitch_pass1 t = Raise AttributeError).
Proof.
  intros Hl Hmiss.
  assert (Hp1 : children t ≠ [] → _fitch_pass1 t = Raise AttributeError).
  { intros Hne. by apply pass1_visit_missing. }
  split; [|done].
  assert (Hf : ∃ e, _fitch t = Raise e ∧ e = AttributeError).
  { unfold _fitch. destruct (decide (children t = [])) as [Hleaf|Hne].
    - destruct Hmiss as (x & Hx & _ & Hst).
      rewrite traverse_unfold, Hleaf in Hx. cbn in Hx.
      apply list_elem_of_singleton in Hx as ->.
      destruct t as [n d s o g l0 cs]. cbn in Hleaf, Hst. subst.
      by eexists.
    - rewrite (Hp1 Hne). by eexists. }
  destruct Hf as (e & Hf & ->).
  unfold fitch. rewrite Hl. cbn [copy]. cbv zeta. by rewrite Hf.
Qed.

(** [leaf_without_state_raises] at [bare_leaf], stored at address 1. *)
Lemma leaf_without_state_raises_witness :
  (fitch {[1%positive := bare_leaf]} 1%positive).2 = Raise AttributeError
  ∧ (children bare_leaf ≠ [] → _fitch_pass1 bare_leaf = Raise AttributeError).
Proof.
  apply (leaf_without_state_raises {[1%positive := bare_leaf]} 1%positive bare_leaf).
  - reflexivity.
  - exists (TreeNode "a" 1 None None false false []).
    split; [|done]. right. left.
Defined.

(** ** C8: running the entry point twice *)


(** ** C9: no returned history has the trait at the root *)

(** C9: on a valid tree whose node names are pairwise distinct, [_fitch]
    returns, and every annotated tree it returns has the root in state
    [{0}]. *)
Theorem returned_root_state_0 t :
  valid t = true →
  NoDup (name <$> traverse t) →
  ∃ w min_changes annot_trees,
    _fitch t = Ok (w, (min_changes, annot_trees))
    ∧ ∀ e, e ∈ annot_trees → state e = Some (singleton 0).
Proof.
  intros Hv Hnd.
  destruct (_fitch_returns t Hv Hnd) as (w & min_changes & annot_trees & Hf).
  exists w, min_changes, annot_trees. split; [done|]. intros e He.
  rewrite (_fitch_spec t Hv) in Hf. cbv zeta in Hf.
  set (u := after_pass2 None t) in *.
  destruct (ambiguous None t 0) as [|rec amb] eqn:Hamb.
  - destruct (origin_veto u [marked u false false]) as [kept|] eqn:Hk; [|done].
    injection Hf as _ _ <-.
    destruct (origin_veto_cases t _ _ Hv Hk) as [-> | [-> Hne]];
      [by apply elem_of_nil in He|].
    apply list_elem_of_singleton in He as ->.
    rewrite marked_unfold. cbn [state].
    by destruct (no_ambiguity_root_state t Hv Hamb) as (v & [-> | ->] & _ & Hst).
  - destruct (10 <? size (node_set (rec :: amb)))%nat.
    { injection Hf as _ _ <-. by apply elem_of_nil in He. }
    destruct (origin_veto u _) as [kept|] eqn:Hk; [|done].
    injection Hf as _ _ <-.
    destruct (origin_veto_cases t _ _ Hv Hk) as [-> | [-> _]];
      [by apply elem_of_nil in He|].
    apply elem_of_concat in He as (l & Hl & He).
    apply list_elem_of_fmap in Hl as (ts & -> & Hts).
    apply elem_of_accepted in He as (Huniq & Htot & ->).
    rewrite <- Hamb in Hts.
    destruct (candidates_resolved t ts Hv Hts Huniq) as [_ Hres].
    destruct (after_pass2_keeps t None) as (_ & _ & Hun & Hval & _).
    apply accepted_root_state; fold u.
    + unfold u. by rewrite Hval.
    + apply ambiguous_inner_root with (pos := 0%nat). by rewrite Hamb.
    + done.
    + apply distinct_names_leaves_free; [done|].
      by apply combinations_sublist in Hts as [? _].
    + unfold u. by rewrite Hun.
Qed.

(** [returned_root_state_0] at [cherry_tree]. *)
Lemma returned_root_state_0_witness :
  ∃ w min_changes annot_trees,
    _fitch cherry_tree = Ok (w, (min_changes, annot_trees))
    ∧ ∀ e, e ∈ annot_trees → state e = Some (singleton 0).
Proof.
  apply (returned_root_state_0 cherry_tree).
  - reflexivity.
  - apply (bool_decide_unpack _). vm_compute. exact I.
Defined.

(** ** C10: node ages *)


(** * Further properties *)

(** ** Pass 1 *)

(** X1 (Pass 1 accepts any leaf state).  When every leaf has a [state]
    attribute, whatever set it holds, Pass 1 raises nothing; it leaves
    every [gain] and [loss] flag at [False] and keeps the names, the
    branch lengths, the topology and the states of the leaves. *)
Theorem pass1_returns_on_stated_leaves t :
  stated t = true →
  ∃ t1 min_changes,
    _fitch_pass1 t = Ok (t1, min_changes)
    ∧ unflagged t1 = true
    ∧ shape_of t1 = shape_of t
    ∧ leaf_states t1 = leaf_states t.
Proof.
  intros Hs. exists (after_pass1 t), (unions t). split.
  - unfold _fitch_pass1. by rewrite pass1_visit_stated.
  - split; [apply unflagged_after_pass1|].
    split; [apply shape_of_after_pass1 | apply leaf_states_after_pass1].
Qed.

(** X1 on [wide_leaf], whose leaf ["a"] holds both states. *)
Lemma pass1_returns_on_stated_leaves_witness :
  ∃ t1 min_changes,
    _fitch_pass1 wide_leaf = Ok (t1, min_changes)
    ∧ unflagged t1 = true
    ∧ shape_of t1 = shape_of wide_leaf
    ∧ leaf_states t1 = leaf_states wide_leaf.
Proof. apply (pass1_returns_on_stated_leaves wide_leaf). reflexivity. Defined.

(** X2 (Pass 1 is idempotent).  Run again on the tree it has annotated,
    Pass 1 leaves that tree as it is and returns the same count: what
    the internal nodes held before the pass has no influence. *)
Theorem pass1_idempotent t t1 min_changes :
  _fitch_pass1 t = Ok (t1, min_changes) →
  _fitch_pass1 t1 = Ok (t1, min_changes).
Proof.
  intros (-> & -> & Hs)%pass1_ok_inv.
  destruct Hs as [Hleaf|Hs].
  - destruct t as [n d s o g l cs]. cbn in Hleaf. subst cs. reflexivity.
  - unfold _fitch_pass1. rewrite pass1_visit_stated by by rewrite stated_after_pass1.
    by rewrite after_pass1_idemp, unions_after_pass1.
Qed.

(** X2 on [cherry_tree]. *)
Lemma pass1_idempotent_witness :
  _fitch_pass1 (after_pass1 cherry_tree) = Ok (after_pass1 cherry_tree, 1).
Proof. apply (pass1_idempotent cherry_tree). reflexivity. Defined.

(** X3 (no change iff one state).  On a valid tree Pass 1 returns 0 exactly
    when all leaves carry the same state. *)
Theorem pass1_zero_iff_uniform t :
  valid t = true →
  ∃ t1 min_changes,
    _fitch_pass1 t = Ok (t1, min_changes)
    ∧ (min_changes = 0 ↔ uniform 0 t ∨ uniform 1 t).
Proof.
  intros Hv. exists (after_pass1 t), (unions t).
  split; [by apply _fitch_pass1_spec|]. split.
  - intros Hz. destruct (valid_leaf_exists t Hv) as (v & [-> | ->] & Hm).
    + left. by apply no_union_uniform.
    + right. by apply no_union_uniform.
  - intros [Hu|Hu];
      [apply (uniform_no_union 0 t) | apply (uniform_no_union 1 t)]; auto.
Qed.

(** X3 on [ones]. *)
Lemma pass1_zero_iff_uniform_witness :
  ∃ t1 min_changes,
    _fitch_pass1 ones = Ok (t1, min_changes)
    ∧ (min_changes = 0 ↔ uniform 0 ones ∨ uniform 1 ones).
Proof. apply (pass1_zero_iff_uniform ones). reflexivity. Defined.

(** X4 (bounds of the count).  On a valid tree the count of Pass 1 is not
    negative and exceeds neither the number of leaves in state [{0}] nor
    the number of leaves in state [{1}]. *)
Theorem pass1_at_most_minority t :
  valid t = true →
  ∃ t1 min_changes,
    _fitch_pass1 t = Ok (t1, min_changes)
    ∧ 0 ≤ min_changes
    ∧ min_changes ≤ leaves_in_state 0 t
    ∧ min_changes ≤ leaves_in_state 1 t.
Proof.
  intros Hv. exists (after_pass1 t), (unions t).
  split; [by apply _fitch_pass1_spec|]. split; [apply unions_nonneg|].
  assert (Hb : ∀ v, v = 0 ∨ v = 1 → unions t ≤ leaves_in_state (1 - v) t).
  { intros v Hv01.
    pose proof (lower_bound t Hv _ (constant_assigns v t Hv01 Hv)) as Hlow.
    pose proof (constant_changes v t Hv01 Hv) as Hc.
    destruct (mem _ _), (v =? _); lia. }
  split; [apply (Hb 1) | apply (Hb 0)]; auto.
Qed.

(** X4 on [late_gain]. *)
Lemma pass1_at_most_minority_witness :
  ∃ t1 min_changes,
    _fitch_pass1 late_gain = Ok (t1, min_changes)
    ∧ 0 ≤ min_changes
    ∧ min_changes ≤ leaves_in_state 0 late_gain
    ∧ min_changes ≤ leaves_in_state 1 late_gain.
Proof. apply (pass1_at_most_minority late_gain). reflexivity. Defined.

(** X5 (the nodes Pass 1 marks).  On a valid tree the count Pass 1 returns
    is the number of internal nodes it has marked ['∪'], and each of them
    is left in state [{0, 1}]. *)
Theorem pass1_counts_union_nodes t :
  valid t = true →
  ∃ t1 min_changes,
    _fitch_pass1 t = Ok (t1, min_changes)
    ∧ min_changes = Z.of_nat (length (union_nodes t1))
    ∧ ∀ n, n ∈ union_nodes t1 → state n = Some (StateSet true true).
Proof.
  intros Hv. exists (after_pass1 t), (unions t).
  split; [by apply _fitch_pass1_spec|]. split; [apply unions_union_nodes|].
  intros n [[Hne Hop] Hn]%list_elem_of_filter.
  rewrite traverse_after_pass1 in Hn.
  apply list_elem_of_fmap in Hn as (n0 & -> & Hn0).
  apply (proj1 (children_after_pass1_nil n0)) in Hne.
  rewrite (operation_after_pass1 n0 Hne) in Hop.
  rewrite (state_after_pass1 n0 Hne). f_equal.
  apply fset_union_node; [by apply (valid_subtree t)|done|].
  by destruct (truthy (shared_of n0)).
Qed.

(** X5 on [late_gain]. *)
Lemma pass1_counts_union_nodes_witness :
  ∃ t1 min_changes,
    _fitch_pass1 late_gain = Ok (t1, min_changes)
    ∧ min_changes = Z.of_nat (length (union_nodes t1))
    ∧ ∀ n, n ∈ union_nodes t1 → state n = Some (StateSet true true).
Proof. apply (pass1_counts_union_nodes late_gain). reflexivity. Defined.

(** ** Pass 2 *)

(** X6 (what Pass 2 returns).  The list Pass 2 returns names exactly the
    internal nodes it has left with more than one state: for each such
    node, in preorder, the record with state 0 and the record with state
    1, under the node's preorder position and name. *)
Theorem pass2_returns_the_ambiguous_nodes t1 t2 ambiguous_nodes :
  _fitch_pass2 t1 = Ok (t2, ambiguous_nodes) →
  ambiguous_nodes = records_of 0 (traverse t2).
Proof.
  unfold _fitch_pass2. intros H.
  destruct (pass2_visit None t1 0 []) as [[[t' pos'] amb']|] eqn:Hv; [|done].
  cbn [mbind result_bind] in H. injection H as <- <-.
  by apply pass2_visit_records in Hv as [-> _].
Qed.

(** X6 on [cherry_tree] after Pass 1. *)
Lemma pass2_returns_the_ambiguous_nodes_witness :
  ambiguous None cherry_tree 0 = records_of 0 (traverse (after_pass2 None cherry_tree)).
Proof.
  apply (pass2_returns_the_ambiguous_nodes (after_pass1 cherry_tree)).
  reflexivity.
Defined.

(** X7 (the records of Pass 2).  The list Pass 2 returns holds, for each
    ambiguous node in turn, the record with state 0 followed by the record
    with state 1, and no node twice: the number [r] of distinct nodes is
    half the length of the list. *)
Theorem pass2_records_in_pairs t1 t2 ambiguous_nodes :
  _fitch_pass2 t1 = Ok (t2, ambiguous_nodes) →
  ∃ refs,
    ambiguous_nodes = paired refs
    ∧ NoDup (ref_id <$> refs)
    ∧ size (node_set ambiguous_nodes) = length refs
    ∧ length ambiguous_nodes = (2 * length refs)%nat.
Proof.
  intros (_ & _ & _ & refs & -> & Hnd)%pass2_ok_inv.
  exists refs. split; [done|]. split; [done|].
  split; [by apply node_set_paired|].
  clear. induction refs as [|r rs IH]; [done|].
  unfold paired in *. rewrite bind_cons, length_app, IH. cbn. lia.
Qed.

(** X7 on [cherry_tree] after Pass 1. *)
Lemma pass2_records_in_pairs_witness :
  ∃ refs,
    ambiguous None cherry_tree 0 = paired refs
    ∧ NoDup (ref_id <$> refs)
    ∧ size (node_set (ambiguous None cherry_tree 0)) = length refs
    ∧ length (ambiguous None cherry_tree 0) = (2 * length refs)%nat.
Proof.
  apply (pass2_records_in_pairs (after_pass1 cherry_tree)
           (after_pass2 None cherry_tree)).
  reflexivity.
Defined.

(** X8 (what Pass 2 changes).  Pass 2 rewrites the states of internal nodes
    other than the root and nothing else: names, branch lengths, topology,
    operations, flags, the states of the leaves and the state of the root
    are as Pass 2 found them. *)
Theorem pass2_rewrites_inner_states_only t1 t2 ambiguous_nodes :
  _fitch_pass2 t1 = Ok (t2, ambiguous_nodes) →
  without_inner_states t2 = without_inner_states t1 ∧ state t2 = state t1.
Proof. intros (H1 & H2 & _)%pass2_ok_inv. done. Qed.

(** X8 on [late_gain] after Pass 1. *)
Lemma pass2_rewrites_inner_states_only_witness :
  without_inner_states (after_pass2 None late_gain)
  = without_inner_states (after_pass1 late_gain)
  ∧ state (after_pass2 None late_gain) = state (after_pass1 late_gain).
Proof.
  apply (pass2_rewrites_inner_states_only _ _ (ambiguous None late_gain 0)).
  reflexivity.
Defined.

(** X9 (Pass 2 needs the states of Pass 1).  On a tree with an internal
    node that has no [state] attribute, Pass 2 raises [AttributeError]. *)
Theorem pass2_without_states_raises t :
  (∃ n, n ∈ traverse t ∧ children n ≠ [] ∧ state n = None) →
  _fitch_pass2 t = Raise AttributeError.
Proof.
  intros (n & Hn & Hne & Hst).
  destruct (_fitch_pass2 t) as [[t2 amb]|e] eqn:H.
  - apply pass2_ok_inv in H as (_ & _ & Hin & _). by destruct (Hin n Hn Hne).
  - f_equal. unfold _fitch_pass2 in H.
    destruct (pass2_visit None t 0 []) as [[[t' pos'] amb']|e'] eqn:Hv; [done|].
    cbn [mbind result_bind] in H. injection H as <-.
    by apply pass2_visit_raises in Hv.
Qed.

(** X9 on [cherry_tree] as it is given, before Pass 1. *)
Lemma pass2_without_states_raises_witness :
  _fitch_pass2 cherry_tree = Raise AttributeError.
Proof.
  apply (pass2_without_states_raises cherry_tree).
  exists cherry_tree. split; [left|]. split; done.
Defined.

(** X10 (a ['∪'] node in Pass 2).  On a valid tree, every internal node
    below the root that Pass 1 marked ['∪'] ends Pass 2 in the state of
    its parent: it is ambiguous after Pass 2 exactly when its parent
    is. *)
Theorem union_node_takes_parent_state t t1 min_changes t2 ambiguous_nodes :
  valid t = true →
  _fitch_pass1 t = Ok (t1, min_changes) →
  _fitch_pass2 t1 = Ok (t2, ambiguous_nodes) →
  ∀ p c, (p, c) ∈ edges t2 → children c ≠ [] → operation c = Some Union →
         state c = state p.
Proof.
  intros Hv H1 H2 p c Hpc Hne Hop.
  destruct (passes_inv t _ _ _ _ Hv H1 H2) as (-> & -> & -> & ->).
  apply edges_after_pass2 in Hpc as (mra0 & p0 & c0 & Hp0 & Hc0 & -> & ->).
  apply (proj1 (children_after_pass2_nil _ c0)) in Hne.
  assert (Hpne : children p0 ≠ []) by (intros E; rewrite E in Hc0; by apply elem_of_nil in Hc0).
  rewrite (operation_after_pass2 _ c0 Hne) in Hop.
  rewrite (state_after_pass2 _ c0 Hne), (state_after_pass2 _ p0 Hpne). f_equal.
  assert (Hvc : valid c0 = true).
  { apply (valid_subtree t); [done|].
    assert (Hin : c0 ∈ traverse p0).
    { rewrite traverse_unfold. right. apply elem_of_concat.
      exists (traverse c0). split; [|rewrite traverse_unfold; left].
      apply list_elem_of_fmap. by exists c0. }
    clear -Hp0 Hin. revert Hp0. generalize p0 Hin. clear.
    intros p0 Hin. revert p0 Hin.
    induction t as [n d s o g l cs IH] using Tree_ind'. intros p0 Hin Hp0.
    rewrite traverse_unfold in Hp0. apply elem_of_cons in Hp0 as [->|Hp0]; [done|].
    rewrite traverse_unfold. right.
    apply elem_of_concat in Hp0 as (l' & Hl & Hp0).
    apply list_elem_of_fmap in Hl as (x & -> & Hx). cbn [children] in *.
    apply elem_of_concat. exists (traverse x). split.
    - apply list_elem_of_fmap. by exists x.
    - rewrite Forall_forall in IH. by apply (IH x Hx p0). }
  cbn [final]. unfold refined.
  rewrite (fset_union_node c0 Hvc Hne) by (by destruct (truthy (shared_of c0))).
  by rewrite issubset_full, set_and_full.
Qed.

(** X10 on [mixed_cherry] and the edge above its node ["u"]. *)
Lemma union_node_takes_parent_state_witness :
  state (after_pass2 (Some (singleton 0)) (inner "u" [leaf "a" 1; leaf "b" 0]))
  = state (after_pass2 None mixed_cherry).
Proof.
  apply (union_node_takes_parent_state mixed_cherry (after_pass1 mixed_cherry) 1
           (after_pass2 None mixed_cherry) (ambiguous None mixed_cherry 0)).
  - reflexivity.
  - reflexivity.
  - reflexivity.
  - vm_compute. left.
  - discriminate.
  - reflexivity.
Defined.

(** ** The enumeration *)

(** X11 ([_unique_nodes]).  [_unique_nodes] answers [True] exactly when no
    two records of the list, at different positions, name the same node;
    the states of the records play no part. *)
Theorem unique_nodes_iff_no_node_twice (node_states : list record) :
  _unique_nodes node_states = true
  ↔ ∀ i j rec1 rec2,
      node_states !! i = Some rec1 → node_states !! j = Some rec2 →
      ref_id rec1.1 = ref_id rec2.1 → i = j.
Proof.
  rewrite _unique_nodes_ids, NoDup_alt. unfold ids, record in *. split.
  - intros H i j rec1 rec2 H1 H2 Heq. apply (H i j (ref_id rec1.1)).
    + by rewrite list_lookup_fmap, H1.
    + rewrite list_lookup_fmap, H2. cbn. by rewrite Heq.
  - intros H i j x H1 H2. rewrite list_lookup_fmap in H1, H2.
    destruct (node_states !! i) as [rec1|] eqn:E1; [|done].
    destruct (node_states !! j) as [rec2|] eqn:E2; [|done].
    cbn in H1, H2. injection H1 as <-. injection H2 as H2.
    by apply (H i j rec1 rec2).
Qed.

(** X12 (the candidates).  Of the combinations the enumeration draws, those
    that pass [_unique_nodes] are [2 ^ r] in number, [r] being the number
    of distinct ambiguous nodes. *)
Theorem candidates_are_two_to_the_r t1 t2 ambiguous_nodes :
  _fitch_pass2 t1 = Ok (t2, ambiguous_nodes) →
  let r := size (node_set ambiguous_nodes) in
  length (filter (λ tree_state, _unique_nodes tree_state = true)
            (combinations ambiguous_nodes r))
  = (2 ^ r)%nat.
Proof.
  intros (_ & _ & _ & refs & -> & Hnd)%pass2_ok_inv. cbv zeta.
  rewrite node_set_paired by done.
  rewrite <- unique_combinations_count by done.
  apply length_filter_ext_in. intros ts _. apply _unique_nodes_ids.
Qed.

(** X12 on [cherry_tree] after Pass 1. *)
Lemma candidates_are_two_to_the_r_witness :
  let r := size (node_set (ambiguous None cherry_tree 0)) in
  length (filter (λ tree_state, _unique_nodes tree_state = true)
            (combinations (ambiguous None cherry_tree 0) r))
  = (2 ^ r)%nat.
Proof.
  apply (candidates_are_two_to_the_r (after_pass1 cherry_tree)
           (after_pass2 None cherry_tree)).
  reflexivity.
Defined.

(** X13 (the candidate dictionary).  The dictionary built from a candidate
    maps a name to the state of the last record of the candidate whose
    node carries that name, and holds no other name: records of different
    nodes called alike overwrite one another. *)
Theorem name_states_last_record_wins (tree_state : list record) nm :
  name_states tree_state !! nm
  = snd <$> last (filter (λ rec, ref_name rec.1 = nm) tree_state).
Proof.
  unfold name_states. rewrite name_states_last_from, lookup_empty.
  by destruct (last _).
Qed.

(** ** [_fitch] *)



(** X15 (a shared leaf name).  When the name of a leaf of a valid tree is
    carried by another node as well, and Pass 2 finds at most 10 ambiguous
    nodes, [_fitch] raises [TreeError]: the pseudo-root cannot be looked
    up. *)
Theorem shared_leaf_name_raises t t1 min_changes t2 ambiguous_nodes nm :
  valid t = true →
  _fitch_pass1 t = Ok (t1, min_changes) →
  _fitch_pass2 t1 = Ok (t2, ambiguous_nodes) →
  (size (node_set ambiguous_nodes) ≤ 10)%nat →
  nm ∈ get_leaf_names t → name_count t nm ≠ 1%nat →
  _fitch t = Raise TreeError.
Proof.
  intros Hv H1 H2 Hr Hnm Hc.
  destruct (passes_inv t _ _ _ _ Hv H1 H2) as (-> & -> & -> & ->).
  rewrite (_fitch_cases t Hv). unfold too_ambiguous.
  rewrite (proj2 (Nat.ltb_ge _ _)) by done.
  destruct (decide (unique_leaf_names t)) as [Hu|]; [|done].
  unfold unique_leaf_names in Hu. rewrite Forall_forall in Hu.
  by destruct (Hc (Hu nm Hnm)).
Qed.

(** X15 on [twins]. *)
Lemma shared_leaf_name_raises_witness : _fitch twins = Raise TreeError.
Proof.
  apply (shared_leaf_name_raises twins (after_pass1 twins) 1
           (after_pass2 None twins) (ambiguous None twins 0) "a");
    try reflexivity.
  - vm_compute. lia.
  - vm_compute. left.
  - vm_compute. lia.
Defined.

(** X16 (a leaf state that is not a singleton).  When a leaf holds a state
    other than [{0}] and [{1}], its name is not the name of an ambiguous
    node, and Pass 2 finds between 1 and 10 ambiguous nodes, [_fitch]
    raises [ValueError]: the first candidate that is counted fails to
    unpack the state of the leaf. *)
Theorem wide_leaf_raises_in_enumeration t t1 min_changes t2 ambiguous_nodes nm s :
  _fitch_pass1 t = Ok (t1, min_changes) →
  _fitch_pass2 t1 = Ok (t2, ambiguous_nodes) →
  ambiguous_nodes ≠ [] →
  (size (node_set ambiguous_nodes) ≤ 10)%nat →
  (nm, Some s) ∈ leaf_states t → s ≠ singleton 0 → s ≠ singleton 1 →
  (∀ rec, rec ∈ ambiguous_nodes → ref_name rec.1 ≠ nm) →
  _fitch t = Raise ValueError.
Proof.
  intros H1 H2 Hamb Hr Hleaf Hs0 Hs1 Hnames.
  pose proof H1 as (-> & -> & Hst)%pass1_ok_inv.
  pose proof H2 as (Hw & _ & _ & refs & Hrefs & Hnd)%pass2_ok_inv.
  (* the root is internal and every leaf has a state *)
  assert (Hne1 : children (after_pass1 t) ≠ []).
  { intros Hnil. unfold _fitch_pass2 in H2. rewrite pass2_visit_unfold, Hnil in H2.
    cbn [mbind result_bind] in H2. by injection H2 as _ <-. }
  assert (Hstated : stated t = true).
  { destruct Hst as [Hnil|]; [|done].
    rewrite children_after_pass1, Hnil in Hne1. done. }
  assert (Hall : every_state t2).
  { unfold _fitch_pass2 in H2.
    destruct (pass2_visit None (after_pass1 t) 0 []) as [[[t' pos'] amb']|] eqn:Hv;
      [|done].
    cbn [mbind result_bind] in H2. injection H2 as <- <-.
    eapply pass2_visit_every_state; [|exact Hv]. by rewrite stated_after_pass1. }
  assert (Hne2 : children t2 ≠ []).
  { apply (f_equal children) in Hw. rewrite !without_inner_states_unfold in Hw.
    cbn [children] in Hw. intros Hnil. rewrite Hnil in Hw.
    destruct (children (after_pass1 t)); done. }
  (* the leaf is in the working tree *)
  assert (Hleaf2 : (nm, Some s) ∈ leaf_states t2).
  { rewrite <- leaf_states_without_inner_states, Hw,
      leaf_states_without_inner_states, leaf_states_after_pass1. done. }
  destruct (leaf_edge t2 nm (Some s) Hne2 Hleaf2) as (p & c & Hpc & Hnm & Hsc).
  (* every candidate that is counted raises *)
  assert (Hbody : ∀ ts, ts ∈ combinations ambiguous_nodes (size (node_set ambiguous_nodes)) →
    ∀ acc, try_assignment t2 (unions t) acc ts
           = if _unique_nodes ts then Raise ValueError else Ok acc).
  { intros ts Hts acc. unfold try_assignment.
    destruct (_unique_nodes ts); [|done]. cbn [negb].
    rewrite (count_visit_wide (name_states ts) t2 Hall); [done|].
    exists p, c, s. split; [done|]. split; [|split; [done|]].
    - unfold name_states. rewrite Hnm, name_states_last_from, lookup_empty.
      destruct (last _) as [rec|] eqn:Hlast; [|done].
      apply last_Some_elem_of, list_elem_of_filter in Hlast as [Hn Hin].
      apply combinations_sublist in Hts as [Hsub _].
      destruct (Hnames rec (sublist_subseteq _ _ Hsub _ Hin) Hn).
    - by apply unpack_not_singleton. }
  (* and some candidate is counted *)
  assert (Hsome : ∃ ts, ts ∈ combinations ambiguous_nodes (size (node_set ambiguous_nodes))
                        ∧ _unique_nodes ts = true).
  { pose proof (unique_combinations_count refs Hnd) as Hcount.
    rewrite Hrefs, node_set_paired by done.
    destruct (filter (λ ts, NoDup (ids ts)) (combinations (paired refs) (length refs)))
      as [|ts rest] eqn:Hf.
    { cbn in Hcount. pose proof (Nat.pow_nonzero 2 (length refs)). lia. }
    assert (Hin : ts ∈ filter (λ ts, NoDup (ids ts))
                         (combinations (paired refs) (length refs)))
      by (rewrite Hf; left).
    apply list_elem_of_filter in Hin as [Hu Hin].
    exists ts. split; [done|]. by apply _unique_nodes_ids. }
  unfold _fitch. rewrite H1. cbn [mbind result_bind]. rewrite H2.
  cbn [mbind result_bind].
  destruct ambiguous_nodes as [|rec amb] eqn:Ha; [done|]. rewrite <- Ha in *.
  rewrite (proj2 (Nat.ltb_ge _ _)) by done.
  rewrite (for_each_raises _ _ ValueError); [done| |].
  - intros ts Hts acc e'. rewrite (Hbody ts Hts).
    destruct (_unique_nodes ts); congruence.
  - destruct Hsome as (ts & Hts & Hu). exists ts. split; [done|].
    intros acc. by rewrite (Hbody ts Hts), Hu.
Qed.

(** X16 on [wide_below]. *)
Lemma wide_leaf_raises_in_enumeration_witness : _fitch wide_below = Raise ValueError.
Proof.
  apply (wide_leaf_raises_in_enumeration wide_below (after_pass1 wide_below) 1
           (after_pass2 None wide_below) (ambiguous None wide_below 0)
           "a" (StateSet true true)).
  - reflexivity.
  - reflexivity.
  - discriminate.
  - vm_compute. lia.
  - vm_compute. left.
  - discriminate.
  - discriminate.
  - intros rec Hrec. vm_compute in Hrec.
    repeat (apply elem_of_cons in Hrec as [->|Hrec]; [discriminate|]).
    by apply elem_of_nil in Hrec.
Defined.

(** X17 (the veto looks at the root).  On a valid input the pseudo-root,
    when it is found, is in the state of the root of the working tree,
    and that is the state Pass 1 gave the root: looking the pseudo-root
    up never changes what the veto decides. *)
Theorem pseudo_root_in_root_state t t1 min_changes t2 ambiguous_nodes pseudo_root :
  valid t = true →
  _fitch_pass1 t = Ok (t1, min_changes) →
  _fitch_pass2 t1 = Ok (t2, ambiguous_nodes) →
  _get_pseudo_root t2 = Ok pseudo_root →
  state pseudo_root = state t2 ∧ state t2 = state t1.
Proof.
  intros Hv H1 H2 Hp.
  pose proof H2 as (_ & Hroot & _)%pass2_ok_inv.
  destruct (passes_inv t _ _ _ _ Hv H1 H2) as (-> & -> & -> & ->).
  split; [by apply pseudo_root_state|done].
Qed.

(** X17 on [stalked], whose pseudo-root is not the root. *)
Lemma pseudo_root_in_root_state_witness :
  state (first_branching (after_pass2 None stalked)) = state (after_pass2 None stalked)
  ∧ state (after_pass2 None stalked) = state (after_pass1 stalked).
Proof.
  apply (pseudo_root_in_root_state stalked (after_pass1 stalked) 1
           (after_pass2 None stalked) (ambiguous None stalked 0)).
  - reflexivity.
  - reflexivity.
  - reflexivity.
  - vm_compute. reflexivity.
Defined.

(** X18 (topology of the returned trees).  Every tree [_fitch] returns on a
    valid input has the names, the branch lengths and the topology of the
    input. *)
Theorem returned_trees_keep_shape t w min_changes annot_trees :
  valid t = true →
  _fitch t = Ok (w, (min_changes, annot_trees)) →
  ∀ e, e ∈ annot_trees → shape_of e = shape_of t.
Proof.
  intros Hv H e He.
  destruct (returned_candidates _ _ _ _ _ Hv H He) as (Hc & _ & _).
  apply (elem_of_candidates t e Hv) in Hc as [[_ ->]|(ts & _ & _ & _ & _ & _ & ->)].
  - by rewrite shape_of_marked, shape_of_after_pass2.
  - by rewrite shape_of_annotate, shape_of_after_pass2.
Qed.

(** X18 on [cherry_tree] and the tree returned for it. *)
Lemma returned_trees_keep_shape_witness :
  shape_of cherry_history = shape_of cherry_tree.
Proof.
  apply (returned_trees_keep_shape cherry_tree (after_pass2 None cherry_tree) 1
           [cherry_history]).
  - reflexivity.
  - vm_compute. reflexivity.
  - left.
Defined.

(** X19 (the returned trees are resolved).  In every tree [_fitch] returns
    on a valid input, every node, internal or leaf, is in state [{0}] or
    in state [{1}]. *)
Theorem returned_trees_fully_resolved t w min_changes annot_trees :
  valid t = true →
  _fitch t = Ok (w, (min_changes, annot_trees)) →
  ∀ e, e ∈ annot_trees → fully_resolved e.
Proof.
  intros Hv H e He.
  destruct (returned_candidates _ _ _ _ _ Hv H He) as (Hc & _ & _).
  apply (elem_of_candidates t e Hv) in Hc as [[Hamb ->]|(ts & _ & _ & _ & Hr & _ & ->)].
  - apply resolved_fully. rewrite resolved_marked. by apply resolved_no_ambiguity.
  - apply resolved_fully. by apply labelling_annotate.
Qed.

(** X19 on [cherry_tree] and the tree returned for it. *)
Lemma returned_trees_fully_resolved_witness : fully_resolved cherry_history.
Proof.
  apply (returned_trees_fully_resolved cherry_tree (after_pass2 None cherry_tree) 1
           [cherry_history]).
  - reflexivity.
  - vm_compute. reflexivity.
  - left.
Defined.

(** X20 (the leaves of the returned trees).  When the names of the input are
    pairwise distinct, every returned tree has the leaves of the input,
    each with the state it came with. *)
Theorem returned_trees_keep_leaf_states t w min_changes annot_trees :
  valid t = true → NoDup (name <$> traverse t) →
  _fitch t = Ok (w, (min_changes, annot_trees)) →
  ∀ e, e ∈ annot_trees → leaf_states e = leaf_states t.
Proof.
  intros Hv Hnd H e He.
  destruct (returned_candidates _ _ _ _ _ Hv H He) as (Hc & _ & _).
  apply (elem_of_candidates t e Hv) in Hc
    as [[Hamb ->]|(ts & Hts & _ & _ & Hr & _ & ->)].
  - by rewrite leaf_states_marked, leaf_states_after_pass2.
  - rewrite leaf_states_annotate, leaf_states_after_pass2; [done|].
    apply distinct_names_leaves_free; [done|].
    by apply combinations_sublist in Hts as [? _].
Qed.

(** X20 on [cherry_tree] and the tree returned for it. *)
Lemma returned_trees_keep_leaf_states_witness :
  leaf_states cherry_history = leaf_states cherry_tree.
Proof.
  apply (returned_trees_keep_leaf_states cherry_tree (after_pass2 None cherry_tree) 1
           [cherry_history]).
  - reflexivity.
  - apply (bool_decide_unpack _). vm_compute. exact I.
  - vm_compute. reflexivity.
  - left.
Defined.

(** X21 (flags and states agree).  When the names of a valid input are
    pairwise distinct, the flags of every returned tree mark exactly its
    transitions: a node carries [gain] exactly when it is in state [{1}]
    below a parent in state [{0}], [loss] exactly when it is in state
    [{0}] below a parent in state [{1}], and the root carries neither. *)
Theorem returned_flags_mark_transitions t w min_changes annot_trees :
  valid t = true → NoDup (name <$> traverse t) →
  _fitch t = Ok (w, (min_changes, annot_trees)) →
  ∀ e, e ∈ annot_trees → flags_mark_transitions e.
Proof.
  intros Hv Hnd H e He.
  destruct (returned_candidates _ _ _ _ _ Hv H He) as (Hc & _ & _).
  destruct (after_pass2_keeps t None) as (_ & _ & Hun & Hval & Hnames).
  apply (elem_of_candidates t e Hv) in Hc
    as [[Hamb ->]|(ts & Hts & Hne & _ & Hres & Htot & ->)].
  - apply marked_flags, unflagged_after_pass2.
  - set (u := after_pass2 None t) in *.
    apply annotate_flags.
    + by rewrite Hnames.
    + done.
    + apply unflagged_after_pass2.
    + assert (Hst : state (annotate (name_states ts)
                       (candidate_changes (name_states ts) u) u)
                    = Some (singleton 0)).
      { apply accepted_root_state.
        - by rewrite Hval.
        - by apply ambiguous_inner_root with (pos := 0%nat).
        - done.
        - apply distinct_names_leaves_free; [done|].
          by apply combinations_sublist in Hts as [? _].
        - by rewrite Hun. }
      pose proof (resolved_resolvable _ _ Hres) as Hr.
      destruct (label_annotate (name_states ts)
                  (candidate_changes (name_states ts) u) u Hr) as [_ <-].
      unfold label. rewrite lookup_empty, Hst. done.
Qed.

(** X21 on [cherry_tree] and the tree returned for it. *)
Lemma returned_flags_mark_transitions_witness :
  flags_mark_transitions cherry_history.
Proof.
  apply (returned_flags_mark_transitions cherry_tree (after_pass2 None cherry_tree) 1
           [cherry_history]).
  - reflexivity.
  - apply (bool_decide_unpack _). vm_compute. exact I.
  - vm_compute. reflexivity.
  - left.
Defined.

(** X22 (how many trees).  On a valid input [_fitch] returns at most
    [2 ^ r] trees, [r] being the number of distinct ambiguous nodes, and
    never more than 1024. *)
Theorem returned_trees_at_most_two_to_the_r
    t t1 min_changes t2 ambiguous_nodes w annot_trees :
  valid t = true →
  _fitch_pass1 t = Ok (t1, min_changes) →
  _fitch_pass2 t1 = Ok (t2, ambiguous_nodes) →
  _fitch t = Ok (w, (min_changes, annot_trees)) →
  (length annot_trees ≤ 2 ^ size (node_set ambiguous_nodes))%nat
  ∧ (length annot_trees ≤ 1024)%nat.
Proof.
  intros Hv H1 H2 H.
  pose proof H2 as (_ & _ & _ & refs & Hrefs & Hnd)%pass2_ok_inv.
  destruct (passes_inv t _ _ _ _ Hv H1 H2) as (-> & -> & -> & Hamb).
  rewrite (_fitch_cases t Hv) in H. unfold too_ambiguous in H.
  rewrite <- Hamb in H.
  destruct (10 <? size (node_set ambiguous_nodes))%nat eqn:Hr.
  { injection H as <- <-. cbn [length]. split; lia. }
  apply Nat.ltb_ge in Hr.
  assert (Hpow : (2 ^ size (node_set ambiguous_nodes) ≤ 1024)%nat).
  { change 1024%nat with (2 ^ 10)%nat. apply Nat.pow_le_mono_r; lia. }
  assert (Hcand : (length (candidates t) ≤ 2 ^ size (node_set ambiguous_nodes))%nat).
  { unfold candidates. rewrite <- Hamb.
    destruct ambiguous_nodes as [|rec amb] eqn:Ha.
    { cbn [length]. change (size (node_set [])) with 0%nat. cbn. lia. }
    rewrite <- Ha in *. etrans; [apply length_accepted_all|].
    rewrite Hrefs, node_set_paired by done.
    rewrite <- (unique_combinations_count refs Hnd).
    apply Nat.eq_le_incl, length_filter_ext_in.
    intros ts _. apply _unique_nodes_ids. }
  destruct (decide (unique_leaf_names t)); [|done].
  destruct (decide (fset t = singleton 1)); injection H as <- <-.
  - cbn [length]. split; lia.
  - split; lia.
Qed.

(** X22 on [cherry_tree] and the tree returned for it. *)
Lemma returned_trees_at_most_two_to_the_r_witness :
  (length [cherry_history] ≤ 2 ^ size (node_set (ambiguous None cherry_tree 0)))%nat
  ∧ (length [cherry_history] ≤ 1024)%nat.
Proof.
  apply (returned_trees_at_most_two_to_the_r cherry_tree (after_pass1 cherry_tree) 1
           (after_pass2 None cherry_tree) (ambiguous None cherry_tree 0)
           (after_pass2 None cherry_tree) [cherry_history]).
  - reflexivity.
  - reflexivity.
  - reflexivity.
  - vm_compute. reflexivity.
Defined.

(** X23 (the trait is absent from every leaf).  When every leaf is in state
    [{0}] and no leaf name is carried by two nodes, [_fitch] returns 0 and
    exactly one tree, in which every node is in state [{0}] and no node
    carries a flag. *)
Theorem all_absent_one_quiet_tree t :
  uniform 0 t → unique_leaf_names t →
  ∃ w e, _fitch t = Ok (w, (0, [e])) ∧ quiet 0 e.
Proof.
  intros Hu Hnames.
  pose proof (uniform_valid 0 t ltac:(auto) Hu) as Hv.
  destruct (uniform_no_union 0 t ltac:(auto) Hu) as [Hf Hz].
  destruct (uniform_pass2 0 t ltac:(auto) Hu None 0%nat ltac:(auto)) as [Hamb Hq].
  exists (after_pass2 None t), (marked (after_pass2 None t) false false).
  split; [|apply quiet_marked; auto].
  rewrite (_fitch_cases t Hv), too_ambiguous_nil by done.
  rewrite decide_True by done. rewrite Hz, Hf.
  rewrite decide_False by done. unfold candidates. by rewrite Hamb.
Qed.

(** X23 on [zeros]. *)
Lemma all_absent_one_quiet_tree_witness :
  ∃ w e, _fitch zeros = Ok (w, (0, [e])) ∧ quiet 0 e.
Proof.
  apply (all_absent_one_quiet_tree zeros).
  - intros n Hn Hleaf. vm_compute in Hn.
    repeat (apply elem_of_cons in Hn as [->|Hn]; [done|]).
    by apply elem_of_nil in Hn.
  - apply (bool_decide_unpack _). vm_compute. exact I.
Defined.

(** X24 (the trait is present in every leaf).  When every leaf is in state
    [{1}] and no leaf name is carried by two nodes, [_fitch] returns 0 and
    no tree at all: the origin veto discards the only candidate. *)
Theorem all_present_no_tree t :
  uniform 1 t → unique_leaf_names t →
  ∃ w, _fitch t = Ok (w, (0, [])).
Proof.
  intros Hu Hnames.
  pose proof (uniform_valid 1 t ltac:(auto) Hu) as Hv.
  destruct (uniform_no_union 1 t ltac:(auto) Hu) as [Hf Hz].
  destruct (uniform_pass2 1 t ltac:(auto) Hu None 0%nat ltac:(auto)) as [Hamb _].
  exists (after_pass2 None t).
  rewrite (_fitch_cases t Hv), too_ambiguous_nil by done.
  rewrite decide_True by done. rewrite Hz, Hf.
  by rewrite decide_True.
Qed.

(** X24 on [ones]. *)
Lemma all_present_no_tree_witness : ∃ w, _fitch ones = Ok (w, (0, [])).
Proof.
  apply (all_present_no_tree ones).
  - intros n Hn Hleaf. vm_compute in Hn.
    repeat (apply elem_of_cons in Hn as [->|Hn]; [done|]).
    by apply elem_of_nil in Hn.
  - apply (bool_decide_unpack _). vm_compute. exact I.
Defined.

(** ** The entry point *)



(** ** Node ages *)

(** X26 (repeated names in [get_node_age]).  The dictionary holds, under
    each name, the entry of the last node of that name in postorder: the
    name itself when that node is a leaf, its farthest-leaf distance
    otherwise; a name no node carries has no entry. *)
Theorem node_age_last_in_postorder_wins t nm :
  get_node_age t !! nm
  = age_entry <$> last (filter (λ n, name n = nm) (postorder t)).
Proof.
  unfold get_node_age. rewrite node_age_visit_last, lookup_empty.
  by destruct (last _).
Qed.

(** X27 (the keys of [get_node_age]).  The keys of the dictionary are the
    names of the nodes of the tree, leaves and internal nodes alike. *)
Theorem node_age_keys t :
  dom (get_node_age t) = list_to_set (name <$> traverse t).
Proof.
  apply set_eq. intros nm.
  rewrite elem_of_dom, elem_of_list_to_set, <- postorder_perm.
  unfold get_node_age. rewrite node_age_visit_last, lookup_empty. split.
  - destruct (last _) as [n|] eqn:Hlast; [|by intros [? ?]]. intros _.
    apply last_Some_elem_of, list_elem_of_filter in Hlast as [<- Hn].
    apply list_elem_of_fmap. by exists n.
  - intros (n & -> & Hn)%list_elem_of_fmap.
    destruct (last _) as [n'|] eqn:Hlast; [done|].
    apply last_None in Hlast.
    assert (n ∈ filter (λ n0, name n0 = name n) (postorder t)) as Hin
      by by apply list_elem_of_filter.
    rewrite Hlast in Hin. by apply elem_of_nil in Hin.
Qed.



(** ** Rendering *)

(** X29 ([viz] needs the states).  On a tree with a node that has no [state]
    attribute, such as an input tree whose internal nodes the
    reconstruction has not annotated, [viz] raises [AttributeError] before
    anything is rendered. *)
Theorem viz_without_state_raises tree :
  (∃ n, n ∈ traverse tree ∧ state n = None) →
  viz tree = Raise AttributeError.
Proof.
  intros (n & Hn & Hst). unfold viz.
  apply comprehension_raises; [apply viz_node_raises|].
  exists n. split; [done|]. exists AttributeError.
  unfold viz_node, get_state. rewrite Hst. by destruct (is_leaf n).
Qed.

(** X29 on [cherry_tree] as it is given. *)
Lemma viz_without_state_raises_witness : viz cherry_tree = Raise AttributeError.
Proof.
  apply (viz_without_state_raises cherry_tree).
  exists cherry_tree. split; [left|reflexivity].
Defined.

(** X30 (what [viz] draws on a returned tree).  On every tree [_fitch]
    returns for a valid input with pairwise distinct names, [viz] raises
    nothing and decorates every node; the root gets no style, and a node
    below a parent gets the origin style when it is in state [{1}] under a
    parent in state [{0}], the positive style when it is in state [{1}]
    under a parent in state [{1}], and no style when it is in state
    [{0}]: a loss is not drawn. *)
Theorem viz_styles_on_returned_tree t w min_changes annot_trees e :
  valid t = true → NoDup (name <$> traverse t) →
  _fitch t = Ok (w, (min_changes, annot_trees)) → e ∈ annot_trees →
  (∃ ds, viz e = Ok ds ∧ length ds = length (traverse e))
  ∧ (∃ d, viz_node e = Ok d ∧ style d = None)
  ∧ ∀ p c, (p, c) ∈ edges e →
      ∃ d, viz_node c = Ok d ∧ style d = style_below p c.
Proof.
  intros Hv Hnd H He.
  destruct (returned_candidates _ _ _ _ _ Hv H He) as (Hc & _ & _).
  destruct (after_pass2_keeps t None) as (_ & _ & Hun & Hval & Hnames).
  assert (Hres : fully_resolved e ∧ flags_mark_transitions e
                 ∧ state e = Some (singleton 0)).
  { apply (elem_of_candidates t e Hv) in Hc
      as [[Hamb ->]|(ts & Hts & Hne & _ & Hres & Htot & ->)].
    - split; [|split].
      + apply resolved_fully. rewrite resolved_marked.
        by apply resolved_no_ambiguity.
      + apply marked_flags, unflagged_after_pass2.
      + rewrite state_marked.
        destruct (no_ambiguity_root_state t Hv Hamb) as (v & Hv01 & Hf & Hst).
        rewrite Hst. destruct Hv01 as [-> | ->]; [done|].
        rewrite (_fitch_cases t Hv) in H.
        destruct (too_ambiguous t); [injection H as <- <- <-; by apply elem_of_nil in He|].
        destruct (decide (unique_leaf_names t)); [|done].
        rewrite decide_True in H by done.
        injection H as <- <- <-. by apply elem_of_nil in He.
    - set (u := after_pass2 None t) in *.
      assert (Hst : state (annotate (name_states ts)
                         (candidate_changes (name_states ts) u) u)
                    = Some (singleton 0)).
      { apply accepted_root_state.
        - by rewrite Hval.
        - by apply ambiguous_inner_root with (pos := 0%nat).
        - done.
        - apply distinct_names_leaves_free; [done|].
          by apply combinations_sublist in Hts as [? _].
        - by rewrite Hun. }
      split; [|split; [|done]].
      + apply resolved_fully. by apply labelling_annotate.
      + apply annotate_flags.
        * by rewrite Hnames.
        * done.
        * apply unflagged_after_pass2.
        * pose proof (resolved_resolvable _ _ Hres) as Hr.
          destruct (label_annotate (name_states ts)
                      (candidate_changes (name_states ts) u) u Hr) as [_ <-].
          unfold label. rewrite lookup_empty, Hst. done. }
  destruct Hres as (Hfull & (Hg & Hl & Hflags) & Hroot).
  assert (Hnode : ∀ n, n ∈ traverse e →
    ∃ d, viz_node n = Ok d
         ∧ style d = if gain n then Some ori_node_style
                     else if is_state 1 n then Some pos_node_style else None).
  { intros n Hn. destruct (Hfull n Hn) as [Hs|Hs];
      rewrite (viz_node_stated n _ Hs); eexists; (split; [done|]);
      cbn [style]; unfold is_state; rewrite Hs; by destruct (gain n). }
  split; [|split].
  - assert (∃ f, ∀ n, n ∈ traverse e → viz_node n = Ok (f n)) as [f Hf].
    { exists (λ n, match viz_node n with
                   | Ok d => d
                   | Raise _ => Decoration [] None
                   end).
      intros n Hn. by destruct (Hnode n Hn) as (d & -> & _). }
    exists (f <$> traverse e). split; [|by rewrite length_fmap].
    unfold viz. by apply comprehension_ok.
  - destruct (Hnode e ltac:(rewrite traverse_unfold; left)) as (d & Hd & Hs).
    exists d. split; [done|]. rewrite Hs, Hg. unfold is_state. by rewrite Hroot.
  - intros p c Hpc. destruct (edge_ends e p c Hpc) as [Hp Hcin].
    destruct (Hnode c Hcin) as (d & Hd & Hs).
    exists d. split; [done|]. rewrite Hs.
    destruct (Hflags p c Hpc) as [-> _]. unfold style_below.
    destruct (Hfull p Hp) as [Hsp|Hsp], (Hfull c Hcin) as [Hsc|Hsc];
      unfold is_state; rewrite Hsp, Hsc; done.
Qed.

(** X30 on [cherry_tree] and the tree returned for it. *)
Lemma viz_styles_on_returned_tree_witness :
  (∃ ds, viz cherry_history = Ok ds ∧ length ds = length (traverse cherry_history))
  ∧ (∃ d, viz_node cherry_history = Ok d ∧ style d = None)
  ∧ ∀ p c, (p, c) ∈ edges cherry_history →
      ∃ d, viz_node c = Ok d ∧ style d = style_below p c.
Proof.
  apply (viz_styles_on_returned_tree cherry_tree (after_pass2 None cherry_tree) 1
           [cherry_history]).
  - reflexivity.
  - apply (bool_decide_unpack _). vm_compute. exact I.
  - vm_compute. reflexivity.
  - left.
Defined.
